(** * Similarity search and scoring engine of X-auto-post-system

    A shallow embedding of the image-similarity core of the Next.js
    application: the CLIP embedding service (cosine similarity, lazy model
    initialisation), the perceptual hash service (hash, Hamming distance),
    [vectorStore.ts] (the IndexedDB-backed index and its top-N query) and
    the image similarity service (score fusion and the search facade).
    Part IV goes on to what these modules hold besides (the other
    operations of the store, [registerImage], [getStats]), to the modal that
    runs the search, and to string helpers of the parser and of the Lens
    service.

    Modelling conventions.
    - A JavaScript [number] is an IEEE-754 binary64 value: Rocq's primitive
      [float], whose operations are the correctly rounded ones JavaScript
      uses ([+], [-], [*], [/], [Math.sqrt], [<], [===]).  [Math.cos] is not
      a correctly rounded operation, so the transform that uses it is written
      once over an abstract number system and read both over [float] (with
      the platform's cosine as a parameter) and over the real numbers.
    - Counters that the code only ever increments by one from zero (array
      lengths, registration counts, the Hamming distance) are [nat]; they are
      converted to [float] where the code divides them.
    - A thrown exception or rejected promise is the [Throw] case of [Result].
    - A JavaScript [Map] is an association list in insertion order.
    - [Array.prototype.sort] is stable; it is embedded as insertion sort on
      the sign of the comparator, which is what every stable sort computes
      when the comparator is consistent.  The numeric comparators of this
      code are consistent when none of the sort keys is [NaN], and the
      statements about the order of a sorted array carry that condition. *)

From Stdlib Require Import ZArith Lia List Bool String Ascii Floats.
From Stdlib Require Import Reals Lra Permutation Sorted.
Import ListNotations.

Set Warnings "-inexact-float".

(** * Part I. The embedding *)

(** ** Exceptions *)

Inductive JsError : Type :=
| VectorsMustHaveSameLength   (* Error('Vectors must have the same length') *)
| ReduceOfEmptyArray          (* TypeError: reduce of empty array *)
| ExternalFailure (what : string). (* a rejected collaborator promise *)

Inductive Result (A : Type) : Type :=
| Ok (a : A)
| Throw (e : JsError).
Arguments Ok {A} a.
Arguments Throw {A} e.

Definition bind {A B : Type} (r : Result A) (k : A -> Result B) : Result B :=
  match r with
  | Ok a => k a
  | Throw e => Throw e
  end.

Notation "x <- r ;; k" := (bind r (fun x => k))
  (at level 61, r at next level, right associativity).

(** [Array.prototype.map] with a callback that may throw: left to right, the
    first exception aborts the whole map. *)
Fixpoint mapM {A B : Type} (f : A -> Result B) (l : list A) : Result (list B) :=
  match l with
  | [] => Ok []
  | a :: l' => b <- f a ;; bs <- mapM f l' ;; Ok (b :: bs)
  end.

(** ** Numbers *)

Definition number : Type := float.

(** The [number] that holds a count. Exact below 2^53. *)
Definition numOfNat (n : nat) : number :=
  PrimFloat.of_uint63 (Uint63.of_Z (Z.of_nat n)).

(** [a > b] on numbers. *)
Definition gt (a b : number) : bool := PrimFloat.ltb b a.
(** [a >= b] on numbers. *)
Definition ge (a b : number) : bool := PrimFloat.leb b a.

(** ** [Array.prototype.sort(comparefn)] *)

Section JsSort.
Context {A : Type}.
Variable comparefn : A -> A -> number.

(** [comparefn(a, b) > 0]: [a] is to be placed after [b].  A [NaN] result
    counts as 0, as in the language's SortCompare.  With a comparator that
    is not consistent (a [NaN] among the keys of [(a, b) => a - b]) the
    language leaves the order to the engine: [jsSort] then gives a
    permutation of the array that need not be the engine's. *)
Definition sortsAfter (a b : A) : bool := PrimFloat.ltb 0 (comparefn a b).

Fixpoint sortInsert (x : A) (l : list A) : list A :=
  match l with
  | [] => [x]
  | y :: l' => if sortsAfter x y then y :: sortInsert x l' else x :: y :: l'
  end.

Definition jsSort (l : list A) : list A := fold_right sortInsert [] l.
End JsSort.

(** ** [Map] in insertion order *)

Section JsMap.
Context {V : Type}.

Fixpoint mapGet (key : string) (m : list (string * V)) : option V :=
  match m with
  | [] => None
  | (k, v) :: m' => if String.eqb k key then Some v else mapGet key m'
  end.

(** [set] keeps the position of an existing key and appends a new one. *)
Fixpoint mapSet (key : string) (v : V) (m : list (string * V)) : list (string * V) :=
  match m with
  | [] => [(key, v)]
  | (k, v0) :: m' =>
      if String.eqb k key then (k, v) :: m' else (k, v0) :: mapSet key v m'
  end.

Definition mapHas (key : string) (m : list (string * V)) : bool :=
  match mapGet key m with Some _ => true | None => false end.
End JsMap.

(** ** The CLIP embedding service: [cosineSimilarity] *)

Fixpoint cosineLoop (a b : list number) (acc : number * number * number)
  : number * number * number :=
  match a, b with
  | x :: a', y :: b' =>
      let '(dot, normA, normB) := acc in
      cosineLoop a' b' (dot + x * y, normA + x * x, normB + y * y)%float
  | _, _ => acc
  end.

Definition cosineSimilarity (a b : list number) : Result number :=
  if negb (Nat.eqb (List.length a) (List.length b)) then
    Throw VectorsMustHaveSameLength
  else
    let '(dot, normA, normB) := cosineLoop a b (0, 0, 0)%float in
    let denominator := (PrimFloat.sqrt normA * PrimFloat.sqrt normB)%float in
    if PrimFloat.eqb denominator 0 then Ok 0%float
    else Ok (dot / denominator)%float.

(** ** The perceptual hash service *)

(** *** String helpers of the language *)

Definition strRepeat (c : ascii) (n : nat) : string :=
  string_of_list_ascii (repeat c n).

(** [s.padStart(n, c)] and [s.padEnd(n, c)] for a one-character filler. *)
Definition padStart (n : nat) (c : ascii) (s : string) : string :=
  (strRepeat c (n - String.length s) ++ s)%string.
Definition padEnd (n : nat) (c : ascii) (s : string) : string :=
  (s ++ strRepeat c (n - String.length s))%string.

(** [s.slice(0, n)] for [0 <= n]. *)
Definition sliceTo (n : nat) (s : string) : string := String.substring 0 n s.

(** [parseInt(char, 16)] on a single character: [None] is [NaN]. *)
Definition parseInt16 (c : ascii) : option N :=
  let n := N_of_ascii c in
  if (48 <=? n)%N && (n <=? 57)%N then Some (n - 48)%N
  else if (97 <=? n)%N && (n <=? 102)%N then Some (n - 87)%N
  else if (65 <=? n)%N && (n <=? 70)%N then Some (n - 55)%N
  else None.

(** [n.toString(2)]. *)
Fixpoint posToString2 (p : positive) : string :=
  match p with
  | xH => "1"
  | xO q => posToString2 q ++ "0"
  | xI q => posToString2 q ++ "1"
  end%string.

Definition toString2 (n : option N) : string :=
  match n with
  | None => "NaN"
  | Some N0 => "0"
  | Some (Npos p) => posToString2 p
  end%string.

(** [parseInt(chunk, 2)] on a chunk of binary digits: the longest prefix of
    ['0']/['1'] is read; no digit at all gives [NaN].  The hasher only calls
    it on strings of ['0'] and ['1']. *)
Fixpoint parseBinaryDigits (s : string) (acc : option N) : option N :=
  match s with
  | String c s' =>
      if Ascii.eqb c "0" then
        parseBinaryDigits s' (Some (2 * match acc with Some a => a | None => 0 end)%N)
      else if Ascii.eqb c "1" then
        parseBinaryDigits s' (Some (2 * match acc with Some a => a | None => 0 end + 1)%N)
      else acc
  | EmptyString => acc
  end.

Definition parseInt2 (s : string) : option N := parseBinaryDigits s None.

(** [n.toString(16)] for the values a four-character chunk can take
    ([n < 16]: one lower-case digit). *)
Definition hexDigit (n : N) : ascii :=
  if (n <? 10)%N then ascii_of_N (48 + n) else ascii_of_N (87 + n).

Definition toString16 (n : option N) : string :=
  match n with
  | None => "NaN"
  | Some v => String (hexDigit v) EmptyString
  end%string.

(** *** [binaryToHex] and [hexToBinary] *)

Definition hexOfChunk (chunk : string) : string :=
  toString16 (parseInt2 (padEnd 4 "0" chunk)).

Fixpoint binaryToHex (binary : string) : string :=
  match binary with
  | EmptyString => EmptyString
  | String a (String b (String c (String d rest))) =>
      (hexOfChunk (String a (String b (String c (String d EmptyString))))
       ++ binaryToHex rest)%string
  | short => hexOfChunk short
  end.

Fixpoint hexToBinary (hex : string) : string :=
  match hex with
  | EmptyString => EmptyString
  | String char rest =>
      (padStart 4 "0" (toString2 (parseInt16 char)) ++ hexToBinary rest)%string
  end.

(** *** [hammingDistance] and [pHashSimilarity] *)

(** [bin[i] || '0'] *)
Definition charOr0 (bin : string) (i : nat) : ascii :=
  match String.get i bin with
  | Some c => c
  | None => "0"%char
  end.

Definition hammingDistance (hash1 hash2 : string) : nat :=
  let bin1 := hexToBinary hash1 in
  let bin2 := hexToBinary hash2 in
  let len := Nat.max (String.length bin1) (String.length bin2) in
  List.length
    (filter (fun i => negb (Ascii.eqb (charOr0 bin1 i) (charOr0 bin2 i)))
            (seq 0 len)).

Definition pHashSimilarity (hash1 hash2 : string) : number :=
  let distance := hammingDistance hash1 hash2 in
  (1 - numOfNat distance / 64)%float.

(** *** [computeDCT]

    The transform is written once over the operations it uses.  [floatOps]
    reads it as the browser runs it; [realOps] reads it over the reals, where
    the claim about the mathematical transform lives. *)

Record NumOps (num : Type) : Type := {
  nAdd : num -> num -> num;
  nMul : num -> num -> num;
  nDiv : num -> num -> num;
  nSqrt : num -> num;
  nCos : num -> num;            (* Math.cos *)
  nOfNat : nat -> num;          (* a loop index or integer literal *)
  nPI : num;                    (* Math.PI *)
  nQuarter : num;               (* the literal 0.25 *)
  nUndefined : num              (* what a read outside the array yields *)
}.
Arguments nAdd {num} _. Arguments nMul {num} _. Arguments nDiv {num} _.
Arguments nSqrt {num} _. Arguments nCos {num} _. Arguments nOfNat {num} _.
Arguments nPI {num} _. Arguments nQuarter {num} _. Arguments nUndefined {num} _.

Section ComputeDCT.
Context {num : Type} (O : NumOps num).

(** [pixels[x][y]] *)
Definition pixelAt (pixels : list (list num)) (x y : nat) : num :=
  nth y (nth x pixels []) (nUndefined O).

(** [(2 * k + 1) * w * Math.PI / (2 * size)] *)
Definition dctAngle (size k w : nat) : num :=
  nDiv O
    (nMul O (nMul O (nAdd O (nMul O (nOfNat O 2) (nOfNat O k)) (nOfNat O 1))
                    (nOfNat O w))
            (nPI O))
    (nMul O (nOfNat O 2) (nOfNat O size)).

(** The two inner loops: the running [sum] over [x] and [y]. *)
Definition dctSum (pixels : list (list num)) (size u v : nat) : num :=
  fold_left
    (fun sum x =>
       fold_left
         (fun sum y =>
            nAdd O sum
              (nMul O (nMul O (pixelAt pixels x y) (nCos O (dctAngle size x u)))
                      (nCos O (dctAngle size y v))))
         (seq 0 size) sum)
    (seq 0 size) (nOfNat O 0).

(** [u === 0 ? 1 / Math.sqrt(2) : 1] *)
Definition dctC (u : nat) : num :=
  if Nat.eqb u 0 then nDiv O (nOfNat O 1) (nSqrt O (nOfNat O 2))
  else nOfNat O 1.

Definition dctCoefficient (pixels : list (list num)) (size u v : nat) : num :=
  nMul O (nMul O (nMul O (nQuarter O) (dctC u)) (dctC v))
         (dctSum pixels size u v).

Definition computeDCT (pixels : list (list num)) (size : nat) : list (list num) :=
  map (fun u => map (fun v => dctCoefficient pixels size u v) (seq 0 size))
      (seq 0 size).
End ComputeDCT.

Definition floatOps (Math_cos : number -> number) : NumOps number := {|
  nAdd := PrimFloat.add;
  nMul := PrimFloat.mul;
  nDiv := PrimFloat.div;
  nSqrt := PrimFloat.sqrt;
  nCos := Math_cos;
  nOfNat := numOfNat;
  nPI := 3.141592653589793%float;
  nQuarter := 0.25%float;
  nUndefined := PrimFloat.nan
|}.

Definition realOps : NumOps R := {|
  nAdd := Rplus;
  nMul := Rmult;
  nDiv := Rdiv;
  nSqrt := sqrt;
  nCos := cos;
  nOfNat := INR;
  nPI := PI;
  nQuarter := (1 / 4)%R;
  nUndefined := 0%R
|}.

(** *** [computePHash]

    Decoding the image and drawing it on a 32x32 canvas is the browser's
    work; [loadImageData] stands for it (lines 21-40 and 80-86) and yields
    the RGBA bytes [imageData.data], or the rejection of the promise: the
    [Image] fails to load, the canvas gives no 2d context ('Failed to get
    canvas context'), or drawing the image or reading the pixels throws.
    What follows the read cannot throw. *)

Record Browser : Type := {
  loadImageData : string -> Result (list number);
  Math_cos : number -> number
}.

(** Lines 43-53: the luminance of every pixel. *)
Definition grayPixelsOf (data : list number) (size : nat) : list (list number) :=
  map (fun y =>
         map (fun x =>
                let idx := (y * size + x) * 4 in
                (0.299 * nth idx data PrimFloat.nan
                 + 0.587 * nth (idx + 1) data PrimFloat.nan
                 + 0.114 * nth (idx + 2) data PrimFloat.nan)%float)
             (seq 0 size))
      (seq 0 size).

(** Lines 59-65: the 8x8 low-frequency block in row order, without the DC
    term [dctResult[0][0]]. *)
Definition lowFreqOf (dctResult : list (list number)) : list number :=
  flat_map
    (fun y =>
       flat_map
         (fun x =>
            if Nat.eqb y 0 && Nat.eqb x 0 then []
            else [nth x (nth y dctResult []) PrimFloat.nan])
         (seq 0 8))
    (seq 0 8).

(** Lines 68-69: [sorted[Math.floor(sorted.length / 2)]]. *)
Definition sortedAscending (lowFreq : list number) : list number :=
  jsSort (fun a b => (a - b)%float) lowFreq.

Definition medianOf (lowFreq : list number) : number :=
  let sorted := sortedAscending lowFreq in
  nth (List.length sorted / 2) sorted PrimFloat.nan.

(** Lines 72-75: one character per coefficient. *)
Definition hashBitsOf (lowFreq : list number) : string :=
  let median := medianOf lowFreq in
  fold_left
    (fun hash val => (hash ++ (if gt val median then "1" else "0"))%string)
    lowFreq EmptyString.

(** Line 78. *)
Definition hexHashOf (dctResult : list (list number)) : string :=
  binaryToHex (sliceTo 64 (padEnd 64 "0" (hashBitsOf (lowFreqOf dctResult)))).

Definition computePHash (browser : Browser) (imageBase64 : string) : Result string :=
  data <- loadImageData browser imageBase64 ;;
  let size := 32 in
  let grayPixels := grayPixelsOf data size in
  let dctResult := computeDCT (floatOps (Math_cos browser)) grayPixels size in
  Ok (hexHashOf dctResult).

(** ** vectorStore.ts *)

Record ImageRecord : Type := {
  id : string;
  embedding : list number;
  pHash : string;
  accountName : string;
  accountHandle : string;
  eventName : option string;
  imageUrl : option string;
  createdAt : number
}.

(** [SearchResult extends ImageRecord]: the record's fields and [clipScore]. *)
Record SearchResult : Type := {
  record : ImageRecord;
  clipScore : number
}.

(** The object store of the opened database: the records [getAll] yields,
    in key order.  Opening the database is the subject of [StoreInit] below;
    here it is open, and a transaction does not fail. *)
Definition VectorStore : Type := list ImageRecord.

Definition getAll (store : VectorStore) : Result (list ImageRecord) := Ok store.

(** [topN] is a number of candidates: a natural number. *)
Definition searchByEmbedding (store : VectorStore) (queryEmbedding : list number)
    (topN : nat) : Result (list SearchResult) :=
  all <- getAll store ;;
  if Nat.eqb (List.length all) 0 then Ok []
  else
    scored <- mapM (fun record =>
                      score <- cosineSimilarity queryEmbedding (embedding record) ;;
                      Ok {| record := record; clipScore := score |})
                   all ;;
    Ok (firstn topN
          (jsSort (fun a b => (clipScore b - clipScore a)%float) scored)).

Record AccountEntry : Type := {
  name : string;
  handle : string;
  count : nat
}.

Definition countAccounts (all : list ImageRecord) : list (string * AccountEntry) :=
  fold_left
    (fun accountMap record =>
       let key := accountHandle record in
       match mapGet key accountMap with
       | Some existing =>
           mapSet key {| name := name existing; handle := handle existing;
                         count := S (count existing) |} accountMap
       | None =>
           mapSet key {| name := accountName record;
                         handle := accountHandle record; count := 1 |} accountMap
       end)
    all [].

Definition getUniqueAccounts (store : VectorStore) : Result (list AccountEntry) :=
  all <- getAll store ;;
  Ok (jsSort (fun a b => (numOfNat (count b) - numOfNat (count a))%float)
             (map snd (countAccounts all))).

(** ** The image similarity service *)

Record ImageScores : Type := {
  imageId : string;
  imageClipScore : number;
  pHashScore : number;
  metadataBonus : number
}.

Record AccountGroup : Type := {
  groupName : string;
  groupHandle : string;
  images : list ImageScores
}.

Record Scores : Type := {
  clip : number;
  pHashS : number;
  metadata : number;
  frequency : number
}.

Record ScoredCandidate : Type := {
  candName : string;
  candHandle : string;
  scores : Scores;
  totalScore : number;
  matchedImages : list (string * number);
  imageCount : nat
}.

Definition W_clip : number := 0.50%float.
Definition W_pHash : number := 0.30%float.
Definition W_metadata : number := 0.15%float.
Definition W_frequency : number := 0.05%float.

Definition TOP_N_SEARCH : nat := 50.

(** A string is truthy when it is present and not empty. *)
Definition truthy (s : option string) : option string :=
  match s with
  | Some EmptyString => None
  | other => other
  end.

(** [s.includes(t)] *)
Fixpoint includes (s t : string) : bool :=
  String.prefix t s ||
  match s with
  | EmptyString => false
  | String _ s' => includes s' t
  end.

Definition metadataBonusOf (eventName candidateEvent : option string) : number :=
  match truthy eventName, truthy candidateEvent with
  | Some ev, Some cev =>
      if String.eqb cev ev then 0.2%float
      else if includes cev ev || includes ev cev then 0.1%float
      else 0%float
  | _, _ => 0%float
  end.

(** The loop over the candidates (lines 536-566). *)
Definition addCandidate (queryHash : string) (eventName0 : option string)
    (accountMap : list (string * AccountGroup)) (candidate : SearchResult)
  : list (string * AccountGroup) :=
  let r := record candidate in
  let key := accountHandle r in
  let pHashScore := pHashSimilarity queryHash (pHash r) in
  let metadataBonus := metadataBonusOf eventName0 (eventName r) in
  let accountMap :=
    if mapHas key accountMap then accountMap
    else mapSet key {| groupName := accountName r;
                       groupHandle := accountHandle r; images := [] |} accountMap in
  match mapGet key accountMap with
  | Some g =>
      mapSet key
        {| groupName := groupName g; groupHandle := groupHandle g;
           images := images g ++ [{| imageId := id r;
                                     imageClipScore := clipScore candidate;
                                     pHashScore := pHashScore;
                                     metadataBonus := metadataBonus |}] |}
        accountMap
  | None => accountMap
  end.

Definition groupCandidates (queryHash : string) (eventName0 : option string)
    (candidates : list SearchResult) : list (string * AccountGroup) :=
  fold_left (addCandidate queryHash eventName0) candidates [].

(** The score the reducer compares (lines 574-575). *)
Definition imageScore (img : ImageScores) : number :=
  (imageClipScore img * W_clip + pHashScore img * W_pHash
   + metadataBonus img * W_metadata)%float.

Definition pickBest (best img : ImageScores) : ImageScores :=
  if gt (imageScore img) (imageScore best) then img else best.

(** [images.reduce(f)] without an initial value. *)
Definition reduceBest (imgs : list ImageScores) : Result ImageScores :=
  match imgs with
  | [] => Throw ReduceOfEmptyArray
  | first :: rest => Ok (fold_left pickBest rest first)
  end.

(** [Math.max(...counts, 1)] *)
Definition maxCountOf (uniqueAccounts : list AccountEntry) : nat :=
  fold_right Nat.max 1 (map count uniqueAccounts).

(** [accountCountMap.get(handle) || 1] *)
Definition imageCountOf (accountCountMap : list (string * nat)) (h : string) : nat :=
  match mapGet h accountCountMap with
  | Some (S c) => S c
  | _ => 1
  end.

Definition frequencyBonusOf (imageCount maxCount : nat) : number :=
  (numOfNat imageCount / numOfNat maxCount * 0.1)%float.

Definition totalScoreOf (bestImage : ImageScores) (frequencyBonus : number) : number :=
  (imageClipScore bestImage * W_clip + pHashScore bestImage * W_pHash
   + metadataBonus bestImage * W_metadata + frequencyBonus * W_frequency)%float.

Definition candidateOf (accountCountMap : list (string * nat)) (maxCount : nat)
    (entry : string * AccountGroup) : Result ScoredCandidate :=
  let '(h, data) := entry in
  bestImage <- reduceBest (images data) ;;
  let imageCount := imageCountOf accountCountMap h in
  let frequencyBonus := frequencyBonusOf imageCount maxCount in
  Ok {| candName := groupName data;
        candHandle := groupHandle data;
        scores := {| clip := imageClipScore bestImage;
                     pHashS := pHashScore bestImage;
                     metadata := metadataBonus bestImage;
                     frequency := frequencyBonus |};
        totalScore := totalScoreOf bestImage frequencyBonus;
        matchedImages := map (fun img => (imageId img, imageClipScore img))
                             (images data);
        imageCount := imageCount |}.

Definition scoreAndAggregate (store : VectorStore) (candidates : list SearchResult)
    (queryEmbedding : list number) (queryHash : string)
    (eventName0 : option string) : Result (list ScoredCandidate) :=
  uniqueAccounts <- getUniqueAccounts store ;;
  let accountCountMap :=
    fold_left (fun m a => mapSet (handle a) (count a) m) uniqueAccounts [] in
  let maxCount := maxCountOf uniqueAccounts in
  let accountMap := groupCandidates queryHash eventName0 candidates in
  results <- mapM (candidateOf accountCountMap maxCount) accountMap ;;
  Ok (jsSort (fun a b => (totalScore b - totalScore a)%float) results).

(** *** [findSimilarAccounts]

    The facade awaits its collaborators one after the other and reports its
    progress in between.  A [Task] threads the reports made so far (what
    [onProgress] has been called with) and stops at the first rejection. *)

Inductive Status : Type :=
| initializing | extracting_embedding | searching | scoring | done.

(** The message texts, by the place that reports them. *)
Inductive Message : Type :=
| MsgPreparingModel | MsgModelReady | MsgExtracting | MsgExtracted
| MsgSearching | MsgNoCandidates | MsgFound (n : nat) | MsgScoring | MsgComplete.

Record SearchProgress : Type := {
  status : Status;
  progress : nat;
  message : Message
}.

Definition Task (A : Type) : Type :=
  list SearchProgress -> list SearchProgress * Result A.

Definition ret {A : Type} (a : A) : Task A := fun log => (log, Ok a).

Definition await {A : Type} (r : Result A) : Task A := fun log => (log, r).

Definition report (st : Status) (pct : nat) (msg : Message) : Task unit :=
  fun log => (log ++ [{| status := st; progress := pct; message := msg |}], Ok tt).

Definition bindT {A B : Type} (t : Task A) (k : A -> Task B) : Task B :=
  fun log =>
    match t log with
    | (log', Ok a) => k a log'
    | (log', Throw e) => (log', Throw e)
    end.

Notation "x <~ t ;; k" := (bindT t (fun x => k))
  (at level 61, t at next level, right associativity).
Notation "t ;;; k" := (bindT t (fun _ => k))
  (at level 61, right associativity).

(** What one call of the facade finds around it. *)
Record Services : Type := {
  isCLIPReady : bool;
  initCLIP : Result unit;
  getImageEmbedding : string -> Result (list number);
  browser : Browser;
  vectorStore : VectorStore
}.

Definition findSimilarAccountsTask (S : Services) (imageBase64 : string)
    (eventName0 : option string) : Task (list ScoredCandidate) :=
  report initializing 0 MsgPreparingModel ;;;
  (if isCLIPReady S then ret tt else await (initCLIP S)) ;;;
  report initializing 20 MsgModelReady ;;;
  report extracting_embedding 30 MsgExtracting ;;;
  embedding <~ await (getImageEmbedding S imageBase64) ;;
  report extracting_embedding 50 MsgExtracted ;;;
  queryHash <~ await (computePHash (browser S) imageBase64) ;;
  report searching 55 MsgSearching ;;;
  candidates <~ await (searchByEmbedding (vectorStore S) embedding TOP_N_SEARCH) ;;
  if Nat.eqb (List.length candidates) 0 then
    report done 100 MsgNoCandidates ;;;
    ret []
  else
    report searching 70 (MsgFound (List.length candidates)) ;;;
    report scoring 75 MsgScoring ;;;
    scored <~ await (scoreAndAggregate (vectorStore S) candidates embedding
                                       queryHash eventName0) ;;
    report done 100 MsgComplete ;;;
    ret scored.

Definition findSimilarAccounts (S : Services) (imageBase64 : string)
    (eventName0 : option string) : list SearchProgress * Result (list ScoredCandidate) :=
  findSimilarAccountsTask S imageBase64 eventName0 [].

(** ** Lazy initialisation under the event loop

    JavaScript runs every synchronous stretch of code to completion, so the
    interleavings of concurrent callers are the sequences of these atomic
    events: a call of the initialiser (its body up to the point it returns a
    promise), and the completion of a pending request. *)

Inductive InitReturn : Type :=
| AlreadyReady               (* returns at once *)
| Awaits (promise : nat).    (* returns this promise *)

(** *** [VectorStore.init] *)

Record StoreInit : Type := {
  db : bool;                   (* this.db !== null *)
  initPromise : option nat;    (* this.initPromise *)
  opensStarted : nat;          (* calls of indexedDB.open so far *)
  openPending : bool           (* the request has not completed *)
}.

Inductive StoreEvent : Type := StoreCall | OpenSucceeds | OpenFails.

Definition storeInitial : StoreInit :=
  {| db := false; initPromise := None; opensStarted := 0; openPending := false |}.

Definition storeStep (s : StoreInit) (ev : StoreEvent) : StoreInit * list InitReturn :=
  match ev with
  | StoreCall =>
      if db s then (s, [AlreadyReady])
      else match initPromise s with
           | Some p => (s, [Awaits p])
           | None =>
               ({| db := false; initPromise := Some (opensStarted s);
                   opensStarted := S (opensStarted s); openPending := true |},
                [Awaits (opensStarted s)])
           end
  | OpenSucceeds =>
      if openPending s then
        ({| db := true; initPromise := initPromise s;
            opensStarted := opensStarted s; openPending := false |}, [])
      else (s, [])
  | OpenFails =>
      if openPending s then
        ({| db := db s; initPromise := initPromise s;
            opensStarted := opensStarted s; openPending := false |}, [])
      else (s, [])
  end.

Fixpoint storeRun (s : StoreInit) (evs : list StoreEvent) : StoreInit * list InitReturn :=
  match evs with
  | [] => (s, [])
  | ev :: evs' =>
      let '(s1, r1) := storeStep s ev in
      let '(s2, r2) := storeRun s1 evs' in
      (s2, r1 ++ r2)
  end.

(** *** [initCLIP] *)

Record ClipInit : Type := {
  embeddingPipeline : bool;      (* embeddingPipeline !== null *)
  isLoading : bool;
  loadingPromise : option nat;
  loadsStarted : nat;            (* model set-ups started so far *)
  loadsRunning : list nat        (* the set-ups that have not completed *)
}.

Inductive ClipEvent : Type :=
| ClipCall
| LoadSucceeds (p : nat)
| LoadFails (p : nat).

Definition clipInitial : ClipInit :=
  {| embeddingPipeline := false; isLoading := false; loadingPromise := None;
     loadsStarted := 0; loadsRunning := [] |}.

Definition removeLoad (p : nat) (l : list nat) : list nat :=
  filter (fun q => negb (Nat.eqb q p)) l.

Definition clipStep (s : ClipInit) (ev : ClipEvent) : ClipInit * list InitReturn :=
  match ev with
  | ClipCall =>
      if embeddingPipeline s then (s, [AlreadyReady])
      else
        match isLoading s, loadingPromise s with
        | true, Some p => (s, [Awaits p])
        | _, _ =>
            ({| embeddingPipeline := false; isLoading := true;
                loadingPromise := Some (loadsStarted s);
                loadsStarted := S (loadsStarted s);
                loadsRunning := loadsStarted s :: loadsRunning s |},
             [Awaits (loadsStarted s)])
        end
  | LoadSucceeds p =>
      if existsb (Nat.eqb p) (loadsRunning s) then
        ({| embeddingPipeline := true; isLoading := false;
            loadingPromise := loadingPromise s;
            loadsStarted := loadsStarted s;
            loadsRunning := removeLoad p (loadsRunning s) |}, [])
      else (s, [])
  | LoadFails p =>
      if existsb (Nat.eqb p) (loadsRunning s) then
        ({| embeddingPipeline := embeddingPipeline s; isLoading := false;
            loadingPromise := loadingPromise s;
            loadsStarted := loadsStarted s;
            loadsRunning := removeLoad p (loadsRunning s) |}, [])
      else (s, [])
  end.

Fixpoint clipRun (s : ClipInit) (evs : list ClipEvent) : ClipInit * list InitReturn :=
  match evs with
  | [] => (s, [])
  | ev :: evs' =>
      let '(s1, r1) := clipStep s ev in
      let '(s2, r2) := clipRun s1 evs' in
      (s2, r1 ++ r2)
  end.

(** ** vectorStore.ts: the other operations

    The object store is created with [keyPath: 'id']: it keeps its records
    in the order of their keys, compared as strings, and [store.add] fails
    with a [ConstraintError] when the key is taken.  As for [getAll], the
    database is open and a transaction does not fail otherwise.  The
    operations that write return the store they leave behind. *)

Module Store.

Definition hasKey (store : VectorStore) (key : string) : bool :=
  existsb (fun r => String.eqb (id r) key) store.

Fixpoint insertByKey (r : ImageRecord) (store : VectorStore) : VectorStore :=
  match store with
  | [] => [r]
  | x :: rest =>
      if String.ltb (id r) (id x) then r :: x :: rest
      else x :: insertByKey r rest
  end.

(** [Omit<ImageRecord, 'id' | 'createdAt'>] *)
Record NewRecord : Type := {
  newEmbedding : list number;
  newPHash : string;
  newAccountName : string;
  newAccountHandle : string;
  newEventName : option string;
  newImageUrl : option string
}.

(** [newId] is the identifier the clock and the random generator yield
    (line 82), [now] the later reading of the clock (line 86). *)
Definition add (store : VectorStore) (newId : string) (now : number)
    (record : NewRecord) : Result (string * VectorStore) :=
  let fullRecord :=
    {| id := newId;
       embedding := newEmbedding record;
       pHash := newPHash record;
       accountName := newAccountName record;
       accountHandle := newAccountHandle record;
       eventName := newEventName record;
       imageUrl := newImageUrl record;
       createdAt := now |} in
  if hasKey store newId then Throw (ExternalFailure "ConstraintError")
  else Ok (newId, insertByKey fullRecord store).

(** [index('accountHandle').getAll(handle)]: the records of the handle, in
    key order. *)
Definition getByAccountHandle (store : VectorStore) (h : string)
  : Result (list ImageRecord) :=
  Ok (filter (fun r => String.eqb (accountHandle r) h) store).

Definition count (store : VectorStore) : Result nat :=
  Ok (List.length store).

Definition delete (store : VectorStore) (key : string) : Result VectorStore :=
  Ok (filter (fun r => negb (String.eqb (id r) key)) store).

Definition clear (store : VectorStore) : Result VectorStore :=
  Ok [].

End Store.

(** ** The image similarity service: [registerImage] and [getStats] *)

Definition registerImage (S : Services) (imageBase64 : string)
    (accountName0 accountHandle0 : string) (eventName0 : option string)
    (newId : string) (now : number) : Result (string * VectorStore) :=
  _ <- (if isCLIPReady S then Ok tt else initCLIP S) ;;
  embedding0 <- getImageEmbedding S imageBase64 ;;
  pHash0 <- computePHash (browser S) imageBase64 ;;
  Store.add (vectorStore S) newId now
    {| Store.newEmbedding := embedding0;
       Store.newPHash := pHash0;
       Store.newAccountName := accountName0;
       Store.newAccountHandle := accountHandle0;
       Store.newEventName := eventName0;
       Store.newImageUrl := None |}.

Record Stats : Type := {
  totalImages : nat;
  uniqueAccounts : nat;
  isModelReady : bool
}.

(** [getStats] awaits [vectorStore.count()] and then
    [vectorStore.getUniqueAccounts()], each in a transaction of its own:
    [atCount] and [atAccounts] are the index as the first and as the second
    read find it. *)
Definition getStatsReading (ready : bool) (atCount atAccounts : VectorStore)
  : Result Stats :=
  count0 <- Store.count atCount ;;
  accounts <- getUniqueAccounts atAccounts ;;
  Ok {| totalImages := count0;
        uniqueAccounts := List.length accounts;
        isModelReady := ready |}.

(** With no write completing between the two reads, both find the index
    of the service. *)
Definition getStats (S : Services) : Result Stats :=
  getStatsReading (isCLIPReady S) (vectorStore S) (vectorStore S).

(** ** SimilaritySearchModal.tsx: the state of the modal

    The component keeps three pieces of state and runs the search once in an
    effect, with [setProgress] as the progress callback.  [progress] is [None]
    for the initial value [{status: 'initializing', progress: 0, message:
    '準備中...'}], which is no report of the search.  What the modal shows is
    decided by the state the last update leaves. *)

Module Modal.

Record State : Type := {
  candidates : list ScoredCandidate;
  progress : option SearchProgress;
  error : option string
}.





Section Effect.
(** [err instanceof Error ? err.message : '検索に失敗しました'] *)
Variable messageOf : JsError -> string.

End Effect.

Definition statusOf (s : State) : Status :=
  match progress s with
  | None => initializing
  | Some p => status p
  end.

Definition isDone (st : Status) : bool :=
  match st with done => true | _ => false end.

(** [!error] *)
Definition noError (s : State) : bool :=
  match truthy (error s) with None => true | Some _ => false end.

Definition isLoading (s : State) : bool :=
  negb (isDone (statusOf s)) && noError s.




End Modal.

(** ** universalParser.ts: two helpers on strings *)

(** [dedupeStrings]: [seen] is an object without prototype used as a set of
    keys; an empty string is falsy and is skipped. *)
Definition dedupeStep (acc : list (string * nat) * list string) (s : string)
  : list (string * nat) * list string :=
  let '(seen, out) := acc in
  if String.eqb s "" then acc
  else match mapGet s seen with
       | Some _ => acc
       | None => (mapSet s 1 seen, out ++ [s])
       end.

Definition dedupeStrings (list0 : list string) : list string :=
  snd (fold_left dedupeStep list0 ([], [])).

(** [s.indexOf('{')], as the text from that position on. *)
Fixpoint fromFirstBrace (s : string) : option string :=
  match s with
  | EmptyString => None
  | String ch rest =>
      if Ascii.eqb ch "{" then Some s else fromFirstBrace rest
  end.

(** The loop of lines 591-598 over the text from [start] on; it yields
    [i + 1 - start], the length of the slice it returns. *)
Fixpoint scanBraces (rest : string) (scanned : nat) (depth : Z) : option nat :=
  match rest with
  | EmptyString => None
  | String ch rest' =>
      let depth := if Ascii.eqb ch "{" then (depth + 1)%Z else depth in
      if Ascii.eqb ch "}" then
        let depth := (depth - 1)%Z in
        if (depth =? 0)%Z then Some (S scanned)
        else scanBraces rest' (S scanned) depth
      else scanBraces rest' (S scanned) depth
  end.

Definition extractFirstJsonObject (text : string) : string :=
  match fromFirstBrace text with
  | None => EmptyString
  | Some tail =>
      match scanBraces tail 0 0 with
      | Some n => String.substring 0 n tail
      | None => EmptyString
      end
  end.

(** ** The Google Lens service: recognising Twitter links *)

Definition isTwitterUrl (url : string) : bool :=
  includes url "twitter.com" || includes url "x.com".

(** [[a-zA-Z0-9_]] *)
Definition isWordChar (c : ascii) : bool :=
  let n := N_of_ascii c in
  ((48 <=? n) && (n <=? 57) || (65 <=? n) && (n <=? 90)
   || (97 <=? n) && (n <=? 122) || (n =? 95))%N.

(** The longest run of word characters at the head of a string: what the
    greedy [[a-zA-Z0-9_]+] takes when nothing follows it in the pattern. *)
Fixpoint wordRun (s : string) : string :=
  match s with
  | String c rest => if isWordChar c then String c (wordRun rest) else EmptyString
  | EmptyString => EmptyString
  end.

Fixpoint stripPrefix (p s : string) : option string :=
  match p, s with
  | EmptyString, _ => Some s
  | String a p', String b s' => if Ascii.eqb a b then stripPrefix p' s' else None
  | String _ _, EmptyString => None
  end.

(** The pattern [(?:twitter\.com|x\.com)\/([a-zA-Z0-9_]+)] tried at the head
    of a string: the capture group. *)
Definition handleAfter (domain s : string) : option string :=
  match stripPrefix (domain ++ "/") s with
  | Some rest =>
      match wordRun rest with
      | EmptyString => None
      | name => Some name
      end
  | None => None
  end.

Definition matchHandleAt (s : string) : option string :=
  match handleAfter "twitter.com" s with
  | Some name => Some name
  | None => handleAfter "x.com" s
  end.

(** [url.match(...)]: the leftmost position at which the pattern matches. *)
Fixpoint matchHandle (url : string) : option string :=
  match matchHandleAt url with
  | Some name => Some name
  | None =>
      match url with
      | EmptyString => None
      | String _ rest => matchHandle rest
      end
  end.

Definition reservedPaths : list string :=
  ["status"; "intent"; "search"; "home"; "i"]%string.

Definition extractTwitterHandle (url : string) : option string :=
  match matchHandle url with
  | Some name =>
      if existsb (String.eqb name) reservedPaths then None
      else Some ("@" ++ name)%string
  | None => None
  end.

(** ** Notions the statements use *)

(** The value of a binary64 number as an integer multiple of the smallest
    subnormal, 2^-1074; the infinities lie beyond every finite value.  It
    orders the numbers that are not [NaN]. *)
Definition SFrank (x : spec_float) : Z :=
  match x with
  | S754_zero _ => 0
  | S754_infinity s => if s then - 2 ^ 2100 else 2 ^ 2100
  | S754_nan => 0
  | S754_finite s m e =>
      if s then - (Zpos m * 2 ^ (e + 1074)) else Zpos m * 2 ^ (e + 1074)
  end%Z.

Definition SFis_nan (x : spec_float) : bool :=
  match x with S754_nan => true | _ => false end.

Definition SFsigned (s : bool) (x : spec_float) : Prop :=
  match x with
  | S754_finite s' _ _ | S754_infinity s' => s' = s
  | _ => False
  end.

Definition frank (x : number) : Z := SFrank (Prim2SF x).

(** [NaN]-free lists of numbers. *)
Definition allNumbers (l : list number) : Prop :=
  Forall (fun x => PrimFloat.is_nan x = false) l.

(** The running sum of squares [cosineSimilarity] keeps for one vector. *)
Definition sumSquares (v : list number) : number :=
  fold_left (fun norm x => (norm + x * x)%float) v 0%float.

(** The Euclidean norm as the code computes it. *)
Definition computedNorm (v : list number) : number :=
  PrimFloat.sqrt (sumSquares v).

(** A vector all of whose components are zero ([+0] or [-0]). *)
Definition zeroVector (v : list number) : Prop :=
  Forall (fun x => PrimFloat.is_zero x = true) v.

(** The hashes [computePHash] emits: sixteen lower-case hexadecimal digits. *)
Definition isLowerHex (c : ascii) : bool :=
  let n := N_of_ascii c in
  ((48 <=? n) && (n <=? 57) || (97 <=? n) && (n <=? 102))%N.

Definition allLowerHex (s : string) : bool :=
  forallb isLowerHex (list_ascii_of_string s).

Definition wellFormedHash (s : string) : Prop :=
  String.length s = 16 /\ allLowerHex s = true.

Definition isBinaryDigit (c : ascii) : bool :=
  Ascii.eqb c "0" || Ascii.eqb c "1".

Definition isBinaryString (s : string) : bool :=
  forallb isBinaryDigit (list_ascii_of_string s).

(** The candidates of one account, and the image scores the loop builds for
    a candidate. *)
Definition imageOf (queryHash : string) (eventName0 : option string)
    (c : SearchResult) : ImageScores :=
  {| imageId := id (record c);
     imageClipScore := clipScore c;
     pHashScore := pHashSimilarity queryHash (pHash (record c));
     metadataBonus := metadataBonusOf eventName0 (eventName (record c)) |}.

Definition ofAccount (h : string) (c : SearchResult) : bool :=
  String.eqb (accountHandle (record c)) h.

(** Registrations of an account in the whole index. *)
Definition registrations (store : VectorStore) (h : string) : nat :=
  List.length (filter (fun r => String.eqb (accountHandle r) h) store).

(** *** The orthonormal DCT-II

    The reference transform, in the spec's words: the two-dimensional
    type-II discrete cosine transform of an [N]x[N] matrix, orthonormalised
    with [C(0) = 1/sqrt 2] and [C(k) = 1] for [k > 0].  Its one-dimensional
    basis vector of frequency [k] is
    [sqrt (2/N) * C(k) * cos ((2n+1) k pi / (2N))]. *)

Definition sumR (l : list R) : R := fold_right Rplus 0%R l.

Definition dctBasis (N k n : nat) : R :=
  (sqrt (2 / INR N) * (if Nat.eqb k 0 then 1 / sqrt 2 else 1)
   * cos ((2 * INR n + 1) * INR k * PI / (2 * INR N)))%R.

Definition dct2Orthonormal (pixels : list (list R)) (N u v : nat) : R :=
  sumR (map (fun x =>
               sumR (map (fun y =>
                            (pixelAt realOps pixels x y
                             * dctBasis N u x * dctBasis N v y)%R)
                         (seq 0 N)))
            (seq 0 N)).

(** The 32x32 matrix of ones. *)
Definition onesMatrix : list (list R) := repeat (repeat 1%R 32) 32.

(** ** Further notions for the hash service *)

(** A hexadecimal digit in either case, and its lower-case form. *)
Definition isHexDigit (c : ascii) : bool :=
  match parseInt16 c with Some _ => true | None => false end.

Definition lowerHexChar (c : ascii) : ascii :=
  match parseInt16 c with Some v => hexDigit v | None => c end.

Definition lowerHex (s : string) : string :=
  string_of_list_ascii (map lowerHexChar (list_ascii_of_string s)).

Definition allHexDigits (s : string) : bool :=
  forallb isHexDigit (list_ascii_of_string s).

(** A bit string filled with ['0'] up to the next multiple of four. *)
Definition padToNibbles (bits : string) : string :=
  (bits ++ strRepeat "0" ((4 - String.length bits mod 4) mod 4))%string.

(** The number of ['1'] characters of a bit string. *)
Definition onesOf (bits : string) : nat :=
  List.length (filter (Ascii.eqb "1") (list_ascii_of_string bits)).

(** The page after the index has changed. *)
Definition withStore (S : Services) (store : VectorStore) : Services :=
  {| isCLIPReady := isCLIPReady S;
     initCLIP := initCLIP S;
     getImageEmbedding := getImageEmbedding S;
     browser := browser S;
     vectorStore := store |}.

(** The events that are calls of the initialiser. *)
Definition isStoreCall (ev : StoreEvent) : bool :=
  match ev with StoreCall => true | _ => false end.

Definition isClipCall (ev : ClipEvent) : bool :=
  match ev with ClipCall => true | _ => false end.

(** The promise a caller was handed is older than [n] set-ups. *)
Definition olderThan (n : nat) (r : InitReturn) : Prop :=
  match r with
  | AlreadyReady => True
  | Awaits p => p < n
  end.

(** Opening minus closing braces of a string. *)
Fixpoint braceDepth (s : string) : Z :=
  match s with
  | EmptyString => 0
  | String ch rest =>
      ((if Ascii.eqb ch "{" then 1 else if Ascii.eqb ch "}" then -1 else 0)
       + braceDepth rest)%Z
  end.

Definition allWordChars (s : string) : bool :=
  forallb isWordChar (list_ascii_of_string s).

(** What an entry of the account map holds after the loop of
    [getUniqueAccounts] has seen [processed]. *)
Definition accountEntryOf (processed : list ImageRecord)
    (e : string * AccountEntry) : Prop :=
  handle (snd e) = fst e /\
  count (snd e) = registrations processed (fst e) /\
  0 < count (snd e) /\
  option_map accountName
    (find (fun r => String.eqb (accountHandle r) (fst e)) processed)
  = Some (name (snd e)).

Definition countedUpTo (processed : list ImageRecord)
    (m : list (string * AccountEntry)) : Prop :=
  NoDup (map fst m) /\
  (forall r, In r processed -> In (accountHandle r) (map fst m)) /\
  Forall (accountEntryOf processed) m /\
  list_sum (map (fun e => count (snd e)) m) = List.length processed.

(** No caller holds a promise of a set-up that has not started. *)
Definition clipFresh (s : ClipInit) (returned : list InitReturn) : Prop :=
  Forall (olderThan (loadsStarted s)) returned.

(** The name a group of the account map carries: that of the first
    candidate of its account. *)
Definition groupNameOf (processed : list SearchResult)
    (e : string * AccountGroup) : Prop :=
  option_map (fun c => accountName (record c))
             (find (ofAccount (fst e)) processed)
  = Some (groupName (snd e)).

(** ** Sample data for the worked instances *)

Definition sampleRecord (h : string) (v : list number) : ImageRecord :=
  {| id := "img_1"; embedding := v; pHash := h; accountName := "Alice";
     accountHandle := "@alice"; eventName := None; imageUrl := None;
     createdAt := 0%float |}.

(** A page on which the model is loaded, the embedding of every image is
    the unit vector [e1], and the canvas yields no pixel data. *)
Definition sampleServices (store : VectorStore) : Services :=
  {| isCLIPReady := true;
     initCLIP := Ok tt;
     getImageEmbedding := fun _ => Ok [1%float; 0%float];
     browser := {| loadImageData := fun _ => Ok []; Math_cos := fun _ => 1%float |};
     vectorStore := store |}.

(** Two records of dimension 1, one of them with a component whose square
    overflows. *)
Definition hugeRecord : ImageRecord :=
  {| id := "img_1"; embedding := [1e200%float]; pHash := "0000000000000000";
     accountName := "Alice"; accountHandle := "@alice"; eventName := None;
     imageUrl := None; createdAt := 0%float |}.

Definition unitRecord : ImageRecord :=
  {| id := "img_2"; embedding := [1%float]; pHash := "0000000000000000";
     accountName := "Bob"; accountHandle := "@bob"; eventName := None;
     imageUrl := None; createdAt := 0%float |}.

(** Two more records of dimension 1: one in the direction of [unitRecord],
    one opposite to it. *)
Definition twinRecord : ImageRecord :=
  {| id := "img_3"; embedding := [2%float]; pHash := "0000000000000000";
     accountName := "Carol"; accountHandle := "@carol"; eventName := None;
     imageUrl := None; createdAt := 0%float |}.

Definition minusRecord : ImageRecord :=
  {| id := "img_4"; embedding := [(-1)%float]; pHash := "0000000000000000";
     accountName := "Dave"; accountHandle := "@dave"; eventName := None;
     imageUrl := None; createdAt := 0%float |}.

(** An index of three records of dimension 2 in key order, two of them of
    one account. *)
Definition sampleIndex : VectorStore :=
  [ {| id := "img_1"; embedding := [0.6%float; 0.8%float];
       pHash := "00020e1e3e3e7e70"; accountName := "Alice";
       accountHandle := "@alice"; eventName := None; imageUrl := None;
       createdAt := 0%float |};
    {| id := "img_2"; embedding := [1%float; 0%float];
       pHash := "00020e1e3e3e7e7e"; accountName := "Alice";
       accountHandle := "@alice"; eventName := None; imageUrl := None;
       createdAt := 0%float |};
    {| id := "img_3"; embedding := [0%float; 1%float];
       pHash := "fffffffffffffffe"; accountName := "Bob";
       accountHandle := "@bob"; eventName := None; imageUrl := None;
       createdAt := 0%float |} ].

(** A canvas whose 32x32 pixels are opaque shades that vary with the
    position, on a platform whose cosine is the polynomial
    [1 - x^2/2 + x^4/24]. *)
Definition samplePixels : list number :=
  Eval vm_compute in
    flat_map (fun i => [numOfNat ((7 * i) mod 256); numOfNat ((3 * i + 64) mod 256);
                        numOfNat ((13 * i + 5) mod 256); 255%float])
             (seq 0 1024).

Definition sampleBrowser : Browser :=
  {| loadImageData := fun _ => Ok samplePixels;
     Math_cos := fun x => (1 - x * x / 2 + x * x * x * x / 24)%float |}.

(** The score the top-N query attaches to a record. *)
Definition scoredRecord (queryEmbedding : list number) (r : ImageRecord) : SearchResult :=
  {| record := r;
     clipScore := match cosineSimilarity queryEmbedding (embedding r) with
                  | Ok s => s
                  | Throw _ => PrimFloat.nan
                  end |}.

(** * Part II. Supporting facts *)

(** ** Binary64 arithmetic *)

Section FloatOrder.
Local Open Scope Z_scope.
Lemma digits2_pos_bounds (m : positive) :
  2 ^ (Zpos (digits2_pos m) - 1) <= Zpos m < 2 ^ Zpos (digits2_pos m).
Proof.
  induction m as [m IH | m IH |]; cbn [digits2_pos].
  - rewrite Pos2Z.inj_succ.
    replace (Z.succ (Zpos (digits2_pos m)) - 1) with (Z.succ (Zpos (digits2_pos m) - 1)) by lia.
    rewrite !Z.pow_succ_r by lia. lia.
  - rewrite Pos2Z.inj_succ.
    replace (Z.succ (Zpos (digits2_pos m)) - 1) with (Z.succ (Zpos (digits2_pos m) - 1)) by lia.
    rewrite !Z.pow_succ_r by lia. lia.
  - cbn. lia.
Qed.

Lemma bounded_inv (m : positive) (e : Z) :
  SpecFloat.bounded FloatOps.prec FloatOps.emax m e = true ->
  -1074 <= e <= 971 /\ Zpos m < 2 ^ 53 /\ (e = -1074 \/ 2 ^ 52 <= Zpos m).
Proof.
  unfold SpecFloat.bounded, canonical_mantissa, fexp, SpecFloat.emin, FloatOps.prec, FloatOps.emax.
  intros H. apply andb_true_iff in H as [Hc He].
  apply Z.eqb_eq in Hc. apply Z.leb_le in He.
  pose proof (digits2_pos_bounds m) as [Hlo Hhi].
  set (d := Zpos (digits2_pos m)) in *.
  assert (Hd : 0 < d) by (unfold d; lia).
  split; [lia|].
  split.
  - assert (d <= 53) by lia.
    eapply Z.lt_le_trans; [exact Hhi|]. apply Z.pow_le_mono_r; lia.
  - destruct (Z.eq_dec e (-1074)) as [->|Hne]; [now left|right].
    assert (d = 53) by lia. replace 52 with (d - 1) by lia. exact Hlo.
Qed.

Lemma scaled_pos (m : positive) (e : Z) : 0 < Zpos m * 2 ^ (e + 1074) \/ e + 1074 < 0.
Proof.
  destruct (Z.lt_ge_cases (e + 1074) 0); [now right|left].
  apply Z.mul_pos_pos; [lia|]. apply Z.pow_pos_nonneg; lia.
Qed.

Lemma scaled_lt (m1 m2 : positive) (e1 e2 : Z) :
  SpecFloat.bounded FloatOps.prec FloatOps.emax m1 e1 = true -> SpecFloat.bounded FloatOps.prec FloatOps.emax m2 e2 = true ->
  e1 < e2 -> Zpos m1 * 2 ^ (e1 + 1074) < Zpos m2 * 2 ^ (e2 + 1074).
Proof.
  intros H1 H2 Hlt.
  apply bounded_inv in H1 as (He1 & Hm1 & _).
  apply bounded_inv in H2 as (He2 & _ & [Hx|Hm2]); [lia|].
  replace (e2 + 1074) with ((e1 + 1074) + 1 + (e2 - e1 - 1)) by lia.
  rewrite (Z.pow_add_r 2 (e1 + 1074 + 1) (e2 - e1 - 1)) by lia.
  rewrite (Z.pow_add_r 2 (e1 + 1074) 1) by lia.
  assert (Ha : 0 < 2 ^ (e1 + 1074)) by (apply Z.pow_pos_nonneg; lia).
  assert (Hk : 1 <= 2 ^ (e2 - e1 - 1)).
  { change 1 with (2 ^ 0). apply Z.pow_le_mono_r; lia. }
  change (2 ^ 1) with 2.
  change (2 ^ 53) with (2 * 2 ^ 52) in Hm1.
  set (A := 2 ^ (e1 + 1074)) in *. set (K := 2 ^ (e2 - e1 - 1)) in *.
  set (P := 2 ^ 52) in *.
  assert (Zpos m1 * A < 2 * P * A) by nia.
  assert (2 * P * A <= Zpos m2 * (A * 2) * 1) by nia.
  assert (Zpos m2 * (A * 2) * 1 <= Zpos m2 * (A * 2) * K) by nia.
  lia.
Qed.

Lemma scaled_compare (m1 m2 : positive) (e1 e2 : Z) :
  SpecFloat.bounded FloatOps.prec FloatOps.emax m1 e1 = true -> SpecFloat.bounded FloatOps.prec FloatOps.emax m2 e2 = true ->
  match e1 ?= e2 with
  | Eq => Pos.compare_cont Eq m1 m2
  | Lt => Lt
  | Gt => Gt
  end = (Zpos m1 * 2 ^ (e1 + 1074) ?= Zpos m2 * 2 ^ (e2 + 1074)).
Proof.
  intros H1 H2.
  destruct (Z.compare_spec e1 e2) as [Heq | Hlt | Hgt].
  - subst e2. apply bounded_inv in H1 as (He & _).
    rewrite <- Zmult_compare_compat_r
      by (apply Z.lt_gt, Z.pow_pos_nonneg; lia).
    reflexivity.
  - symmetry. apply Z.compare_lt_iff. now apply scaled_lt.
  - symmetry. apply Z.compare_gt_iff. now apply scaled_lt.
Qed.

Lemma scaled_bound (m : positive) (e : Z) :
  SpecFloat.bounded FloatOps.prec FloatOps.emax m e = true ->
  0 < Zpos m * 2 ^ (e + 1074) < 2 ^ 2100.
Proof.
  intros H. apply bounded_inv in H as (He & Hm & _).
  assert (Ha : 0 < 2 ^ (e + 1074)) by (apply Z.pow_pos_nonneg; lia).
  split; [lia|].
  assert (2 ^ (e + 1074) <= 2 ^ 2045) by (apply Z.pow_le_mono_r; lia).
  replace 2100 with (53 + 2045 + 2) by lia.
  rewrite (Z.pow_add_r 2 (53 + 2045) 2), (Z.pow_add_r 2 53 2045) by lia.
  set (A := 2 ^ (e + 1074)) in *. set (B := 2 ^ 2045) in *. set (P := 2 ^ 53) in *.
  change (2 ^ 2) with 4.
  assert (0 < P) by (unfold P; lia).
  assert (Zpos m * A < P * A) by nia.
  assert (P * A <= P * B) by nia.
  nia.
Qed.

Ltac zcompare :=
  match goal with
  | |- (_ ?= _) = Lt => apply (proj2 (Z.compare_lt_iff _ _)); lia
  | |- (_ ?= _) = Gt => apply (proj2 (Z.compare_gt_iff _ _)); lia
  end.

Lemma SFcompare_rank (x y : spec_float) :
  valid_binary x = true -> valid_binary y = true ->
  SFis_nan x = false -> SFis_nan y = false ->
  SFcompare x y = Some (SFrank x ?= SFrank y).
Proof.
  intros Vx Vy Nx Ny.
  destruct x as [sx | sx | | sx mx ex], y as [sy | sy | | sy my ey];
    try discriminate; cbn [SFcompare SFrank valid_binary] in *;
    try pose proof (scaled_bound _ _ Vx); try pose proof (scaled_bound _ _ Vy).
  - reflexivity.
  - destruct sx, sy; reflexivity.
  - destruct sy; f_equal; symmetry; zcompare.
  - destruct sx, sy; reflexivity.
  - destruct sx, sy; reflexivity.
  - destruct sx, sy; f_equal; symmetry; zcompare.
  - destruct sx; f_equal; symmetry; zcompare.
  - destruct sx, sy; f_equal; symmetry; zcompare.
  - destruct sx, sy; f_equal.
    + rewrite Z.compare_opp.
      rewrite (Z.compare_antisym (Zpos mx * 2 ^ (ex + 1074))).
      rewrite <- (scaled_compare _ _ _ _ Vx Vy).
      destruct (ex ?= ey); reflexivity.
    + symmetry; zcompare.
    + symmetry; zcompare.
    + apply scaled_compare; assumption.
Qed.

(** *** Rounding never loses the sign of a non-zero exact result *)

Lemma shr_1_m (r : shr_record) :
  0 <= shr_m r -> shr_m (shr_1 r) = shr_m r / 2.
Proof.
  destruct r as [m r s]; cbn [shr_m shr_1].
  destruct m as [|[p|p|]|p]; cbn [shr_m]; intros H; try lia;
    rewrite <- Z.div2_div; reflexivity.
Qed.

Lemma iter_pos_shr_m (p : positive) : forall r : shr_record,
  0 <= shr_m r -> shr_m (SpecFloat.iter_pos shr_1 p r) = shr_m r / 2 ^ Zpos p.
Proof.
  assert (Hdd : forall a b c, 0 < b -> 0 < c -> a / b / c = a / (b * c)).
  { intros a b c Hb Hc. apply Z.div_div; lia. }
  induction p as [p IH | p IH |]; intros r Hr; cbn [SpecFloat.iter_pos].
  - assert (H1 : 0 <= shr_m (shr_1 r)).
    { rewrite shr_1_m by assumption. apply Z.div_pos; lia. }
    assert (Hp : 0 < 2 ^ Zpos p) by (apply Z.pow_pos_nonneg; lia).
    assert (H2 : 0 <= shr_m (SpecFloat.iter_pos shr_1 p (shr_1 r))).
    { rewrite IH by assumption. apply Z.div_pos; lia. }
    rewrite IH, IH, shr_1_m by assumption.
    rewrite !Hdd by lia. f_equal.
    rewrite (Pos2Z.inj_xI p).
    replace (2 * Zpos p + 1) with (1 + Zpos p + Zpos p) by lia.
    rewrite !Z.pow_add_r by lia. change (2 ^ 1) with 2. lia.
  - assert (Hp : 0 < 2 ^ Zpos p) by (apply Z.pow_pos_nonneg; lia).
    assert (H2 : 0 <= shr_m (SpecFloat.iter_pos shr_1 p r)).
    { rewrite IH by assumption. apply Z.div_pos; lia. }
    rewrite IH, IH by assumption.
    rewrite !Hdd by lia. f_equal.
    rewrite (Pos2Z.inj_xO p).
    replace (2 * Zpos p) with (Zpos p + Zpos p) by lia.
    rewrite !Z.pow_add_r by lia. lia.
  - rewrite shr_1_m by assumption. reflexivity.
Qed.

Lemma shr_fexp_pos (mx : positive) (e : Z) (l : location) :
  -1074 <= e ->
  0 < shr_m (fst (shr_fexp FloatOps.prec FloatOps.emax (Zpos mx) e l)) /\
  -1074 <= snd (shr_fexp FloatOps.prec FloatOps.emax (Zpos mx) e l).
Proof.
  intros He. unfold shr_fexp, shr, fexp, SpecFloat.emin, FloatOps.prec, FloatOps.emax.
  cbn [Zdigits2].
  pose proof (digits2_pos_bounds mx) as [Hlo _].
  set (d := Zpos (digits2_pos mx)) in *.
  assert (Hd : 0 < d) by (unfold d; lia).
  assert (Hm : shr_m (shr_record_of_loc (Zpos mx) l) = Zpos mx)
    by (destruct l as [|[]]; reflexivity).
  destruct (Z.max (d + e - 53) (3 - 1024 - 53) - e) as [|n|n] eqn:En;
    cbn [fst snd]; rewrite ?Hm; try (split; lia).
  rewrite iter_pos_shr_m by (rewrite Hm; lia).
  rewrite Hm. split; [|lia].
  assert (Hn : Zpos n <= d - 1) by lia.
  assert (2 ^ Zpos n <= 2 ^ (d - 1)) by (apply Z.pow_le_mono_r; lia).
  assert (0 < 2 ^ Zpos n) by (apply Z.pow_pos_nonneg; lia).
  apply Z.div_str_pos. lia.
Qed.

Lemma binary_round_aux_signed (sx : bool) (mx : positive) (e : Z) (l : location) :
  -1074 <= e -> SFsigned sx (binary_round_aux FloatOps.prec FloatOps.emax sx (Zpos mx) e l).
Proof.
  intros He. unfold binary_round_aux.
  pose proof (shr_fexp_pos mx e l He) as [H1 H1e].
  destruct (shr_fexp FloatOps.prec FloatOps.emax (Zpos mx) e l) as [mrs' e'].
  cbn [fst snd] in *.
  assert (H2 : 0 < round_nearest_even (shr_m mrs') (loc_of_shr_record mrs')).
  { unfold round_nearest_even.
    destruct (loc_of_shr_record mrs') as [|[]]; try lia.
    destruct (Z.even (shr_m mrs')); lia. }
  destruct (round_nearest_even (shr_m mrs') (loc_of_shr_record mrs')) as [|m2|m2];
    try lia.
  pose proof (shr_fexp_pos m2 e' loc_Exact H1e) as [H3 _].
  destruct (shr_fexp FloatOps.prec FloatOps.emax (Zpos m2) e' loc_Exact) as [mrs'' e''].
  cbn [fst snd] in *.
  destruct (shr_m mrs'') as [|m3|m3]; try lia.
  destruct (e'' <=? FloatOps.emax - FloatOps.prec); reflexivity.
Qed.

Lemma iter_xO (d m : positive) : Zpos (Pos.iter xO m d) = Zpos m * 2 ^ Zpos d.
Proof.
  induction d as [|d IH] using Pos.peano_ind.
  - cbn. lia.
  - rewrite Pos.iter_succ, Pos2Z.inj_xO, IH, Pos2Z.inj_succ, Z.pow_succ_r by lia. lia.
Qed.

Lemma shl_align_spec (m : positive) (e ez : Z) :
  ez <= e -> Zpos (fst (shl_align m e ez)) = Zpos m * 2 ^ (e - ez).
Proof.
  intros H. unfold shl_align.
  destruct (ez - e) as [|d|d] eqn:Ed; cbn [fst].
  - replace (e - ez) with 0 by lia. cbn. lia.
  - lia.
  - rewrite iter_xO. f_equal. f_equal. lia.
Qed.

Lemma binary_round_signed (sx : bool) (mx : positive) (e : Z) :
  -1074 <= e -> SFsigned sx (binary_round FloatOps.prec FloatOps.emax sx mx e).
Proof.
  intros He. unfold binary_round.
  destruct (shl_align mx e (fexp FloatOps.prec FloatOps.emax (Zpos (digits2_pos mx) + e)))
    as [mz ez] eqn:Ea.
  apply binary_round_aux_signed.
  unfold shl_align in Ea.
  destruct (fexp FloatOps.prec FloatOps.emax (Zpos (digits2_pos mx) + e) - e) eqn:Ed;
    injection Ea as <- <-; try assumption.
  unfold fexp, SpecFloat.emin, FloatOps.prec, FloatOps.emax. lia.
Qed.

Lemma SFltb_zero_signed (s : bool) (r : spec_float) :
  SFsigned s r -> SFltb (S754_zero false) r = negb s.
Proof.
  destruct r as [? | s' | | s' m e]; cbn; try contradiction;
    intros ->; destruct s; reflexivity.
Qed.

Lemma SFltb_rank (x y : spec_float) :
  valid_binary x = true -> valid_binary y = true ->
  SFis_nan x = false -> SFis_nan y = false ->
  SFltb x y = (SFrank x <? SFrank y).
Proof.
  intros Vx Vy Nx Ny. unfold SFltb, Z.ltb.
  rewrite (SFcompare_rank x y Vx Vy Nx Ny). reflexivity.
Qed.

Lemma SFsub_sign (x y : spec_float) :
  valid_binary x = true -> valid_binary y = true ->
  SFltb (S754_zero false) (SFsub FloatOps.prec FloatOps.emax y x) = SFltb x y.
Proof.
  intros Vx Vy.
  destruct (SFis_nan x) eqn:Nx.
  { destruct x; try discriminate. destruct y; reflexivity. }
  destruct (SFis_nan y) eqn:Ny.
  { destruct y; try discriminate. destruct x; reflexivity. }
  rewrite (SFltb_rank x y Vx Vy Nx Ny).
  assert (Hbig : 0 < 2 ^ 2100) by (apply Z.pow_pos_nonneg; lia).
  destruct x as [sx | sx | | sx mx ex], y as [sy | sy | | sy my ey];
    try discriminate; cbn [SFsub SFrank valid_binary] in *;
    try pose proof (scaled_bound _ _ Vx) as Bx;
    try pose proof (scaled_bound _ _ Vy) as By.
  all: try (destruct sx; try destruct sy; cbn [SFltb SFcompare]; symmetry;
            first [apply Z.ltb_lt; lia | apply Z.ltb_ge; lia]).
  all: try (destruct sy; cbn [SFltb SFcompare]; symmetry;
            first [apply Z.ltb_lt; lia | apply Z.ltb_ge; lia]).
  - pose proof (bounded_inv _ _ Vx) as (Hex & _).
    pose proof (bounded_inv _ _ Vy) as (Hey & _).
    set (ez := Z.min ey ex).
    assert (Hez : -1074 <= ez) by (unfold ez; lia).
    rewrite (shl_align_spec my ey ez), (shl_align_spec mx ex ez) by (unfold ez; lia).
    set (A := 2 ^ (ez + 1074)).
    assert (HA : 0 < A) by (apply Z.pow_pos_nonneg; lia).
    assert (Ey : 2 ^ (ey + 1074) = 2 ^ (ey - ez) * A).
    { unfold A. rewrite <- Z.pow_add_r by (unfold ez; lia). f_equal. lia. }
    assert (Ex : 2 ^ (ex + 1074) = 2 ^ (ex - ez) * A).
    { unfold A. rewrite <- Z.pow_add_r by (unfold ez; lia). f_equal. lia. }
    rewrite Ex, Ey in *.
    set (Y := Zpos my * 2 ^ (ey - ez)) in *.
    set (X := Zpos mx * 2 ^ (ex - ez)) in *.
    assert (HX : (if sx then - (Zpos mx * (2 ^ (ex - ez) * A))
                  else Zpos mx * (2 ^ (ex - ez) * A)) = cond_Zopp sx X * A).
    { unfold X, cond_Zopp. destruct sx; lia. }
    assert (HY : (if sy then - (Zpos my * (2 ^ (ey - ez) * A))
                  else Zpos my * (2 ^ (ey - ez) * A)) = cond_Zopp sy Y * A).
    { unfold Y, cond_Zopp. destruct sy; lia. }
    rewrite HX, HY.
    generalize (cond_Zopp sy Y) (cond_Zopp sx X). intros cy cx.
    destruct (cy - cx) as [|M|M] eqn:EM; cbn [binary_normalize].
    + cbn [SFltb SFcompare]. symmetry. apply Z.ltb_ge.
      replace cy with cx by lia. lia.
    + rewrite (SFltb_zero_signed false) by (apply binary_round_signed; exact Hez).
      symmetry. apply Z.ltb_lt. apply Z.mul_lt_mono_pos_r; lia.
    + rewrite (SFltb_zero_signed true) by (apply binary_round_signed; exact Hez).
      symmetry. apply Z.ltb_ge. apply Z.mul_le_mono_nonneg_r; lia.
Qed.

(** *** The order of binary64 numbers *)
Local Open Scope float_scope.

Lemma is_nan_SF (x : float) : is_nan x = SFis_nan (Prim2SF x).
Proof.
  unfold is_nan. rewrite eqb_spec.
  pose proof (Prim2SF_valid x) as V.
  destruct (SFis_nan (Prim2SF x)) eqn:N.
  - destruct (Prim2SF x); try discriminate. reflexivity.
  - unfold SFeqb. rewrite (SFcompare_rank _ _ V V N N), Z.compare_refl. reflexivity.
Qed.

Lemma ltb_frank (x y : float) :
  is_nan x = false -> is_nan y = false -> (x <? y) = (frank x <? frank y)%Z.
Proof.
  rewrite !is_nan_SF, ltb_spec. intros Nx Ny.
  apply SFltb_rank; auto using Prim2SF_valid.
Qed.

Lemma leb_frank (x y : float) :
  is_nan x = false -> is_nan y = false -> (x <=? y) = (frank x <=? frank y)%Z.
Proof.
  rewrite !is_nan_SF, leb_spec. intros Nx Ny.
  unfold SFleb, Z.leb, frank.
  rewrite (SFcompare_rank _ _ (Prim2SF_valid x) (Prim2SF_valid y) Nx Ny).
  destruct (SFrank (Prim2SF x) ?= SFrank (Prim2SF y))%Z; reflexivity.
Qed.

Lemma ltb_not_nan (x y : float) :
  (x <? y) = true -> is_nan x = false /\ is_nan y = false.
Proof.
  rewrite !is_nan_SF, ltb_spec. unfold SFltb.
  destruct (Prim2SF x), (Prim2SF y); cbn; intros H; try discriminate; auto.
Qed.

Lemma leb_not_nan (x y : float) :
  (x <=? y) = true -> is_nan x = false /\ is_nan y = false.
Proof.
  rewrite !is_nan_SF, leb_spec. unfold SFleb.
  destruct (Prim2SF x), (Prim2SF y); cbn; intros H; try discriminate; auto.
Qed.

Lemma ltb_trans (x y z : float) :
  (x <? y) = true -> (y <? z) = true -> (x <? z) = true.
Proof.
  intros H1 H2.
  destruct (ltb_not_nan _ _ H1) as [Nx Ny], (ltb_not_nan _ _ H2) as [_ Nz].
  rewrite ltb_frank in * by assumption.
  apply Z.ltb_lt in H1, H2. apply Z.ltb_lt. lia.
Qed.

Lemma ltb_asym (x y : float) : (x <? y) = true -> (y <? x) = false.
Proof.
  intros H. destruct (ltb_not_nan _ _ H) as [Nx Ny].
  rewrite ltb_frank in * by assumption.
  apply Z.ltb_lt in H. apply Z.ltb_ge. lia.
Qed.

Lemma ltb_irrefl (x : float) : (x <? x) = false.
Proof.
  destruct (x <? x) eqn:H; [|reflexivity].
  rewrite (ltb_asym _ _ H) in H. discriminate.
Qed.

Lemma not_ltb_leb (x y : float) :
  is_nan x = false -> is_nan y = false -> (x <? y) = false -> (y <=? x) = true.
Proof.
  intros Nx Ny H. rewrite ltb_frank in H by assumption.
  rewrite leb_frank by assumption.
  apply Z.ltb_ge in H. apply Z.leb_le. lia.
Qed.

Lemma leb_not_ltb (x y : float) : (y <=? x) = true -> (x <? y) = false.
Proof.
  intros H. destruct (leb_not_nan _ _ H) as [Ny Nx].
  rewrite leb_frank in H by assumption. rewrite ltb_frank by assumption.
  apply Z.leb_le in H. apply Z.ltb_ge. lia.
Qed.

Lemma leb_trans (x y z : float) :
  (x <=? y) = true -> (y <=? z) = true -> (x <=? z) = true.
Proof.
  intros H1 H2.
  destruct (leb_not_nan _ _ H1) as [Nx Ny], (leb_not_nan _ _ H2) as [_ Nz].
  rewrite leb_frank in * by assumption.
  apply Z.leb_le in H1, H2. apply Z.leb_le. lia.
Qed.

(** JavaScript's comparator idiom [(a, b) => a - b]: the sign of the rounded
    difference is the sign of the exact one, so [y - x > 0] is [x < y]. *)
Lemma sub_pos_ltb (x y : float) : (0 <? y - x) = (x <? y).
Proof.
  rewrite !ltb_spec, sub_spec.
  change (Prim2SF 0) with (S754_zero false).
  apply SFsub_sign; apply Prim2SF_valid.
Qed.

End FloatOrder.

Lemma ltb_leb (x y : float) : PrimFloat.ltb x y = true -> PrimFloat.leb x y = true.
Proof.
  intros H. destruct (ltb_not_nan _ _ H) as [Nx Ny].
  rewrite ltb_frank in H by assumption. rewrite leb_frank by assumption.
  apply Z.ltb_lt in H. apply Z.leb_le. lia.
Qed.

Lemma leb_refl (x : float) : PrimFloat.is_nan x = false -> PrimFloat.leb x x = true.
Proof.
  intros N. rewrite leb_frank by assumption. apply Z.leb_le. lia.
Qed.

(** ** [Array.prototype.sort] *)

Section SortFacts.
Context {A : Type} (comparefn : A -> A -> number).

Lemma sortInsert_perm (x : A) (l : list A) :
  Permutation (sortInsert comparefn x l) (x :: l).
Proof.
  induction l as [|y l IH]; cbn [sortInsert].
  - reflexivity.
  - destruct (sortsAfter comparefn x y).
    + rewrite IH. apply perm_swap.
    + reflexivity.
Qed.

Lemma jsSort_perm (l : list A) : Permutation (jsSort comparefn l) l.
Proof.
  induction l as [|x l IH]; cbn [jsSort fold_right].
  - reflexivity.
  - rewrite sortInsert_perm. now constructor.
Qed.

Lemma jsSort_length (l : list A) : List.length (jsSort comparefn l) = List.length l.
Proof. apply Permutation_length, jsSort_perm. Qed.

Lemma jsSort_In (x : A) (l : list A) : In x (jsSort comparefn l) <-> In x l.
Proof.
  split; apply Permutation_in; [|symmetry]; apply jsSort_perm.
Qed.

(** A comparator that is consistent on the elements in [P] sorts them. *)
Variable P : A -> Prop.
Variable le : A -> A -> Prop.
Hypothesis before_le : forall x y, P x -> P y -> sortsAfter comparefn x y = false -> le x y.
Hypothesis after_le : forall x y, P x -> P y -> sortsAfter comparefn x y = true -> le y x.
Hypothesis le_trans : forall x y z, P x -> P y -> P z -> le x y -> le y z -> le x z.

Lemma sortInsert_sorted (x : A) (l : list A) :
  P x -> Forall P l -> StronglySorted le l ->
  StronglySorted le (sortInsert comparefn x l).
Proof.
  intros Px. induction l as [|y l IH]; intros Pl Sl; cbn [sortInsert].
  - repeat constructor.
  - inversion Pl as [|? ? Py Pl']; subst. inversion Sl as [|? ? Sl' Hy]; subst.
    destruct (sortsAfter comparefn x y) eqn:E.
    + constructor; [now apply IH|].
      rewrite Forall_forall. intros z Hz.
      apply (Permutation_in _ (sortInsert_perm x l)) in Hz as [<-|Hz].
      * now apply after_le.
      * rewrite Forall_forall in Hy. now apply Hy.
    + constructor; [assumption|].
      constructor; [now apply before_le|].
      rewrite Forall_forall in *. intros z Hz.
      apply (le_trans x y z); auto.
Qed.

Lemma jsSort_sorted (l : list A) :
  Forall P l -> StronglySorted le (jsSort comparefn l).
Proof.
  induction l as [|x l IH]; intros Pl; cbn [jsSort fold_right].
  - constructor.
  - inversion Pl as [|? ? Px Pl']; subst.
    apply sortInsert_sorted; [assumption| |apply IH; assumption].
    apply Forall_forall. intros z Hz. apply (proj1 (jsSort_In z l)) in Hz.
    rewrite Forall_forall in Pl'. now apply Pl'.
Qed.
End SortFacts.

(** Sorting by a key in descending order, [(a, b) => key(b) - key(a)]. *)
Lemma jsSort_descending {A : Type} (key : A -> number) (l : list A) :
  Forall (fun a => PrimFloat.is_nan (key a) = false) l ->
  StronglySorted (fun a b => ge (key a) (key b) = true)
                 (jsSort (fun a b => (key b - key a)%float) l).
Proof.
  apply jsSort_sorted; unfold sortsAfter, ge; intros x y.
  - intros Nx Ny. rewrite sub_pos_ltb. now apply not_ltb_leb.
  - intros Nx Ny. rewrite sub_pos_ltb. apply ltb_leb.
  - intros z _ _ _ H1 H2. exact (leb_trans _ _ _ H2 H1).
Qed.

(** Sorting numbers in ascending order, [(a, b) => a - b]. *)
Lemma jsSort_ascending (l : list number) :
  allNumbers l ->
  StronglySorted (fun a b => PrimFloat.leb a b = true)
                 (jsSort (fun a b => (a - b)%float) l).
Proof.
  apply jsSort_sorted; unfold sortsAfter; intros x y.
  - intros Nx Ny. rewrite sub_pos_ltb. now apply not_ltb_leb.
  - intros Nx Ny. rewrite sub_pos_ltb. apply ltb_leb.
  - intros z _ _ _ H1 H2. exact (leb_trans _ _ _ H1 H2).
Qed.

(** ** The result monad *)

Lemma mapM_throw {A B : Type} (f : A -> Result B) (l : list A) (e : JsError) :
  mapM f l = Throw e -> exists a, In a l /\ f a = Throw e.
Proof.
  induction l as [|a l IH]; cbn [mapM bind]; [discriminate|].
  destruct (f a) as [b|e'] eqn:Ea.
  - destruct (mapM f l) as [bs|e'']; [discriminate|].
    intros [= <-]. destruct IH as (a' & Hin & Ha'); [reflexivity|].
    exists a'. split; [now right|assumption].
  - intros [= <-]. exists a. split; [now left|assumption].
Qed.

Lemma mapM_ok {A B : Type} (f : A -> Result B) (g : A -> B) (l : list A) :
  (forall a, In a l -> f a = Ok (g a)) -> mapM f l = Ok (map g l).
Proof.
  induction l as [|a l IH]; intros H; cbn [mapM bind map]; [reflexivity|].
  rewrite (H a) by now left. rewrite IH by (intros; apply H; now right).
  reflexivity.
Qed.

(** ** [cosineSimilarity] *)

Lemma cosineSimilarity_length_mismatch (a b : list number) :
  List.length a <> List.length b ->
  cosineSimilarity a b = Throw VectorsMustHaveSameLength.
Proof.
  intros H. unfold cosineSimilarity.
  apply Nat.eqb_neq in H. rewrite H. reflexivity.
Qed.

Lemma cosineSimilarity_same_length (a b : list number) :
  List.length a = List.length b -> exists s, cosineSimilarity a b = Ok s.
Proof.
  intros H. unfold cosineSimilarity.
  apply Nat.eqb_eq in H. rewrite H. cbn [negb].
  destruct (cosineLoop a b (0, 0, 0)%float) as [[dot normA] normB].
  destruct (PrimFloat.eqb _ 0); eauto.
Qed.

Lemma cosineSimilarity_throw (a b : list number) (e : JsError) :
  cosineSimilarity a b = Throw e ->
  e = VectorsMustHaveSameLength /\ List.length a <> List.length b.
Proof.
  unfold cosineSimilarity.
  destruct (Nat.eqb (List.length a) (List.length b)) eqn:E; cbn [negb].
  - destruct (cosineLoop a b (0, 0, 0)%float) as [[dot normA] normB].
    destruct (PrimFloat.eqb _ 0); discriminate.
  - intros [= <-]. split; [reflexivity|]. now apply Nat.eqb_neq.
Qed.

(** * Part III. The claims *)

(** C1.  On a non-empty index whose stored embeddings all have length [L], a
    query embedding of another length makes [searchByEmbedding] throw the
    error of [cosineSimilarity]; no result list, and so no score of any
    kind, is returned. *)
Theorem searchByEmbedding_dimension_mismatch
    (store : VectorStore) (queryEmbedding : list number) (topN L : nat) :
  store <> [] ->
  Forall (fun r => List.length (embedding r) = L) store ->
  List.length queryEmbedding <> L ->
  searchByEmbedding store queryEmbedding topN = Throw VectorsMustHaveSameLength.
Proof.
  intros Hne Hall Hq.
  destruct store as [|r rest]; [contradiction|].
  inversion Hall as [|? ? Hr _]; subst.
  unfold searchByEmbedding, getAll. cbn [bind List.length Nat.eqb mapM].
  rewrite cosineSimilarity_length_mismatch by congruence.
  reflexivity.
Qed.

(** The spec's scenario: a query of length 512 against a stored record of
    length 256. *)
Lemma searchByEmbedding_dimension_mismatch_witness :
  searchByEmbedding [sampleRecord "00000000000000ff" (repeat 0%float 256)]
                    (repeat 1%float 512) 10
  = Throw VectorsMustHaveSameLength.
Proof.
  apply (searchByEmbedding_dimension_mismatch _ _ 10 256).
  - discriminate.
  - repeat constructor.
  - vm_compute. discriminate.
Defined.

(** C9.  On an index with no record [searchByEmbedding] returns the empty
    list whatever the query embedding is, and whenever it throws, some stored
    record has an embedding whose length differs from the query's: the length
    is checked once per stored record, so never on an empty index. *)
Theorem searchByEmbedding_empty_index :
  (forall (queryEmbedding : list number) (topN : nat),
      searchByEmbedding [] queryEmbedding topN = Ok []) /\
  (forall (store : VectorStore) (queryEmbedding : list number) (topN : nat)
          (e : JsError),
      searchByEmbedding store queryEmbedding topN = Throw e ->
      e = VectorsMustHaveSameLength /\
      exists r, In r store /\
                List.length (embedding r) <> List.length queryEmbedding).
Proof.
  split; [reflexivity|].
  intros store q topN e. unfold searchByEmbedding, getAll. cbn [bind].
  destruct (Nat.eqb (List.length store) 0); [discriminate|].
  destruct (mapM _ store) as [scored|e'] eqn:Em; [discriminate|].
  intros [= <-].
  apply mapM_throw in Em as (r & Hin & Hr).
  destruct (cosineSimilarity q (embedding r)) as [s|e''] eqn:Ec; [discriminate|].
  cbn [bind] in Hr. injection Hr as <-.
  apply cosineSimilarity_throw in Ec as [-> Hlen].
  split; [reflexivity|]. exists r. split; [assumption|congruence].
Qed.

(** C5.  A search over an index with no record never reports [scoring];
    whenever it returns, it returns the empty list and its last report is
    [done] at 100; and it does return, with exactly the six reports up to
    that one, once the model, the embedding and the hash of the query are
    available. *)
Theorem findSimilarAccounts_empty_index
    (S : Services) (imageBase64 : string) (eventName0 : option string) :
  vectorStore S = [] ->
  let log := fst (findSimilarAccounts S imageBase64 eventName0) in
  let result := snd (findSimilarAccounts S imageBase64 eventName0) in
  Forall (fun p => status p <> scoring) log /\
  (forall out, result = Ok out ->
     out = [] /\
     List.last log {| status := initializing; progress := 0;
                      message := MsgPreparingModel |}
     = {| status := done; progress := 100; message := MsgNoCandidates |}) /\
  (forall embedding0 queryHash,
     (if isCLIPReady S then Ok tt else initCLIP S) = Ok tt ->
     getImageEmbedding S imageBase64 = Ok embedding0 ->
     computePHash (browser S) imageBase64 = Ok queryHash ->
     result = Ok [] /\
     map (fun p => (status p, progress p)) log
     = [(initializing, 0); (initializing, 20); (extracting_embedding, 30);
        (extracting_embedding, 50); (searching, 55); (done, 100)]).
Proof.
  intros Hempty.
  unfold findSimilarAccounts, findSimilarAccountsTask, bindT, report, await, ret.
  rewrite Hempty.
  cbn [app fst snd].
  destruct (isCLIPReady S).
  - destruct (getImageEmbedding S imageBase64) as [emb|e1];
      [destruct (computePHash (browser S) imageBase64) as [h|e2]|];
      cbn [app fst snd searchByEmbedding getAll bind List.length Nat.eqb];
      (split; [repeat constructor; discriminate|]);
      (split; [intros out [= <-] || (intros out; discriminate); auto|]);
      intros emb0 h0 _ He Hh; try discriminate; auto.
  - destruct (initCLIP S) as [[]|e0];
      [destruct (getImageEmbedding S imageBase64) as [emb|e1];
       [destruct (computePHash (browser S) imageBase64) as [h|e2]|]|];
      cbn [app fst snd searchByEmbedding getAll bind List.length Nat.eqb];
      (split; [repeat constructor; discriminate|]);
      (split; [intros out [= <-] || (intros out; discriminate); auto|]);
      intros emb0 h0 Hi He Hh; try discriminate; auto.
Qed.

Lemma findSimilarAccounts_empty_index_witness :
  Forall (fun p => status p <> scoring)
         (fst (findSimilarAccounts (sampleServices [])
                                   "data:image/jpeg;base64,AAAA" None)).
Proof.
  exact (proj1 (findSimilarAccounts_empty_index
                  (sampleServices []) "data:image/jpeg;base64,AAAA" None eq_refl)).
Defined.

(** ** Zero vectors and finite norms *)

Lemma is_zero_SF (x : float) :
  PrimFloat.is_zero x = true -> exists s, Prim2SF x = S754_zero s.
Proof.
  unfold PrimFloat.is_zero. rewrite eqb_spec.
  change (Prim2SF PrimFloat.zero) with (S754_zero false).
  destruct (Prim2SF x) as [s|s| |s m e]; cbn; try discriminate; eauto.
  - destruct s; discriminate.
  - destruct s; discriminate.
Qed.

Lemma is_finite_SF (x : float) :
  PrimFloat.is_finite x = true ->
  (exists s, Prim2SF x = S754_zero s) \/ (exists s m e, Prim2SF x = S754_finite s m e).
Proof.
  unfold PrimFloat.is_finite, PrimFloat.is_infinity.
  rewrite is_nan_SF, eqb_spec, abs_spec.
  change (Prim2SF PrimFloat.infinity) with (S754_infinity false).
  destruct (Prim2SF x) as [s|s| |s m e]; cbn; try discriminate; eauto 6.
Qed.

Lemma square_of_zero (x : float) :
  PrimFloat.is_zero x = true -> (x * x)%float = 0%float.
Proof.
  intros H. destruct (is_zero_SF x H) as [s Hs].
  apply Prim2SF_inj. rewrite mul_spec, Hs.
  destruct s; reflexivity.
Qed.

Lemma zero_times_finite (z x : float) :
  PrimFloat.is_zero z = true -> PrimFloat.is_finite x = true ->
  PrimFloat.eqb (z * x) 0 = true /\ PrimFloat.eqb (x * z) 0 = true.
Proof.
  intros Hz H. rewrite !eqb_spec, !mul_spec.
  change (Prim2SF 0) with (S754_zero false).
  destruct (is_zero_SF z Hz) as [sz ->].
  destruct (is_finite_SF x H) as [[s ->]|(s & m & e & ->)];
    destruct s, sz; split; reflexivity.
Qed.

Lemma sumSquares_zeroVector (v : list number) :
  zeroVector v -> sumSquares v = 0%float.
Proof.
  unfold sumSquares. induction 1 as [|x v Hx _ IH]; cbn [fold_left].
  - reflexivity.
  - rewrite (square_of_zero x Hx). exact IH.
Qed.

Lemma computedNorm_zeroVector (v : list number) :
  zeroVector v -> computedNorm v = 0%float.
Proof.
  intros H. unfold computedNorm. rewrite (sumSquares_zeroVector v H). reflexivity.
Qed.

Lemma cosineLoop_norms (a : list number) : forall (b : list number) dot normA normB,
  List.length a = List.length b ->
  exists dot',
    cosineLoop a b (dot, normA, normB)
    = (dot',
       fold_left (fun norm x => (norm + x * x)%float) a normA,
       fold_left (fun norm x => (norm + x * x)%float) b normB).
Proof.
  induction a as [|x a IH]; intros [|y b] dot normA normB Hlen;
    try discriminate; cbn [cosineLoop fold_left].
  - eauto.
  - apply IH. now injection Hlen.
Qed.

(** [cosineSimilarity] in terms of the two computed norms. *)
Lemma cosineSimilarity_norms (a b : list number) :
  List.length a = List.length b ->
  PrimFloat.eqb (computedNorm a * computedNorm b) 0 = true ->
  cosineSimilarity a b = Ok 0%float.
Proof.
  intros Hlen Hden. unfold cosineSimilarity.
  rewrite (proj2 (Nat.eqb_eq _ _) Hlen). cbn [negb].
  destruct (cosineLoop_norms a b 0%float 0%float 0%float Hlen) as [dot' E].
  unfold number in *. rewrite E.
  fold (sumSquares a) (sumSquares b). fold (computedNorm a) (computedNorm b).
  rewrite Hden. reflexivity.
Qed.

(** C10, as amended.  For two vectors of equal length, one of which has
    zero magnitude (the norm computed for it is 0, as for every vector of
    zeros), [cosineSimilarity] returns exactly 0 in either argument order,
    provided the norm it computes for the other vector is finite. *)
Theorem cosineSimilarity_zero_vector (a b : list number) :
  List.length a = List.length b ->
  PrimFloat.is_zero (computedNorm a) = true ->
  PrimFloat.is_finite (computedNorm b) = true ->
  cosineSimilarity a b = Ok 0%float /\ cosineSimilarity b a = Ok 0%float.
Proof.
  intros Hlen Hzero Hfin.
  destruct (zero_times_finite _ _ Hzero Hfin) as [H1 H2].
  split; apply cosineSimilarity_norms; try (symmetry; exact Hlen); try exact Hlen;
    assumption.
Qed.

Lemma cosineSimilarity_zero_vector_witness :
  cosineSimilarity [0%float; (-0)%float] [0.6%float; 0.8%float] = Ok 0%float /\
  cosineSimilarity [0.6%float; 0.8%float] [0%float; (-0)%float] = Ok 0%float.
Proof.
  apply cosineSimilarity_zero_vector.
  - reflexivity.
  - rewrite (computedNorm_zeroVector [0%float; (-0)%float]); [reflexivity|].
    repeat constructor.
  - vm_compute. reflexivity.
Defined.

(** C10 as stated fails: against the zero vector, a vector whose squared
    norm overflows makes the denominator [0 * Infinity = NaN], the guard
    [denominator === 0] does not fire, and the result is [NaN]. *)
Lemma cosineSimilarity_zero_vector_nan :
  List.length [0%float] = List.length [1e200%float] /\
  zeroVector [0%float] /\
  cosineSimilarity [0%float] [1e200%float] = Ok PrimFloat.nan /\
  cosineSimilarity [0%float] [1e200%float] <> Ok 0%float.
Proof.
  split; [reflexivity|]. split; [repeat constructor|].
  split; [vm_compute; reflexivity|].
  intros H.
  apply (f_equal (fun r => match r with
                           | Ok x => PrimFloat.is_nan x
                           | Throw _ => false
                           end)) in H.
  vm_compute in H. discriminate.
Qed.

(** ** Strings of bits and of hexadecimal digits *)

Lemma str_length_app (s t : string) :
  String.length (s ++ t) = String.length s + String.length t.
Proof. induction s as [|c s IH]; cbn; [reflexivity|now rewrite IH]. Qed.

Lemma str_app_assoc (s t u : string) : ((s ++ t) ++ u = s ++ (t ++ u))%string.
Proof. induction s as [|c s IH]; cbn; [reflexivity|now rewrite IH]. Qed.

Lemma str_app_nil_r (s : string) : (s ++ "")%string = s.
Proof. induction s as [|c s IH]; cbn; [reflexivity|now rewrite IH]. Qed.

(** The four characters [hexToBinary] emits for one input character. *)
Definition bitsOfChar (c : ascii) : string :=
  padStart 4 "0" (toString2 (parseInt16 c)).

Lemma hexToBinary_cons (c : ascii) (rest : string) :
  hexToBinary (String c rest) = (bitsOfChar c ++ hexToBinary rest)%string.
Proof. reflexivity. Qed.

Lemma bitsOfChar_length (c : ascii) : String.length (bitsOfChar c) = 4.
Proof. destruct c as [[] [] [] [] [] [] [] []]; reflexivity. Qed.

Lemma hexToBinary_length (h : string) :
  String.length (hexToBinary h) = 4 * String.length h.
Proof.
  induction h as [|c h IH]; [reflexivity|].
  rewrite hexToBinary_cons, str_length_app, bitsOfChar_length, IH.
  cbn [String.length]. lia.
Qed.

Lemma binaryToHex_bitsOfChar (c : ascii) (rest : string) :
  isLowerHex c = true ->
  binaryToHex (bitsOfChar c ++ rest) = String c (binaryToHex rest).
Proof.
  destruct c as [[] [] [] [] [] [] [] []]; intros H;
    try (exfalso; vm_compute in H; discriminate H); reflexivity.
Qed.

(** Decoding undoes encoding on lower-case hexadecimal strings. *)
Lemma binaryToHex_hexToBinary (h : string) :
  allLowerHex h = true -> binaryToHex (hexToBinary h) = h.
Proof.
  unfold allLowerHex.
  induction h as [|c h IH]; cbn [list_ascii_of_string forallb]; [reflexivity|].
  intros H. apply andb_true_iff in H as [Hc Hh].
  rewrite hexToBinary_cons, binaryToHex_bitsOfChar by assumption.
  now rewrite IH.
Qed.

Lemma hexToBinary_inj (h1 h2 : string) :
  allLowerHex h1 = true -> allLowerHex h2 = true ->
  hexToBinary h1 = hexToBinary h2 -> h1 = h2.
Proof.
  intros H1 H2 E.
  rewrite <- (binaryToHex_hexToBinary h1 H1), <- (binaryToHex_hexToBinary h2 H2).
  now rewrite E.
Qed.

(** ** The Hamming distance *)

Definition differsAt (bin1 bin2 : string) (i : nat) : bool :=
  negb (Ascii.eqb (charOr0 bin1 i) (charOr0 bin2 i)).

Lemma hammingDistance_unfold (h1 h2 : string) :
  hammingDistance h1 h2
  = List.length
      (filter (differsAt (hexToBinary h1) (hexToBinary h2))
              (seq 0 (Nat.max (String.length (hexToBinary h1))
                              (String.length (hexToBinary h2))))).
Proof. reflexivity. Qed.

Lemma filter_nil_iff {A : Type} (f : A -> bool) (l : list A) :
  List.length (filter f l) = 0 <-> forall x, In x l -> f x = false.
Proof.
  induction l as [|a l IH]; cbn [filter].
  - split; [intros _ x []|reflexivity].
  - destruct (f a) eqn:E; cbn [List.length].
    + split; [discriminate|]. intros H. rewrite (H a) in E by now left. discriminate.
    + rewrite IH. split.
      * intros H x [<-|Hx]; auto.
      * intros H x Hx. apply H. now right.
Qed.

Lemma filter_length_le {A : Type} (f : A -> bool) (l : list A) :
  List.length (filter f l) <= List.length l.
Proof.
  induction l as [|a l IH]; cbn [filter]; [lia|].
  destruct (f a); cbn [List.length]; lia.
Qed.

Lemma hammingDistance_self (h : string) : hammingDistance h h = 0.
Proof.
  rewrite hammingDistance_unfold. apply filter_nil_iff.
  intros i _. unfold differsAt. now rewrite Ascii.eqb_refl.
Qed.

Lemma hammingDistance_bound (h1 h2 : string) :
  hammingDistance h1 h2
  <= 4 * Nat.max (String.length h1) (String.length h2).
Proof.
  rewrite hammingDistance_unfold.
  etransitivity; [apply filter_length_le|].
  rewrite length_seq, !hexToBinary_length. lia.
Qed.

Lemma same_chars_eq (s : string) : forall t : string,
  String.length s = String.length t ->
  (forall i, i < String.length s -> charOr0 s i = charOr0 t i) ->
  s = t.
Proof.
  induction s as [|c s IH]; intros [|d t] Hlen H; try discriminate.
  - reflexivity.
  - f_equal.
    + exact (H 0 ltac:(cbn; lia)).
    + apply IH; [now injection Hlen|].
      intros i Hi. exact (H (S i) ltac:(cbn; lia)).
Qed.

Lemma hammingDistance_zero_iff (h1 h2 : string) :
  String.length h1 = String.length h2 ->
  allLowerHex h1 = true -> allLowerHex h2 = true ->
  hammingDistance h1 h2 = 0 <-> h1 = h2.
Proof.
  intros Hlen H1 H2. split.
  - rewrite hammingDistance_unfold, filter_nil_iff. intros H.
    apply hexToBinary_inj; try assumption.
    assert (Hl : String.length (hexToBinary h1) = String.length (hexToBinary h2))
      by (rewrite !hexToBinary_length; lia).
    apply same_chars_eq; [exact Hl|].
    intros i Hi.
    specialize (H i). unfold differsAt in H.
    assert (Hin : In i (seq 0 (Nat.max (String.length (hexToBinary h1))
                                       (String.length (hexToBinary h2))))).
    { apply in_seq. lia. }
    apply H in Hin. apply negb_false_iff in Hin. now apply Ascii.eqb_eq.
  - intros ->. apply hammingDistance_self.
Qed.

Lemma similarity_of_distance (d : nat) :
  d <= 64 ->
  (d = 0 -> (1 - numOfNat d / 64)%float = 1%float) /\
  (d <> 0 -> PrimFloat.ltb (1 - numOfNat d / 64)%float 1 = true).
Proof.
  intros H.
  do 65 (destruct d as [|d];
         [split; [intros E; try discriminate E
                 |intros H0; try (exfalso; apply H0; reflexivity)];
          vm_compute; reflexivity|]).
  lia.
Qed.

(** C7, as amended.  For two hashes in the hasher's output format (sixteen
    lower-case hexadecimal digits) the distance is 0, and the similarity is
    1.0, exactly when the hashes are identical; different hashes have a
    similarity below 1.0. *)
Theorem pHashSimilarity_identical_only (h1 h2 : string) :
  wellFormedHash h1 -> wellFormedHash h2 ->
  (hammingDistance h1 h2 = 0 <-> h1 = h2) /\
  (pHashSimilarity h1 h2 = 1%float <-> h1 = h2) /\
  (h1 <> h2 -> PrimFloat.ltb (pHashSimilarity h1 h2) 1 = true).
Proof.
  intros [L1 X1] [L2 X2].
  assert (Hd : hammingDistance h1 h2 = 0 <-> h1 = h2)
    by (apply hammingDistance_zero_iff; congruence).
  assert (Hb : hammingDistance h1 h2 <= 64).
  { etransitivity; [apply hammingDistance_bound|]. rewrite L1, L2. cbn. lia. }
  destruct (similarity_of_distance _ Hb) as [S0 S1].
  assert (Hlt : h1 <> h2 -> PrimFloat.ltb (pHashSimilarity h1 h2) 1 = true).
  { intros Hne. apply S1. intros E. apply Hne, Hd, E. }
  split; [exact Hd|]. split; [|exact Hlt].
  split.
  - intros E. destruct (string_dec h1 h2) as [|Hne]; [assumption|].
    specialize (Hlt Hne). rewrite E in Hlt. vm_compute in Hlt. discriminate.
  - intros E. apply S0, Hd, E.
Qed.

Lemma pHashSimilarity_identical_only_witness :
  PrimFloat.ltb (pHashSimilarity "00020e1e3e3e7e7e" "00020e1e3e3e7e7f") 1 = true.
Proof.
  apply (pHashSimilarity_identical_only "00020e1e3e3e7e7e" "00020e1e3e3e7e7f").
  - split; reflexivity.
  - split; reflexivity.
  - discriminate.
Defined.

(** C7 as stated fails on arbitrary strings: [parseInt] reads both cases of
    a hexadecimal digit, and positions missing from the shorter hash count as
    ['0'], so different strings can be at distance 0. *)
Lemma pHashSimilarity_one_for_different_hashes :
  ("000000000000000A" <> "000000000000000a")%string /\
  hammingDistance "000000000000000A" "000000000000000a" = 0 /\
  pHashSimilarity "000000000000000A" "000000000000000a" = 1%float /\
  ("" <> "0")%string /\
  hammingDistance "" "0" = 0 /\
  pHashSimilarity "" "0" = 1%float.
Proof.
  repeat split; try discriminate; vm_compute; reflexivity.
Qed.

(** ** Maps in insertion order *)

Section MapFacts.
Context {V : Type}.
Implicit Types (m : list (string * V)) (key : string) (v : V).

Lemma mapGet_None key m :
  mapGet key m = None <-> ~ In key (map fst m).
Proof.
  induction m as [|[k v0] m IH]; cbn [mapGet map fst In].
  - tauto.
  - destruct (String.eqb_spec k key) as [->|Hne].
    + split; [discriminate|]. intros H. exfalso. apply H. now left.
    + rewrite IH. tauto.
Qed.

Lemma mapSet_absent key v m :
  mapGet key m = None -> mapSet key v m = m ++ [(key, v)].
Proof.
  induction m as [|[k v0] m IH]; cbn [mapGet mapSet app]; [reflexivity|].
  destruct (String.eqb k key); [discriminate|].
  intros H. now rewrite IH.
Qed.

Lemma mapSet_present key v v0 m :
  mapGet key m = Some v0 ->
  exists m1 m2, m = m1 ++ (key, v0) :: m2 /\
                ~ In key (map fst m1) /\
                mapSet key v m = m1 ++ (key, v) :: m2.
Proof.
  induction m as [|[k v1] m IH]; cbn [mapGet mapSet]; [discriminate|].
  destruct (String.eqb_spec k key) as [->|Hne].
  - intros [= ->]. exists [], m. cbn. auto.
  - intros H. destruct (IH H) as (m1 & m2 & -> & Hn & E).
    exists ((k, v1) :: m1), m2. cbn [app map fst In]. rewrite E.
    repeat split; auto. intros [?|?]; auto.
Qed.

Lemma mapGet_app_absent key m1 m2 :
  ~ In key (map fst m1) -> mapGet key (m1 ++ m2) = mapGet key m2.
Proof.
  induction m1 as [|[k v] m1 IH]; cbn [app mapGet map fst In]; [reflexivity|].
  intros H. destruct (String.eqb_spec k key) as [->|Hne]; [tauto|].
  apply IH. tauto.
Qed.
End MapFacts.

Lemma mapM_Forall2 {A B : Type} (f : A -> Result B) (l : list A) (out : list B) :
  mapM f l = Ok out -> Forall2 (fun a b => f a = Ok b) l out.
Proof.
  revert out. induction l as [|a l IH]; intros out; cbn [mapM bind].
  - intros [= <-]. constructor.
  - destruct (f a) as [b|e] eqn:Ea; [|discriminate].
    destruct (mapM f l) as [bs|e]; [|discriminate].
    intros [= <-]. constructor; auto.
Qed.

Lemma mapM_all_ok {A B : Type} (f : A -> Result B) (l : list A) :
  (forall a, In a l -> exists b, f a = Ok b) -> exists out, mapM f l = Ok out.
Proof.
  induction l as [|a l IH]; intros H; cbn [mapM bind]; [eauto|].
  destruct (H a) as [b ->]; [now left|].
  destruct IH as [bs ->]; [intros; apply H; now right|].
  cbn [bind]. eauto.
Qed.

Lemma Forall2_In_r {A B : Type} (R : A -> B -> Prop) (l : list A) (l' : list B) (b : B) :
  Forall2 R l l' -> In b l' -> exists a, In a l /\ R a b.
Proof.
  induction 1 as [|a b0 l l' Hab _ IH]; intros Hin; [destruct Hin|].
  destruct Hin as [<-|Hin].
  - exists a. split; [now left|assumption].
  - destruct (IH Hin) as (a' & Ha' & HR). exists a'. split; [now right|assumption].
Qed.

(** ** "Best image wins" *)

Lemma fold_pickBest (rest : list ImageScores) : forall (first : ImageScores) (seen : list ImageScores),
  In first seen ->
  (forall s, In s seen -> gt (imageScore s) (imageScore first) = false) ->
  let best := fold_left pickBest rest first in
  In best (seen ++ rest) /\
  forall s, In s (seen ++ rest) -> gt (imageScore s) (imageScore best) = false.
Proof.
  induction rest as [|img rest IH]; intros first seen Hin Hmax; cbn [fold_left].
  - rewrite app_nil_r. auto.
  - replace (seen ++ img :: rest) with ((seen ++ [img]) ++ rest)
      by (rewrite <- app_assoc; reflexivity).
    apply IH.
    + unfold pickBest. destruct (gt _ _); apply in_or_app; cbn; auto.
    + intros s Hs. apply in_app_or in Hs.
      unfold pickBest, gt in *.
      destruct (PrimFloat.ltb (imageScore first) (imageScore img)) eqn:E.
      * destruct Hs as [Hs|[<-|[]]]; [|apply ltb_irrefl].
        destruct (PrimFloat.ltb (imageScore img) (imageScore s)) eqn:E2;
          [|reflexivity].
        rewrite <- (Hmax s Hs). symmetry. exact (ltb_trans _ _ _ E E2).
      * destruct Hs as [Hs|[<-|[]]]; auto.
Qed.

Lemma reduceBest_spec (imgs : list ImageScores) :
  imgs <> [] ->
  exists best, reduceBest imgs = Ok best /\ In best imgs /\
               forall s, In s imgs -> gt (imageScore s) (imageScore best) = false.
Proof.
  destruct imgs as [|first rest]; [contradiction|]. intros _.
  exists (fold_left pickBest rest first). split; [reflexivity|].
  apply (fold_pickBest rest first [first]).
  - now left.
  - intros s [<-|[]]. apply ltb_irrefl.
Qed.

(** ** Grouping the candidates by account *)

Section Grouping.
Variables (queryHash : string) (eventName0 : option string).

(** What an entry of the account map holds after the loop has seen
    [processed]. *)
Definition groupEntryOf (processed : list SearchResult)
    (e : string * AccountGroup) : Prop :=
  groupHandle (snd e) = fst e /\
  images (snd e)
  = map (imageOf queryHash eventName0) (filter (ofAccount (fst e)) processed) /\
  images (snd e) <> [].

Definition groupedUpTo (processed : list SearchResult)
    (m : list (string * AccountGroup)) : Prop :=
  NoDup (map fst m) /\
  (forall c, In c processed -> In (accountHandle (record c)) (map fst m)) /\
  Forall (groupEntryOf processed) m.

Lemma filter_snoc_other (h : string) (processed : list SearchResult) (c : SearchResult) :
  accountHandle (record c) <> h ->
  filter (ofAccount h) (processed ++ [c]) = filter (ofAccount h) processed.
Proof.
  intros Hne. rewrite filter_app. cbn [filter]. unfold ofAccount at 2.
  rewrite (proj2 (String.eqb_neq _ _) Hne). apply app_nil_r.
Qed.

Lemma filter_snoc_same (processed : list SearchResult) (c : SearchResult) :
  filter (ofAccount (accountHandle (record c))) (processed ++ [c])
  = filter (ofAccount (accountHandle (record c))) processed ++ [c].
Proof.
  rewrite filter_app. cbn [filter]. unfold ofAccount at 2.
  now rewrite String.eqb_refl.
Qed.

Lemma filter_none (h : string) (processed : list SearchResult) :
  (forall c, In c processed -> accountHandle (record c) <> h) ->
  filter (ofAccount h) processed = [].
Proof.
  induction processed as [|c l IH]; intros H; cbn [filter]; [reflexivity|].
  unfold ofAccount at 1.
  rewrite (proj2 (String.eqb_neq _ _) (H c (or_introl eq_refl))).
  apply IH. intros; apply H; now right.
Qed.

Lemma grouped_entries_snoc_other (processed : list SearchResult) (c : SearchResult)
    (m : list (string * AccountGroup)) :
  ~ In (accountHandle (record c)) (map fst m) ->
  Forall (groupEntryOf processed) m ->
  Forall (groupEntryOf (processed ++ [c])) m.
Proof.
  intros Hn H. rewrite Forall_forall in *. intros e Hin.
  destruct (H e Hin) as (Hh & Hi & Hne). repeat split; auto.
  rewrite filter_snoc_other; [assumption|].
  intros E. apply Hn. rewrite E. now apply in_map.
Qed.

Lemma addCandidate_grouped (processed : list SearchResult)
    (m : list (string * AccountGroup)) (c : SearchResult) :
  groupedUpTo processed m ->
  groupedUpTo (processed ++ [c]) (addCandidate queryHash eventName0 m c).
Proof.
  intros (Hnd & Hkeys & Hall). unfold addCandidate, mapHas. cbv zeta.
  set (key := accountHandle (record c)).
  destruct (mapGet key m) as [g|] eqn:Eg.
  - (* the account already has a group *)
    destruct (mapSet_present key
                {| groupName := groupName g; groupHandle := groupHandle g;
                   images := images g ++
                     [{| imageId := id (record c);
                         imageClipScore := clipScore c;
                         pHashScore := pHashSimilarity queryHash (pHash (record c));
                         metadataBonus :=
                           metadataBonusOf eventName0 (eventName (record c)) |}] |}
                g m Eg) as (m1 & m2 & Em & Hn & Es).
    rewrite Eg, Es. subst m.
    rewrite map_app in Hnd. cbn [map fst] in Hnd.
    pose proof (NoDup_remove_2 _ _ _ Hnd) as Hfresh.
    assert (Hn2 : ~ In key (map fst m2)).
    { intros H. apply Hfresh. apply in_or_app. now right. }
    split; [|split].
    + rewrite map_app. exact Hnd.
    + intros c' Hc'. rewrite map_app in *. cbn [map fst] in *.
      apply in_app_or in Hc' as [Hc'|[<-|[]]]; [now apply Hkeys|].
      apply in_or_app. right. now left.
    + apply Forall_app in Hall as [H1 H2].
      inversion H2 as [|? ? (Hh & Hi & Hne) H2']; subst. cbn [fst snd] in *.
      apply Forall_app. split; [|constructor].
      * now apply grouped_entries_snoc_other.
      * unfold groupEntryOf. cbn [fst snd images groupHandle]. repeat split; auto.
        -- unfold key in *. rewrite filter_snoc_same, map_app, <- Hi. reflexivity.
        -- intros E. apply app_eq_nil in E as [_ E]. discriminate.
      * now apply grouped_entries_snoc_other.
  - (* a new account *)
    pose proof (proj1 (mapGet_None key m) Eg) as Hn.
    rewrite (mapSet_absent key _ m Eg).
    rewrite (mapGet_app_absent key m _ Hn). cbn [mapGet].
    rewrite String.eqb_refl.
    assert (Eset : forall (v v' : AccountGroup),
               mapSet key v (m ++ [(key, v')]) = m ++ [(key, v)]).
    { intros v v'. clear - Hn. induction m as [|[k v0] m IH]; cbn [app mapSet].
      - now rewrite String.eqb_refl.
      - cbn [map fst In] in Hn.
        destruct (String.eqb_spec k key) as [->|Hne]; [tauto|].
        rewrite IH by tauto. reflexivity. }
    rewrite Eset. cbn [images groupName groupHandle app].
    split; [|split].
    + rewrite map_app. cbn [map fst].
      apply NoDup_app; [assumption|repeat constructor; intros []|].
      intros k Hk [<-|[]]. contradiction.
    + intros c' Hc'. rewrite map_app. cbn [map fst].
      apply in_app_or in Hc' as [Hc'|[<-|[]]]; apply in_or_app;
        [left; now apply Hkeys|right; now left].
    + apply Forall_app. split; [now apply grouped_entries_snoc_other|].
      constructor; [|constructor].
      unfold groupEntryOf. cbn [fst snd images groupHandle].
      repeat split; [|discriminate].
      unfold key. rewrite filter_snoc_same, filter_none; [reflexivity|].
      intros c' Hc' E. apply Hn. fold key in E. rewrite <- E. now apply Hkeys.
Qed.

Lemma groupCandidates_grouped (candidates : list SearchResult) :
  groupedUpTo candidates (groupCandidates queryHash eventName0 candidates).
Proof.
  unfold groupCandidates.
  induction candidates as [|c l IH] using rev_ind.
  - repeat split; [constructor|intros c []|constructor].
  - rewrite fold_left_app. cbn [fold_left]. now apply addCandidate_grouped.
Qed.
End Grouping.

(** ** Scoring one account *)

Lemma candidateOf_spec (queryHash : string) (eventName0 : option string)
    (candidates : list SearchResult) (accountCountMap : list (string * nat))
    (maxCount : nat) (e : string * AccountGroup) :
  groupEntryOf queryHash eventName0 candidates e ->
  exists c best,
    candidateOf accountCountMap maxCount e = Ok c /\
    In best candidates /\
    accountHandle (record best) = candHandle c /\
    candHandle c = fst e /\
    (forall other, In other candidates ->
       accountHandle (record other) = candHandle c ->
       gt (imageScore (imageOf queryHash eventName0 other))
          (imageScore (imageOf queryHash eventName0 best)) = false) /\
    totalScore c
    = totalScoreOf (imageOf queryHash eventName0 best) (frequency (scores c)) /\
    frequency (scores c) = frequencyBonusOf (imageCount c) maxCount /\
    imageCount c = imageCountOf accountCountMap (fst e) /\
    matchedImages c
    = map (fun o => (id (record o), clipScore o)) (filter (ofAccount (fst e)) candidates).
Proof.
  destruct e as [h data]. intros (Hh & Hi & Hne). cbn [fst snd] in *.
  destruct (reduceBest_spec (images data) Hne) as (bestImage & Er & Hin & Hmax).
  rewrite Hi in Hin. apply in_map_iff in Hin as (best & Eb & Hb).
  apply filter_In in Hb as [Hbc Hbh]. apply String.eqb_eq in Hbh.
  eexists. exists best. unfold candidateOf. rewrite Er. cbn [bind].
  split; [reflexivity|].
  cbn [candHandle totalScore scores frequency imageCount matchedImages].
  repeat split; auto.
  - congruence.
  - intros other Ho Hoh. rewrite Eb. apply Hmax. rewrite Hi.
    apply in_map. apply filter_In. split; [assumption|].
    apply String.eqb_eq. congruence.
  - now rewrite Eb.
  - rewrite Hi, map_map. reflexivity.
Qed.

Lemma pHashSimilarity_self (h : string) : pHashSimilarity h h = 1%float.
Proof.
  unfold pHashSimilarity. rewrite hammingDistance_self. reflexivity.
Qed.

(** C2, as amended.  Every candidate [scoreAndAggregate] emits carries the
    total score of one image of its account, the best one: no image of the
    account in the candidate window has a greater weighted score
    [clip*0.50 + pHash*0.30 + metadata*0.15], and the total is that score
    plus [frequencyBonus*0.05], where [frequencyBonus] is the account's
    share [imageCount / maxCount * 0.1].  A single record whose embedding
    and hash are the query's, with no event name, scores exactly 0.805
    when the cosine similarity of the embedding with itself is computed as
    exactly 1. *)
Theorem scoreAndAggregate_best_image_wins :
  (forall (store : VectorStore) (candidates : list SearchResult)
          (queryEmbedding : list number) (queryHash : string)
          (eventName0 : option string) (results : list ScoredCandidate),
      scoreAndAggregate store candidates queryEmbedding queryHash eventName0
      = Ok results ->
      exists uniqueAccounts,
        getUniqueAccounts store = Ok uniqueAccounts /\
        forall c, In c results ->
          exists best,
            In best candidates /\
            accountHandle (record best) = candHandle c /\
            (forall other, In other candidates ->
               accountHandle (record other) = candHandle c ->
               gt (clipScore other * 0.50
                   + pHashSimilarity queryHash (pHash (record other)) * 0.30
                   + metadataBonusOf eventName0 (eventName (record other)) * 0.15)%float
                  (clipScore best * 0.50
                   + pHashSimilarity queryHash (pHash (record best)) * 0.30
                   + metadataBonusOf eventName0 (eventName (record best)) * 0.15)%float
               = false) /\
            totalScore c
            = (clipScore best * 0.50
               + pHashSimilarity queryHash (pHash (record best)) * 0.30
               + metadataBonusOf eventName0 (eventName (record best)) * 0.15
               + frequency (scores c) * 0.05)%float /\
            frequency (scores c)
            = (numOfNat (imageCount c) / numOfNat (maxCountOf uniqueAccounts)
               * 0.1)%float) /\
  (forall (r : ImageRecord) (topN : nat) (results : list ScoredCandidate),
      cosineSimilarity (embedding r) (embedding r) = Ok 1%float ->
      0 < topN ->
      (candidates <- searchByEmbedding [r] (embedding r) topN ;;
       scoreAndAggregate [r] candidates (embedding r) (pHash r) None)
      = Ok results ->
      exists c,
        results = [c] /\
        candHandle c = accountHandle r /\
        totalScore c = 0.805%float).
Proof.
  split.
  - intros store candidates q queryHash ev results E.
    unfold scoreAndAggregate in E.
    destruct (getUniqueAccounts store) as [unique|e] eqn:Eu; cbn [bind] in E;
      [|discriminate E].
    exists unique. split; [reflexivity|].
    set (countMap := fold_left _ unique []) in E.
    destruct (groupCandidates_grouped queryHash ev candidates) as (_ & _ & Hall).
    rewrite Forall_forall in Hall.
    destruct (mapM (candidateOf countMap (maxCountOf unique))
                (groupCandidates queryHash ev candidates)) as [results0|e] eqn:Er;
      cbn [bind] in E; [|discriminate E].
    injection E as <-.
    intros c Hc. apply jsSort_In in Hc.
    apply mapM_Forall2 in Er.
    destruct (Forall2_In_r _ _ _ _ Er Hc) as (e & He & Hce).
    destruct (candidateOf_spec queryHash ev candidates countMap
                (maxCountOf unique) e (Hall e He))
      as (c' & best & Hc' & Hb & Hbh & _ & Hmax & Ht & Hf & _).
    rewrite Hce in Hc'. injection Hc' as <-.
    exists best.
    split; [exact Hb|]. split; [exact Hbh|]. split; [exact Hmax|].
    split; [exact Ht|exact Hf].
  - intros r topN results Hcos Htop E.
    destruct topN as [|n]; [lia|].
    unfold searchByEmbedding, getAll in E.
    cbn [bind List.length Nat.eqb mapM] in E. rewrite Hcos in E.
    cbn [bind jsSort fold_right sortInsert firstn] in E.
    replace (firstn n []) with (@nil SearchResult) in E by (now destruct n).
    unfold scoreAndAggregate, getUniqueAccounts, getAll, countAccounts,
      groupCandidates, addCandidate, mapHas in E.
    cbn [bind fold_left mapGet mapSet map snd jsSort fold_right sortInsert
         handle count name record] in E.
    rewrite !String.eqb_refl in E.
    cbn [mapGet mapSet mapM bind candidateOf images reduceBest fold_left app
         jsSort fold_right sortInsert groupName groupHandle] in E.
    injection E as <-.
    eexists. split; [reflexivity|]. split; [reflexivity|].
    cbn [totalScore]. unfold totalScoreOf, imageCountOf.
    cbn [imageClipScore pHashScore metadataBonus mapGet].
    rewrite String.eqb_refl, pHashSimilarity_self.
    reflexivity.
Qed.

Lemma scoreAndAggregate_best_image_wins_witness :
  (exists candidates results uniqueAccounts,
     searchByEmbedding sampleIndex [1%float; 0%float] TOP_N_SEARCH = Ok candidates /\
     scoreAndAggregate sampleIndex candidates [1%float; 0%float]
                       "00020e1e3e3e7e7e" None = Ok results /\
     getUniqueAccounts sampleIndex = Ok uniqueAccounts /\
     map candHandle results = ["@alice"%string; "@bob"%string] /\
     forall c, In c results ->
       exists best,
         In best candidates /\
         accountHandle (record best) = candHandle c /\
         (forall other, In other candidates ->
            accountHandle (record other) = candHandle c ->
            gt (clipScore other * 0.50
                + pHashSimilarity "00020e1e3e3e7e7e" (pHash (record other)) * 0.30
                + metadataBonusOf None (eventName (record other)) * 0.15)%float
               (clipScore best * 0.50
                + pHashSimilarity "00020e1e3e3e7e7e" (pHash (record best)) * 0.30
                + metadataBonusOf None (eventName (record best)) * 0.15)%float
            = false) /\
         totalScore c
         = (clipScore best * 0.50
            + pHashSimilarity "00020e1e3e3e7e7e" (pHash (record best)) * 0.30
            + metadataBonusOf None (eventName (record best)) * 0.15
            + frequency (scores c) * 0.05)%float /\
         frequency (scores c)
         = (numOfNat (imageCount c) / numOfNat (maxCountOf uniqueAccounts)
            * 0.1)%float) /\
  (exists c,
     (candidates <- searchByEmbedding
                      [sampleRecord "00020e1e3e3e7e7e" [1%float; 0%float]]
                      [1%float; 0%float] TOP_N_SEARCH ;;
      scoreAndAggregate [sampleRecord "00020e1e3e3e7e7e" [1%float; 0%float]]
                        candidates [1%float; 0%float] "00020e1e3e3e7e7e" None)
     = Ok [c] /\
     candHandle c = "@alice"%string /\
     totalScore c = 0.805%float).
Proof.
  destruct scoreAndAggregate_best_image_wins as [Hbest Hself].
  split.
  - destruct (searchByEmbedding sampleIndex [1%float; 0%float] TOP_N_SEARCH)
      as [candidates|e] eqn:Es; [|vm_compute in Es; discriminate Es].
    destruct (scoreAndAggregate sampleIndex candidates [1%float; 0%float]
                "00020e1e3e3e7e7e" None) as [results|e] eqn:Ea.
    + destruct (Hbest _ _ _ _ _ _ Ea) as (uniqueAccounts & Eu & Hc).
      exists candidates, results, uniqueAccounts.
      split; [reflexivity|]. split; [exact Ea|]. split; [exact Eu|].
      split; [|exact Hc].
      vm_compute in Es. injection Es as <-.
      vm_compute in Ea. injection Ea as <-. reflexivity.
    + vm_compute in Es. injection Es as <-. vm_compute in Ea. discriminate Ea.
  - destruct (candidates <- searchByEmbedding
                      [sampleRecord "00020e1e3e3e7e7e" [1%float; 0%float]]
                      [1%float; 0%float] TOP_N_SEARCH ;;
      scoreAndAggregate [sampleRecord "00020e1e3e3e7e7e" [1%float; 0%float]]
                        candidates [1%float; 0%float] "00020e1e3e3e7e7e" None)
      as [results|e] eqn:E; [|vm_compute in E; discriminate E].
    destruct (Hself (sampleRecord "00020e1e3e3e7e7e" [1%float; 0%float])
                TOP_N_SEARCH results) as (c & -> & Hh & Ht).
    + vm_compute. reflexivity.
    + unfold TOP_N_SEARCH. lia.
    + exact E.
    + exists c. split; [reflexivity|]. split; [exact Hh|exact Ht].
Defined.

(** The spec's scenario end to end: one stored record whose embedding (the
    unit vector [e1]) and hash are the query's, no event name. *)
Example self_match_scores_0805 :
  (candidates <- searchByEmbedding
                   [sampleRecord "00020e1e3e3e7e7e" [1%float; 0%float]]
                   [1%float; 0%float] TOP_N_SEARCH ;;
   scored <- scoreAndAggregate
               [sampleRecord "00020e1e3e3e7e7e" [1%float; 0%float]]
               candidates [1%float; 0%float] "00020e1e3e3e7e7e" None ;;
   Ok (map totalScore scored))
  = Ok [0.805%float].
Proof. vm_compute. reflexivity. Qed.

(** C2 as stated fails in binary64 arithmetic: the cosine similarity of a
    vector with itself need not be 1.  For the embedding [[1; 1]] it is
    [0.9999999999999998], and the single record whose embedding and hash are
    the query's scores less than 0.805. *)
Lemma self_match_below_0805 :
  embedding (sampleRecord "00020e1e3e3e7e7e" [1%float; 1%float])
  = [1%float; 1%float] /\
  pHash (sampleRecord "00020e1e3e3e7e7e" [1%float; 1%float]) = "00020e1e3e3e7e7e"%string /\
  cosineSimilarity [1%float; 1%float] [1%float; 1%float]
  = Ok 0.99999999999999978%float /\
  (candidates <- searchByEmbedding
                   [sampleRecord "00020e1e3e3e7e7e" [1%float; 1%float]]
                   [1%float; 1%float] TOP_N_SEARCH ;;
   scored <- scoreAndAggregate
               [sampleRecord "00020e1e3e3e7e7e" [1%float; 1%float]]
               candidates [1%float; 1%float] "00020e1e3e3e7e7e" None ;;
   Ok (map totalScore scored))
  = Ok [0.80499999999999983%float] /\
  PrimFloat.ltb 0.80499999999999983%float 0.805%float = true /\
  PrimFloat.eqb 0.80499999999999983%float 0.805%float = false.
Proof.
  split; [reflexivity|]. split; [reflexivity|].
  split; [vm_compute; reflexivity|].
  split; [vm_compute; reflexivity|].
  split; reflexivity.
Qed.

(** ** The top-N query *)

Lemma StronglySorted_firstn {A : Type} (R : A -> A -> Prop) (n : nat) (l : list A) :
  StronglySorted R l -> StronglySorted R (firstn n l).
Proof.
  revert l. induction n as [|n IH]; intros l H; [constructor|].
  destruct l as [|a l]; [constructor|].
  inversion H as [|? ? Hs Hall]; subst. cbn [firstn]. constructor; [now apply IH|].
  rewrite Forall_forall in *. intros x Hx. apply Hall.
  rewrite <- (firstn_skipn n l). apply in_or_app. now left.
Qed.

Lemma searchByEmbedding_scored (store : VectorStore) (q : list number) (topN : nat) :
  Forall (fun r => List.length (embedding r) = List.length q) store ->
  searchByEmbedding store q topN
  = Ok (firstn topN
          (jsSort (fun a b => (clipScore b - clipScore a)%float)
                  (map (scoredRecord q) store))).
Proof.
  intros Hdim. unfold searchByEmbedding, getAll. cbn [bind].
  destruct store as [|r0 rest] eqn:Es; [now destruct topN|].
  cbn [List.length Nat.eqb]. rewrite <- Es in *.
  rewrite (mapM_ok _ (scoredRecord q)); [reflexivity|].
  intros r Hr. rewrite Forall_forall in Hdim.
  destruct (cosineSimilarity_same_length q (embedding r)) as [s Hs];
    [symmetry; now apply Hdim|].
  unfold scoredRecord. rewrite Hs. reflexivity.
Qed.

(** C4, as amended.  For a query of the dimension of every stored record,
    [searchByEmbedding] returns a list of at most [min topN corpusSize]
    results, and the list is non-increasing in [clipScore] whenever every
    cosine score of the corpus against the query is a number. *)
Theorem searchByEmbedding_ranked
    (store : VectorStore) (queryEmbedding : list number) (topN : nat) :
  Forall (fun r => List.length (embedding r) = List.length queryEmbedding) store ->
  exists results,
    searchByEmbedding store queryEmbedding topN = Ok results /\
    List.length results <= Nat.min topN (List.length store) /\
    ((forall r s, In r store ->
                  cosineSimilarity queryEmbedding (embedding r) = Ok s ->
                  PrimFloat.is_nan s = false) ->
     StronglySorted (fun a b => ge (clipScore a) (clipScore b) = true) results).
Proof.
  intros Hdim. eexists. split; [now apply searchByEmbedding_scored|]. split.
  - rewrite length_firstn, jsSort_length, length_map. lia.
  - intros Hnum. apply StronglySorted_firstn.
    apply (jsSort_descending clipScore).
    rewrite Forall_forall. intros x Hx.
    apply in_map_iff in Hx as (r & <- & Hr).
    rewrite Forall_forall in Hdim.
    destruct (cosineSimilarity_same_length queryEmbedding (embedding r)) as [s Hs];
      [symmetry; now apply Hdim|].
    unfold scoredRecord. cbn [clipScore]. rewrite Hs. now apply (Hnum r).
Qed.

(** Four records in key order, the best three asked for: the scores against
    [[1]] are 0, 1, 1 and -1, all of them numbers. *)
Lemma searchByEmbedding_ranked_witness :
  exists results,
    searchByEmbedding [hugeRecord; unitRecord; twinRecord; minusRecord]
                      [1%float] 3 = Ok results /\
    map (fun r => (id (record r), clipScore r)) results
    = [("img_2"%string, 1%float); ("img_3"%string, 1%float);
       ("img_1"%string, 0%float)] /\
    List.length results <= Nat.min 3 4 /\
    StronglySorted (fun a b => ge (clipScore a) (clipScore b) = true) results.
Proof.
  destruct (searchByEmbedding_ranked
              [hugeRecord; unitRecord; twinRecord; minusRecord] [1%float] 3)
    as (results & E & Hlen & Hsorted).
  - repeat constructor.
  - exists results. split; [exact E|].
    split; [vm_compute in E; injection E as <-; reflexivity|].
    split; [exact Hlen|].
    apply Hsorted.
    intros r s [<-|[<-|[<-|[<-|[]]]]] H; vm_compute in H;
      injection H as <-; reflexivity.
Defined.

(** C4 as stated fails when a score is [NaN]: against the zero query the
    record whose squared norm overflows scores [NaN], and no order of the
    two results is non-increasing. *)
Lemma searchByEmbedding_nan_not_ranked :
  Forall (fun r => List.length (embedding r) = List.length [0%float])
         [hugeRecord; unitRecord] /\
  searchByEmbedding [hugeRecord; unitRecord] [0%float] 10
  = Ok [ {| record := hugeRecord; clipScore := PrimFloat.nan |};
         {| record := unitRecord; clipScore := 0%float |} ] /\
  ge PrimFloat.nan 0%float = false /\ ge 0%float PrimFloat.nan = false.
Proof.
  split; [repeat constructor|].
  split; [vm_compute; reflexivity|].
  split; reflexivity.
Qed.

(** ** The bits of the perceptual hash *)

(** The character the hash loop appends for one coefficient. *)
Definition bitOf (median val : number) : ascii :=
  if gt val median then "1"%char else "0"%char.

Lemma fold_hash_bits (median : number) (l : list number) (acc : string) :
  fold_left
    (fun hash val => (hash ++ (if gt val median then "1" else "0"))%string) l acc
  = (acc ++ string_of_list_ascii (map (bitOf median) l))%string.
Proof.
  revert acc.
  induction l as [|v l IH]; intros acc; cbn [fold_left map string_of_list_ascii].
  - now rewrite str_app_nil_r.
  - rewrite IH, str_app_assoc. unfold bitOf.
    destruct (gt v median); reflexivity.
Qed.

Lemma hashBitsOf_chars (lowFreq : list number) :
  hashBitsOf lowFreq
  = string_of_list_ascii (map (bitOf (medianOf lowFreq)) lowFreq).
Proof. unfold hashBitsOf. now rewrite fold_hash_bits. Qed.

Lemma string_of_list_length (l : list ascii) :
  String.length (string_of_list_ascii l) = List.length l.
Proof. induction l as [|c l IH]; cbn; [reflexivity|now rewrite IH]. Qed.

Lemma string_of_list_get (l : list ascii) (k : nat) :
  String.get k (string_of_list_ascii l) = nth_error l k.
Proof.
  revert k. induction l as [|c l IH]; intros [|k]; cbn; auto.
Qed.

Lemma substring_all (s : string) : String.substring 0 (String.length s) s = s.
Proof. induction s as [|c s IH]; cbn; [reflexivity|now rewrite IH]. Qed.

Lemma isBinaryString_of_bits (median : number) (l : list number) :
  isBinaryString (string_of_list_ascii (map (bitOf median) l)) = true.
Proof.
  unfold isBinaryString. rewrite list_ascii_of_string_of_list_ascii.
  apply forallb_forall. intros c Hc. apply in_map_iff in Hc as (v & <- & _).
  unfold bitOf. destruct (gt v median); reflexivity.
Qed.

Lemma isBinaryDigit_cases (c : ascii) :
  isBinaryDigit c = true -> c = "0"%char \/ c = "1"%char.
Proof.
  unfold isBinaryDigit. intros H. apply orb_true_iff in H as [H|H];
    apply Ascii.eqb_eq in H; auto.
Qed.

(** Four binary digits are written as one lower-case hexadecimal digit,
    which reads back as the same four digits. *)
Lemma binaryToHex_chunk (a b c d : ascii) (rest : string) :
  isBinaryDigit a = true -> isBinaryDigit b = true ->
  isBinaryDigit c = true -> isBinaryDigit d = true ->
  exists h,
    binaryToHex (String a (String b (String c (String d rest))))
    = String h (binaryToHex rest) /\
    bitsOfChar h = String a (String b (String c (String d EmptyString))).
Proof.
  intros Ha Hb Hc Hd.
  destruct (isBinaryDigit_cases a Ha) as [->| ->],
           (isBinaryDigit_cases b Hb) as [->| ->],
           (isBinaryDigit_cases c Hc) as [->| ->],
           (isBinaryDigit_cases d Hd) as [->| ->];
    eexists; split; reflexivity.
Qed.

Lemma binaryToHex_roundtrip (n : nat) : forall bits : string,
  String.length bits = 4 * n -> isBinaryString bits = true ->
  String.length (binaryToHex bits) = n /\
  hexToBinary (binaryToHex bits) = bits.
Proof.
  induction n as [|n IH]; intros bits Hlen Hbin.
  - destruct bits; [split; reflexivity|discriminate].
  - destruct bits as [|a [|b [|c [|d rest]]]]; cbn [String.length] in Hlen; try lia.
    unfold isBinaryString in Hbin. cbn [list_ascii_of_string forallb] in Hbin.
    apply andb_true_iff in Hbin as [Ha Hbin].
    apply andb_true_iff in Hbin as [Hb Hbin].
    apply andb_true_iff in Hbin as [Hc Hbin].
    apply andb_true_iff in Hbin as [Hd Hbin].
    destruct (binaryToHex_chunk a b c d rest Ha Hb Hc Hd) as (h & -> & Eh).
    destruct (IH rest) as [IH1 IH2]; [lia|exact Hbin|].
    split.
    + cbn [String.length]. now rewrite IH1.
    + rewrite hexToBinary_cons, Eh, IH2. reflexivity.
Qed.

Lemma lowFreqOf_length (dctResult : list (list number)) :
  List.length (lowFreqOf dctResult) = 63.
Proof. reflexivity. Qed.

Lemma lowFreqOf_scan_order (dctResult : list (list number)) (y x : nat) :
  y < 8 -> x < 8 -> 0 < 8 * y + x ->
  nth (8 * y + x - 1) (lowFreqOf dctResult) PrimFloat.nan
  = nth x (nth y dctResult []) PrimFloat.nan.
Proof.
  intros Hy Hx Hpos.
  do 8 (destruct y as [|y];
        [do 8 (destruct x as [|x]; [try lia; reflexivity|]); lia|]).
  lia.
Qed.

(** The hash of a sample block of coefficients. *)
Example hexHashOf_sample :
  hexHashOf (map (fun y => map (fun x => numOfNat (x * y + x)) (seq 0 32)) (seq 0 32))
  = "00020e1e3e3e7e7e"%string.
Proof. vm_compute. reflexivity. Qed.

(** The hash of an image is [hexHashOf] of the transform of its pixels. *)
Lemma computePHash_ok (browser : Browser) (imageBase64 h : string) :
  computePHash browser imageBase64 = Ok h ->
  exists data,
    loadImageData browser imageBase64 = Ok data /\
    h = hexHashOf (computeDCT (floatOps (Math_cos browser))
                              (grayPixelsOf data 32) 32).
Proof.
  unfold computePHash.
  destruct (loadImageData browser imageBase64) as [data|e]; cbn [bind];
    [|discriminate].
  intros [= <-]. eauto.
Qed.

(** The coefficient at row [u] and column [v] of the transform. *)
Lemma computeDCT_nth {num : Type} (O : NumOps num) (pixels : list (list num))
    (size u v : nat) :
  (u < size)%nat -> (v < size)%nat ->
  nth v (nth u (computeDCT O pixels size) []) (nUndefined O)
  = dctCoefficient O pixels size u v.
Proof.
  intros Hu Hv. unfold computeDCT.
  rewrite (nth_indep _ [] (map (fun v0 => dctCoefficient O pixels size 0 v0) (seq 0 size)))
    by (rewrite length_map, length_seq; exact Hu).
  rewrite (map_nth (fun u0 => map (fun v0 => dctCoefficient O pixels size u0 v0) (seq 0 size))
             (seq 0 size) 0%nat u).
  rewrite seq_nth by exact Hu. cbn [Nat.add].
  rewrite (nth_indep _ (nUndefined O) (dctCoefficient O pixels size u 0))
    by (rewrite length_map, length_seq; exact Hv).
  rewrite (map_nth (fun v0 => dctCoefficient O pixels size u v0) (seq 0 size) 0%nat v).
  now rewrite seq_nth.
Qed.

Lemma allNumbers_check (l : list number) :
  forallb (fun x => negb (PrimFloat.is_nan x)) l = true -> allNumbers l.
Proof.
  intros H. apply Forall_forall. intros x Hx. apply negb_true_iff.
  revert x Hx. now apply forallb_forall.
Qed.

Lemma flat_map_ext_in {A B : Type} (f g : A -> list B) (l : list A) :
  (forall a, In a l -> f a = g a) -> flat_map f l = flat_map g l.
Proof.
  induction l as [|a l IH]; intros H; cbn [flat_map]; [reflexivity|].
  rewrite (H a (or_introl eq_refl)), IH; [reflexivity|].
  intros b Hb. apply H. now right.
Qed.

(** The low-frequency block of a transform, by its coefficients. *)
Lemma lowFreqOf_computeDCT (Math_cos : number -> number)
    (pixels : list (list number)) :
  lowFreqOf (computeDCT (floatOps Math_cos) pixels 32)
  = flat_map
      (fun y =>
         flat_map
           (fun x =>
              if Nat.eqb y 0 && Nat.eqb x 0 then []
              else [dctCoefficient (floatOps Math_cos) pixels 32 y x])
           (seq 0 8))
      (seq 0 8).
Proof.
  unfold lowFreqOf.
  apply flat_map_ext_in. intros y Hy. apply in_seq in Hy.
  apply flat_map_ext_in. intros x Hx. apply in_seq in Hx.
  destruct (Nat.eqb y 0 && Nat.eqb x 0); [reflexivity|].
  f_equal. apply (computeDCT_nth (floatOps Math_cos)); lia.
Qed.

(** C3.  When the canvas delivers the pixels of the image, [computePHash]
    resolves with a hash built as follows.  From the transform of the 32x32
    grayscale image it takes the 63 low-frequency coefficients of the
    top-left 8x8 block in row order, without the DC term; takes the element
    of index 31 of their ascending rearrangement, their median; writes one
    bit per coefficient, ['1'] exactly when the coefficient exceeds the
    median; appends one ['0'] to reach 64 bits; and writes the 64 bits as 16
    hexadecimal digits, which read back as the same bits.  The
    rearrangement is a permutation of the coefficients, and it is ascending
    whenever the coefficients are numbers, as those of pixel data are. *)
Theorem computePHash_bits (browser : Browser) (imageBase64 : string)
    (data : list number) :
  loadImageData browser imageBase64 = Ok data ->
  let grayPixels := grayPixelsOf data 32 in
  let dctResult := computeDCT (floatOps (Math_cos browser)) grayPixels 32 in
  let lowFreq := lowFreqOf dctResult in
  let sorted := sortedAscending lowFreq in
  let median := medianOf lowFreq in
  let bits := hashBitsOf lowFreq in
  exists h,
    computePHash browser imageBase64 = Ok h /\
    List.length grayPixels = 32 /\
    Forall (fun row => List.length row = 32) grayPixels /\
    List.length lowFreq = 63 /\
    (forall y x, y < 8 -> x < 8 -> 0 < 8 * y + x ->
       nth (8 * y + x - 1) lowFreq PrimFloat.nan
       = dctCoefficient (floatOps (Math_cos browser)) grayPixels 32 y x) /\
    Permutation sorted lowFreq /\
    (allNumbers lowFreq ->
     StronglySorted (fun a b => PrimFloat.leb a b = true) sorted) /\
    median = nth 31 sorted PrimFloat.nan /\
    String.length bits = 63 /\
    (forall k, k < 63 ->
       String.get k bits
       = Some (if gt (nth k lowFreq PrimFloat.nan) median then "1" else "0")%char) /\
    h = binaryToHex (bits ++ "0") /\
    String.length h = 16 /\
    hexToBinary h = (bits ++ "0")%string.
Proof.
  intros Hload grayPixels dctResult lowFreq sorted median bits.
  exists (hexHashOf dctResult).
  split; [unfold computePHash; rewrite Hload; reflexivity|].
  assert (Hlen : List.length lowFreq = 63) by apply lowFreqOf_length.
  assert (Hbits : bits = string_of_list_ascii (map (bitOf median) lowFreq))
    by apply hashBitsOf_chars.
  assert (Hblen : String.length bits = 63).
  { rewrite Hbits, string_of_list_length, length_map. exact Hlen. }
  assert (Hpad : sliceTo 64 (padEnd 64 "0" bits) = (bits ++ "0")%string).
  { unfold padEnd, sliceTo. rewrite Hblen.
    cbn [Nat.sub strRepeat repeat string_of_list_ascii].
    replace 64 with (String.length (bits ++ "0")%string)
      by (rewrite str_length_app, Hblen; reflexivity).
    apply substring_all. }
  assert (Hhex : hexHashOf dctResult = binaryToHex (bits ++ "0")).
  { unfold hexHashOf. fold lowFreq. fold bits. now rewrite Hpad. }
  assert (Hbin : isBinaryString (bits ++ "0")%string = true).
  { rewrite Hbits.
    unfold isBinaryString.
    apply forallb_forall. intros c Hc.
    assert (E : list_ascii_of_string
                  (string_of_list_ascii (map (bitOf median) lowFreq) ++ "0")%string
                = map (bitOf median) lowFreq ++ ["0"%char]).
    { generalize (map (bitOf median) lowFreq). intros l.
      induction l as [|a l IH]; cbn; [reflexivity|now rewrite IH]. }
    rewrite E in Hc. apply in_app_or in Hc as [Hc|[<-|[]]]; [|reflexivity].
    apply in_map_iff in Hc as (v & <- & _). unfold bitOf.
    destruct (gt v median); reflexivity. }
  destruct (binaryToHex_roundtrip 16 (bits ++ "0")%string) as [R1 R2];
    [rewrite str_length_app, Hblen; reflexivity|exact Hbin|].
  split; [unfold grayPixels, grayPixelsOf; now rewrite length_map, length_seq|].
  split.
  { unfold grayPixels, grayPixelsOf. apply Forall_forall. intros row Hrow.
    apply in_map_iff in Hrow as (y & <- & _). now rewrite length_map, length_seq. }
  split; [exact Hlen|].
  split.
  { intros y x Hy Hx Hpos. unfold lowFreq.
    rewrite (lowFreqOf_scan_order dctResult y x Hy Hx Hpos).
    apply (computeDCT_nth (floatOps (Math_cos browser))); lia. }
  split; [apply jsSort_perm|].
  split; [apply jsSort_ascending|].
  split.
  { unfold median, medianOf. fold sorted.
    unfold sorted at 1, sortedAscending. rewrite jsSort_length. fold lowFreq.
    rewrite Hlen. reflexivity. }
  split; [exact Hblen|].
  split.
  { intros k Hk. rewrite Hbits, string_of_list_get.
    rewrite nth_error_map.
    rewrite (nth_error_nth' lowFreq PrimFloat.nan) by lia.
    reflexivity. }
  split; [exact Hhex|].
  rewrite Hhex. split; assumption.
Qed.

Lemma computePHash_bits_witness :
  let grayPixels := grayPixelsOf samplePixels 32 in
  let lowFreq := lowFreqOf (computeDCT (floatOps (Math_cos sampleBrowser)) grayPixels 32) in
  let bits := hashBitsOf lowFreq in
  exists h,
    computePHash sampleBrowser "data:image/jpeg;base64,AAAA" = Ok h /\
    h = "00000e3e3e7e7e7e"%string /\
    allNumbers lowFreq /\
    StronglySorted (fun a b => PrimFloat.leb a b = true) (sortedAscending lowFreq) /\
    medianOf lowFreq = nth 31 (sortedAscending lowFreq) PrimFloat.nan /\
    (forall k, k < 63 ->
       String.get k bits
       = Some (if gt (nth k lowFreq PrimFloat.nan) (medianOf lowFreq)
               then "1" else "0")%char) /\
    String.length h = 16 /\
    hexToBinary h = (bits ++ "0")%string.
Proof.
  intros grayPixels lowFreq bits.
  destruct (computePHash_bits sampleBrowser "data:image/jpeg;base64,AAAA"
              samplePixels eq_refl)
    as (h & Eh & _ & _ & _ & _ & _ & Hsorted & Hmed & _ & Hbit & Hhex & Hlen & Hback).
  assert (Hnum : allNumbers lowFreq).
  { unfold lowFreq. rewrite lowFreqOf_computeDCT.
    apply allNumbers_check. vm_compute. reflexivity. }
  exists h. split; [exact Eh|].
  split.
  { rewrite Hhex.
    change (binaryToHex (hashBitsOf lowFreq ++ "0") = "00000e3e3e7e7e7e"%string).
    unfold lowFreq. rewrite lowFreqOf_computeDCT. vm_compute. reflexivity. }
  split; [exact Hnum|].
  split; [exact (Hsorted Hnum)|]. split; [exact Hmed|].
  split; [exact Hbit|]. split; [exact Hlen|exact Hback].
Defined.

(** ** The transform over the reals *)

Section RealDCT.
Local Open Scope R_scope.

Lemma fold_left_Rplus {A : Type} (f : A -> R) (l : list A) (acc : R) :
  fold_left (fun s a => s + f a) l acc = acc + sumR (map f l).
Proof.
  revert acc. induction l as [|a l IH]; intros acc; cbn [fold_left map sumR fold_right].
  - lra.
  - rewrite IH. unfold sumR. lra.
Qed.

Lemma sumR_ext {A : Type} (f g : A -> R) (l : list A) :
  (forall a, In a l -> f a = g a) -> sumR (map f l) = sumR (map g l).
Proof.
  induction l as [|a l IH]; intros H; cbn [map sumR fold_right]; [reflexivity|].
  rewrite (H a) by now left. unfold sumR in IH. rewrite IH; [reflexivity|].
  intros; apply H; now right.
Qed.

Lemma sumR_scale {A : Type} (k : R) (f : A -> R) (l : list A) :
  sumR (map (fun a => k * f a) l) = k * sumR (map f l).
Proof.
  induction l as [|a l IH]; cbn [map sumR fold_right]; [lra|].
  unfold sumR in IH. rewrite IH. lra.
Qed.

Lemma sumR_const {A : Type} (c : R) (f : A -> R) (l : list A) :
  (forall a, In a l -> f a = c) -> sumR (map f l) = INR (List.length l) * c.
Proof.
  induction l as [|a l IH]; intros H.
  - cbn. lra.
  - cbn [map sumR fold_right]. rewrite (H a) by now left.
    unfold sumR in IH. rewrite IH by (intros; apply H; now right).
    cbn [List.length]. rewrite S_INR. lra.
Qed.

Lemma fold_left_nested {A B : Type} (t : A -> B -> R) (xs : list A) (ys : list B)
    (acc : R) :
  fold_left (fun s x => fold_left (fun s y => s + t x y) ys s) xs acc
  = acc + sumR (map (fun x => sumR (map (t x) ys)) xs).
Proof.
  revert acc. induction xs as [|x xs IH]; intros acc;
    cbn [fold_left map sumR fold_right].
  - lra.
  - rewrite IH, fold_left_Rplus. unfold sumR. lra.
Qed.

Lemma dctAngle_real (size k w : nat) :
  dctAngle realOps size k w = (2 * INR k + 1) * INR w * PI / (2 * INR size).
Proof.
  unfold dctAngle. cbn [realOps nAdd nMul nDiv nOfNat nPI].
  replace (INR 2) with 2 by (simpl; lra). replace (INR 1) with 1 by (simpl; lra).
  reflexivity.
Qed.

Lemma dctC_real (u : nat) :
  dctC realOps u = if Nat.eqb u 0 then 1 / sqrt 2 else 1.
Proof.
  unfold dctC. cbn [realOps nDiv nSqrt nOfNat].
  replace (INR 2) with 2 by (simpl; lra). replace (INR 1) with 1 by (simpl; lra).
  reflexivity.
Qed.

(** The double loop is the double sum. *)
Lemma dctSum_real (pixels : list (list R)) (size u v : nat) :
  dctSum realOps pixels size u v
  = sumR (map (fun x =>
                 sumR (map (fun y =>
                              pixelAt realOps pixels x y
                              * cos ((2 * INR x + 1) * INR u * PI / (2 * INR size))
                              * cos ((2 * INR y + 1) * INR v * PI / (2 * INR size)))
                           (seq 0 size)))
              (seq 0 size)).
Proof.
  unfold dctSum.
  change (nAdd realOps) with Rplus. change (nMul realOps) with Rmult.
  change (nCos realOps) with cos. change (nOfNat realOps 0%nat) with 0.
  rewrite (fold_left_nested
             (fun x y => pixelAt realOps pixels x y
                         * cos (dctAngle realOps size x u)
                         * cos (dctAngle realOps size y v))).
  rewrite Rplus_0_l.
  apply sumR_ext. intros x _. apply sumR_ext. intros y _.
  now rewrite !dctAngle_real.
Qed.

Lemma dctCoefficient_real (pixels : list (list R)) (size u v : nat) :
  dctCoefficient realOps pixels size u v
  = 1 / 4 * (if Nat.eqb u 0 then 1 / sqrt 2 else 1)
          * (if Nat.eqb v 0 then 1 / sqrt 2 else 1)
          * dctSum realOps pixels size u v.
Proof.
  unfold dctCoefficient. rewrite !dctC_real. reflexivity.
Qed.

(** The orthonormal transform carries the factor [2/N]. *)
Lemma dct2Orthonormal_sum (pixels : list (list R)) (N u v : nat) :
  (0 < N)%nat ->
  dct2Orthonormal pixels N u v
  = 2 / INR N * (if Nat.eqb u 0 then 1 / sqrt 2 else 1)
              * (if Nat.eqb v 0 then 1 / sqrt 2 else 1)
              * dctSum realOps pixels N u v.
Proof.
  intros HN. rewrite dctSum_real. unfold dct2Orthonormal, dctBasis.
  assert (Hpos : 0 < INR N) by (apply lt_0_INR; exact HN).
  assert (Hs : sqrt (2 / INR N) * sqrt (2 / INR N) = 2 / INR N).
  { apply sqrt_sqrt. apply Rlt_le. apply Rdiv_lt_0_compat; lra. }
  set (cu := if Nat.eqb u 0 then 1 / sqrt 2 else 1).
  set (cv := if Nat.eqb v 0 then 1 / sqrt 2 else 1).
  set (s := sqrt (2 / INR N)) in *.
  rewrite <- sumR_scale. apply sumR_ext. intros x _.
  rewrite <- sumR_scale. apply sumR_ext. intros y _.
  rewrite <- Hs. ring.
Qed.

Lemma computeDCT_nth_real (pixels : list (list R)) (size u v : nat) :
  (u < size)%nat -> (v < size)%nat ->
  nth v (nth u (computeDCT realOps pixels size) []) 0
  = dctCoefficient realOps pixels size u v.
Proof. exact (computeDCT_nth realOps pixels size u v). Qed.

Lemma onesMatrix_pixel (x y : nat) :
  (x < 32)%nat -> (y < 32)%nat -> pixelAt realOps onesMatrix x y = 1.
Proof.
  intros Hx Hy. unfold pixelAt, onesMatrix.
  rewrite (nth_indep _ [] (repeat 1 32)) by (rewrite repeat_length; exact Hx).
  rewrite nth_repeat.
  rewrite (nth_indep _ (nUndefined realOps) 1) by (rewrite repeat_length; exact Hy).
  apply nth_repeat.
Qed.

Lemma dctSum_ones : dctSum realOps onesMatrix 32 0 0 = 1024.
Proof.
  rewrite dctSum_real.
  rewrite (sumR_const 32).
  - rewrite length_seq. simpl INR. lra.
  - intros x Hx. apply in_seq in Hx.
    rewrite (sumR_const 1).
    + rewrite length_seq. simpl INR. lra.
    + intros y Hy. apply in_seq in Hy.
      rewrite onesMatrix_pixel by lia.
      change (INR 0) with 0.
      replace ((2 * INR x + 1) * 0 * PI / (2 * INR 32)) with 0
        by (unfold Rdiv; ring).
      replace ((2 * INR y + 1) * 0 * PI / (2 * INR 32)) with 0
        by (unfold Rdiv; ring).
      rewrite cos_0. ring.
Qed.

Lemma sqrt2_sq : 1 / sqrt 2 * (1 / sqrt 2) = 1 / 2.
Proof.
  assert (H : sqrt 2 * sqrt 2 = 2) by (apply sqrt_sqrt; lra).
  assert (Hne : sqrt 2 <> 0).
  { intros E. rewrite E in H. lra. }
  field_simplify_eq; [lra|exact Hne].
Qed.
End RealDCT.

(** C6, where the code departs from the claim.  Every coefficient
    [computeDCT] computes for a 32x32 matrix is four times the orthonormal
    DCT-II coefficient: the factor is the constant 0.25 (which is [2/N] for
    [N = 8]) where orthonormality needs [2/32].  On the matrix of ones the
    code's DC coefficient is 128 and the orthonormal one is 32. *)
Theorem computeDCT_scale :
  (forall (pixels : list (list R)) (u v : nat),
      u < 32 -> v < 32 ->
      nth v (nth u (computeDCT realOps pixels 32) []) 0%R
      = (4 * dct2Orthonormal pixels 32 u v)%R) /\
  nth 0 (nth 0 (computeDCT realOps onesMatrix 32) []) 0%R = 128%R /\
  dct2Orthonormal onesMatrix 32 0 0 = 32%R.
Proof.
  split; [|split].
  - intros pixels u v Hu Hv.
    rewrite (computeDCT_nth_real pixels 32 u v Hu Hv).
    rewrite dctCoefficient_real, dct2Orthonormal_sum by lia.
    replace (INR 32) with 32%R by (simpl; lra).
    field.
  - rewrite (computeDCT_nth_real onesMatrix 32 0 0) by lia.
    rewrite dctCoefficient_real, dctSum_ones. cbn [Nat.eqb].
    pose proof sqrt2_sq. lra.
  - rewrite dct2Orthonormal_sum by lia. rewrite dctSum_ones. cbn [Nat.eqb].
    replace (INR 32) with 32%R by (simpl; lra).
    pose proof sqrt2_sq. lra.
Qed.

(** ** Lazy initialisation *)

Definition joinsFirst (r : InitReturn) : Prop :=
  r = AlreadyReady \/ r = Awaits 0.

Definition storeInv (s : StoreInit) : Prop :=
  (initPromise s = None /\ opensStarted s = 0 /\ db s = false /\ openPending s = false)
  \/ (initPromise s = Some 0 /\ opensStarted s = 1).

Lemma storeStep_inv (s : StoreInit) (ev : StoreEvent) :
  storeInv s ->
  storeInv (fst (storeStep s ev)) /\ Forall joinsFirst (snd (storeStep s ev)).
Proof.
  unfold storeInv, joinsFirst.
  destruct s as [d p n pend]; cbn [db initPromise opensStarted openPending].
  intros [(-> & -> & -> & ->)|(-> & ->)]; destruct ev; cbn;
    try (destruct d); try (destruct pend); cbn; split; auto 10.
Qed.

Lemma storeRun_inv (evs : list StoreEvent) : forall s : StoreInit,
  storeInv s ->
  storeInv (fst (storeRun s evs)) /\ Forall joinsFirst (snd (storeRun s evs)).
Proof.
  induction evs as [|ev evs IH]; intros s Hs; cbn [storeRun].
  - split; [assumption|constructor].
  - destruct (storeStep_inv s ev Hs) as [H1 R1].
    destruct (storeStep s ev) as [s1 r1]. cbn [fst snd] in *.
    destruct (IH s1 H1) as [H2 R2].
    destruct (storeRun s1 evs) as [s2 r2]. cbn [fst snd] in *.
    split; [assumption|]. apply Forall_app. now split.
Qed.

Definition clipInv (s : ClipInit) : Prop :=
  (isLoading s = true ->
   embeddingPipeline s = false /\
   exists p, loadingPromise s = Some p /\ loadsRunning s = [p]) /\
  (isLoading s = false -> loadsRunning s = []).

Lemma removeLoad_single (p q : nat) :
  existsb (Nat.eqb p) [q] = true -> removeLoad p [q] = [].
Proof.
  cbn. rewrite orb_false_r. intros H. apply Nat.eqb_eq in H as ->.
  now rewrite Nat.eqb_refl.
Qed.

Lemma clipStep_inv (s : ClipInit) (ev : ClipEvent) :
  clipInv s -> clipInv (fst (clipStep s ev)).
Proof.
  unfold clipInv.
  destruct s as [pipe loading lp n running];
    cbn [embeddingPipeline isLoading loadingPromise loadsStarted loadsRunning].
  intros [Ht Hf]. destruct loading.
  - destruct (Ht eq_refl) as (-> & p & -> & ->).
    destruct ev as [|q|q]; cbn [clipStep embeddingPipeline isLoading loadingPromise
                                loadsStarted loadsRunning fst].
    + cbn. split; [intros _; split; eauto|discriminate].
    + destruct (existsb (Nat.eqb q) [p]) eqn:E; cbn [fst isLoading loadsRunning
                                                      embeddingPipeline loadingPromise].
      * split; [discriminate|]. intros _. now apply removeLoad_single.
      * split; [intros _; split; eauto|discriminate].
    + destruct (existsb (Nat.eqb q) [p]) eqn:E; cbn [fst isLoading loadsRunning
                                                      embeddingPipeline loadingPromise].
      * split; [discriminate|]. intros _. now apply removeLoad_single.
      * split; [intros _; split; eauto|discriminate].
  - rewrite (Hf eq_refl).
    destruct ev as [|q|q]; cbn [clipStep embeddingPipeline isLoading loadingPromise
                                loadsStarted loadsRunning fst existsb].
    + destruct pipe; cbn [fst isLoading loadsRunning embeddingPipeline loadingPromise].
      * split; [discriminate|reflexivity].
      * split; [intros _; split; eauto|discriminate].
    + cbn. split; [discriminate|reflexivity].
    + cbn. split; [discriminate|reflexivity].
Qed.

Lemma clipRun_inv (evs : list ClipEvent) : forall s : ClipInit,
  clipInv s -> clipInv (fst (clipRun s evs)).
Proof.
  induction evs as [|ev evs IH]; intros s Hs; cbn [clipRun]; [assumption|].
  pose proof (clipStep_inv s ev Hs) as H1.
  destruct (clipStep s ev) as [s1 r1]. cbn [fst] in H1.
  specialize (IH s1 H1). destruct (clipRun s1 evs) as [s2 r2]. exact IH.
Qed.

Definition noLoadFails (evs : list ClipEvent) : bool :=
  forallb (fun ev => match ev with LoadFails _ => false | _ => true end) evs.

(** Without a failed set-up, the first set-up is the only one. *)
Definition clipFirstInv (s : ClipInit) : Prop :=
  (loadsStarted s = 0 /\ isLoading s = false /\ embeddingPipeline s = false
   /\ loadsRunning s = [])
  \/ (loadsStarted s = 1 /\ loadingPromise s = Some 0 /\
      ((isLoading s = true /\ embeddingPipeline s = false /\ loadsRunning s = [0])
       \/ (embeddingPipeline s = true /\ loadsRunning s = []))).

Lemma clipStep_first (s : ClipInit) (ev : ClipEvent) :
  clipFirstInv s -> noLoadFails [ev] = true ->
  clipFirstInv (fst (clipStep s ev)) /\ Forall joinsFirst (snd (clipStep s ev)).
Proof.
  unfold clipFirstInv, joinsFirst.
  destruct s as [pipe loading lp n running];
    cbn [embeddingPipeline isLoading loadingPromise loadsStarted loadsRunning].
  intros [(-> & -> & -> & ->)|(-> & -> & [(-> & -> & ->)|(-> & ->)])];
    destruct ev as [|q|q]; try discriminate; intros _;
    try (destruct q as [|q]); try (destruct loading); cbn;
    (split; [auto 10|repeat (apply Forall_cons || apply Forall_nil); auto]).
Qed.

Lemma clipRun_first (evs : list ClipEvent) : forall s : ClipInit,
  clipFirstInv s -> noLoadFails evs = true ->
  clipFirstInv (fst (clipRun s evs)) /\ Forall joinsFirst (snd (clipRun s evs)).
Proof.
  induction evs as [|ev evs IH]; intros s Hs Hnf; cbn [clipRun].
  - split; [assumption|constructor].
  - cbn [noLoadFails forallb] in Hnf. apply andb_true_iff in Hnf as [Hev Hnf].
    destruct (clipStep_first s ev Hs) as [H1 R1].
    { cbn [noLoadFails forallb]. now rewrite Hev. }
    destruct (clipStep s ev) as [s1 r1]. cbn [fst snd] in *.
    destruct (IH s1 H1 Hnf) as [H2 R2].
    destruct (clipRun s1 evs) as [s2 r2]. cbn [fst snd] in *.
    split; [assumption|]. apply Forall_app. now split.
Qed.

(** Two callers share the one open request; a later caller finds the
    database ready. *)
Example storeRun_shared :
  snd (storeRun storeInitial [StoreCall; StoreCall; OpenSucceeds; StoreCall])
  = [Awaits 0; Awaits 0; AlreadyReady].
Proof. reflexivity. Qed.

(** The provider retries after a failed set-up: the caller that arrives
    after the failure starts set-up 1, and no set-up overlaps another. *)
Example clipRun_retry :
  snd (clipRun clipInitial [ClipCall; ClipCall; LoadFails 0; ClipCall; ClipCall])
  = [Awaits 0; Awaits 0; Awaits 1; Awaits 1].
Proof. reflexivity. Qed.

(** Every call of the initialiser returns once; a completion returns
    nothing. *)
Lemma storeRun_returns (evs : list StoreEvent) : forall s : StoreInit,
  List.length (snd (storeRun s evs)) = List.length (filter isStoreCall evs).
Proof.
  induction evs as [|ev evs IH]; intros s; cbn [storeRun]; [reflexivity|].
  specialize (IH (fst (storeStep s ev))).
  destruct (storeStep s ev) as [s1 r1] eqn:E1. cbn [fst] in IH.
  destruct (storeRun s1 evs) as [s2 r2]. cbn [snd] in *.
  rewrite length_app, IH.
  destruct ev; cbn [filter isStoreCall List.length]; unfold storeStep in E1.
  - destruct (db s); [|destruct (initPromise s)]; injection E1 as <- <-; reflexivity.
  - destruct (openPending s); injection E1 as <- <-; reflexivity.
  - destruct (openPending s); injection E1 as <- <-; reflexivity.
Qed.

(** Once the database is there it stays. *)
Lemma storeRun_db (evs : list StoreEvent) : forall s : StoreInit,
  db s = true -> db (fst (storeRun s evs)) = true.
Proof.
  induction evs as [|ev evs IH]; intros s Hdb; cbn [storeRun]; [exact Hdb|].
  assert (H1 : db (fst (storeStep s ev)) = true).
  { unfold storeStep. destruct ev.
    - now rewrite Hdb.
    - destruct (openPending s); [reflexivity|exact Hdb].
    - destruct (openPending s); exact Hdb. }
  specialize (IH _ H1).
  destruct (storeStep s ev) as [s1 r1]. cbn [fst] in IH.
  destruct (storeRun s1 evs) as [s2 r2]. exact IH.
Qed.

(** The first call opens the database; until the database is there, every
    caller is handed the promise of that request. *)
Lemma storeRun_first (evs : list StoreEvent) : forall s : StoreInit,
  storeInv s ->
  opensStarted (fst (storeRun s evs))
  = (if existsb isStoreCall evs then 1 else opensStarted s) /\
  (db (fst (storeRun s evs)) = false ->
   Forall (fun r => r = Awaits 0) (snd (storeRun s evs))).
Proof.
  induction evs as [|ev evs IH]; intros s Hs; cbn [storeRun existsb].
  - split; [reflexivity|]. intros _. constructor.
  - destruct (storeStep_inv s ev Hs) as [H1 _].
    pose proof (storeRun_db evs (fst (storeStep s ev))) as Hdb.
    destruct (IH _ H1) as [IHn IHr].
    assert (Hstep : (isStoreCall ev = true ->
                     opensStarted (fst (storeStep s ev)) = 1 /\
                     (db (fst (storeStep s ev)) = false ->
                      snd (storeStep s ev) = [Awaits 0])) /\
                    (isStoreCall ev = false ->
                     opensStarted (fst (storeStep s ev)) = opensStarted s /\
                     snd (storeStep s ev) = [])).
    { unfold storeInv in Hs. unfold storeStep.
      destruct s as [d p n pend]; cbn [db initPromise opensStarted openPending] in *.
      destruct ev; cbn [isStoreCall]; (split; [|]); intros Hev;
        try discriminate Hev.
      - destruct Hs as [(-> & -> & -> & ->)|(-> & ->)];
          [cbn; auto|destruct d; cbn; split; auto; discriminate].
      - destruct pend; cbn; auto.
      - destruct pend; cbn; auto. }
    destruct (storeStep s ev) as [s1 r1]. cbn [fst snd] in *.
    destruct (storeRun s1 evs) as [s2 r2]. cbn [fst snd] in *.
    destruct Hstep as [Hcall Hother].
    destruct (isStoreCall ev) eqn:Eev; cbn [orb].
    + destruct (Hcall eq_refl) as [Hn Hr]. split.
      * rewrite IHn, Hn. now destruct (existsb isStoreCall evs).
      * intros Hd. apply Forall_app. split; [|now apply IHr].
        rewrite Hr; [repeat constructor|].
        destruct (db s1) eqn:Ed; [|reflexivity].
        rewrite (Hdb eq_refl) in Hd. discriminate Hd.
    + destruct (Hother eq_refl) as [Hn ->]. split.
      * rewrite IHn, Hn. reflexivity.
      * intros Hd. cbn [app]. now apply IHr.
Qed.

Lemma clipRun_returns (evs : list ClipEvent) : forall s : ClipInit,
  List.length (snd (clipRun s evs)) = List.length (filter isClipCall evs).
Proof.
  induction evs as [|ev evs IH]; intros s; cbn [clipRun]; [reflexivity|].
  specialize (IH (fst (clipStep s ev))).
  destruct (clipStep s ev) as [s1 r1] eqn:E1. cbn [fst] in IH.
  destruct (clipRun s1 evs) as [s2 r2]. cbn [snd] in *.
  rewrite length_app, IH.
  destruct ev as [|p|p]; cbn [filter isClipCall List.length]; unfold clipStep in E1.
  - destruct (embeddingPipeline s); [|destruct (isLoading s), (loadingPromise s)];
      injection E1 as <- <-; reflexivity.
  - destruct (existsb (Nat.eqb p) (loadsRunning s)); injection E1 as <- <-; reflexivity.
  - destruct (existsb (Nat.eqb p) (loadsRunning s)); injection E1 as <- <-; reflexivity.
Qed.

(** The set-ups that have failed, at most. *)
Definition failedLoads (evs : list ClipEvent) : nat :=
  List.length (filter (fun ev => match ev with LoadFails _ => true | _ => false end) evs).

(** A set-up is started by the first caller, and again only by a caller
    that finds the last set-up failed. *)
Definition clipCountInv (s : ClipInit) (failed : nat) : Prop :=
  clipInv s /\
  (loadsStarted s = 0 -> embeddingPipeline s = false /\ isLoading s = false) /\
  loadsStarted s + (if isLoading s || embeddingPipeline s then 0 else 1) <= 1 + failed.

Lemma clipStep_count (s : ClipInit) (ev : ClipEvent) (failed : nat) :
  clipCountInv s failed ->
  clipCountInv (fst (clipStep s ev)) (failedLoads [ev] + failed) /\
  loadsStarted s <= loadsStarted (fst (clipStep s ev)) /\
  (isClipCall ev = true -> 1 <= loadsStarted (fst (clipStep s ev))).
Proof.
  intros (Hinv & Hzero & Hcount).
  split; [split; [now apply clipStep_inv|]|].
  - unfold clipInv in Hinv. unfold clipStep, failedLoads.
    destruct s as [pipe loading lp n running];
      cbn [embeddingPipeline isLoading loadingPromise loadsStarted loadsRunning] in *.
    destruct Hinv as [Ht Hf].
    destruct ev as [|q|q]; cbn [filter List.length].
    + destruct pipe; [cbn in *; split; [exact Hzero|lia]|].
      destruct loading.
      * destruct (Ht eq_refl) as (_ & p & -> & _). cbn in *. split; [exact Hzero|lia].
      * cbn in *. split; [lia|lia].
    + destruct (existsb (Nat.eqb q) running) eqn:E.
      * destruct loading; [|rewrite (Hf eq_refl) in E; discriminate E].
        cbn in *. split; [intros E0; destruct (Hzero E0) as [_ Hl]; discriminate Hl|lia].
      * cbn in *. split; [exact Hzero|lia].
    + destruct (existsb (Nat.eqb q) running) eqn:E.
      * destruct loading; [|rewrite (Hf eq_refl) in E; discriminate E].
        destruct (Ht eq_refl) as (-> & _).
        cbn in *. split; [intros E0; destruct (Hzero E0) as [_ Hl]; discriminate Hl|lia].
      * cbn in *. split; [exact Hzero|].
        destruct (loading || pipe); lia.
  - unfold clipStep.
    destruct ev as [|q|q].
    + destruct (embeddingPipeline s) eqn:Ep.
      * cbn. split; [lia|]. intros _.
        destruct (loadsStarted s) eqn:En; [|lia].
        destruct (Hzero eq_refl) as [Hp _]. discriminate Hp.
      * destruct (isLoading s) eqn:El, (loadingPromise s) eqn:Elp; cbn;
          (split; [lia|]); intros _; try lia.
    + destruct (existsb (Nat.eqb q) (loadsRunning s)); cbn;
        (split; [lia|discriminate]).
    + destruct (existsb (Nat.eqb q) (loadsRunning s)); cbn;
        (split; [lia|discriminate]).
Qed.

Lemma clipRun_count (evs : list ClipEvent) : forall (s : ClipInit) (failed : nat),
  clipCountInv s failed ->
  clipCountInv (fst (clipRun s evs)) (failedLoads evs + failed) /\
  loadsStarted s <= loadsStarted (fst (clipRun s evs)) /\
  (existsb isClipCall evs = true -> 1 <= loadsStarted (fst (clipRun s evs))).
Proof.
  induction evs as [|ev evs IH]; intros s failed Hs; cbn [clipRun existsb].
  - cbn [fst]. split; [exact Hs|]. split; [lia|discriminate].
  - destruct (clipStep_count s ev failed Hs) as (H1 & Hle1 & Hcall1).
    destruct (clipStep s ev) as [s1 r1]. cbn [fst] in *.
    destruct (IH s1 _ H1) as (H2 & Hle2 & Hcall2).
    destruct (clipRun s1 evs) as [s2 r2]. cbn [fst] in *.
    split; [|split]; cbn [fst].
    + replace (failedLoads (ev :: evs) + failed)
        with (failedLoads evs + (failedLoads [ev] + failed)); [exact H2|].
      unfold failedLoads. cbn [filter].
      destruct ev; cbn [List.length]; lia.
    + lia.
    + intros H. apply orb_true_iff in H as [H|H];
        [specialize (Hcall1 H); lia|now apply Hcall2].
Qed.

(** The pipeline, once there, stays. *)
Lemma clipRun_pipeline (evs : list ClipEvent) : forall s : ClipInit,
  embeddingPipeline s = true -> embeddingPipeline (fst (clipRun s evs)) = true.
Proof.
  induction evs as [|ev evs IH]; intros s Hp; cbn [clipRun]; [exact Hp|].
  assert (H1 : embeddingPipeline (fst (clipStep s ev)) = true).
  { unfold clipStep. destruct ev as [|q|q].
    - now rewrite Hp.
    - destruct (existsb (Nat.eqb q) (loadsRunning s)); [reflexivity|exact Hp].
    - destruct (existsb (Nat.eqb q) (loadsRunning s)); exact Hp. }
  specialize (IH _ H1).
  destruct (clipStep s ev) as [s1 r1]. cbn [fst] in IH.
  destruct (clipRun s1 evs) as [s2 r2]. exact IH.
Qed.

(** Without a failed set-up, every caller before the pipeline is there is
    handed the promise of the first set-up. *)
Lemma clipRun_waiting (evs : list ClipEvent) : forall s : ClipInit,
  clipFirstInv s -> noLoadFails evs = true ->
  embeddingPipeline (fst (clipRun s evs)) = false ->
  Forall (fun r => r = Awaits 0) (snd (clipRun s evs)).
Proof.
  induction evs as [|ev evs IH]; intros s Hs Hnf Hp; cbn [clipRun] in *;
    [constructor|].
  cbn [noLoadFails forallb] in Hnf. apply andb_true_iff in Hnf as [Hev Hnf].
  destruct (clipStep_first s ev Hs) as [H1 _].
  { cbn [noLoadFails forallb]. now rewrite Hev. }
  pose proof (clipRun_pipeline evs (fst (clipStep s ev))) as Hmono.
  specialize (IH _ H1 Hnf).
  assert (Hstep : embeddingPipeline (fst (clipStep s ev)) = false ->
                  Forall (fun r => r = Awaits 0) (snd (clipStep s ev))).
  { unfold clipFirstInv in Hs. unfold clipStep.
    destruct s as [pipe loading lp n running];
      cbn [embeddingPipeline isLoading loadingPromise loadsStarted loadsRunning] in *.
    destruct ev as [|q|q]; [|destruct (existsb (Nat.eqb q) running); constructor
                           |discriminate Hev].
    destruct Hs as [(-> & -> & -> & ->)|(-> & -> & [(-> & -> & ->)|(-> & ->)])];
      cbn; intros H; try discriminate H; repeat constructor. }
  destruct (clipStep s ev) as [s1 r1]. cbn [fst snd] in *.
  destruct (clipRun s1 evs) as [s2 r2]. cbn [fst snd] in *.
  assert (Hp1 : embeddingPipeline s1 = false).
  { destruct (embeddingPipeline s1) eqn:E; [|reflexivity].
    rewrite (Hmono eq_refl) in Hp. discriminate Hp. }
  apply Forall_app. split; [now apply Hstep|now apply IH].
Qed.

(** C8, as amended.  Under every interleaving of callers and completions.
    The vector store: every call of [init] returns once; the first call
    opens the database and no other call does; every caller finds the
    database ready or is handed the promise of that one request, and until
    the database is ready every caller is handed that promise.  The
    embedding provider: every call of [initCLIP] returns once; never two
    model set-ups are in flight; a caller that arrives while a set-up is in
    flight is handed that set-up's promise and starts none; the first caller
    starts a set-up, a caller that finds neither a set-up in flight nor the
    pipeline starts a new one, and there are at most as many further
    set-ups as set-ups have failed; as long as no set-up has failed there
    is a single set-up, and until the pipeline is ready every caller is
    handed its promise. *)
Theorem lazy_initialisation_shared :
  (forall evs : list StoreEvent,
      let s := fst (storeRun storeInitial evs) in
      let returns := snd (storeRun storeInitial evs) in
      List.length returns = List.length (filter isStoreCall evs) /\
      opensStarted s = (if existsb isStoreCall evs then 1 else 0) /\
      Forall joinsFirst returns /\
      (db s = false -> Forall (fun r => r = Awaits 0) returns)) /\
  (forall evs : list ClipEvent,
      let s := fst (clipRun clipInitial evs) in
      let returns := snd (clipRun clipInitial evs) in
      List.length returns = List.length (filter isClipCall evs) /\
      List.length (loadsRunning s) <= 1 /\
      (forall p, In p (loadsRunning s) -> clipStep s ClipCall = (s, [Awaits p])) /\
      (loadsRunning s = [] -> embeddingPipeline s = false ->
       clipStep s ClipCall
       = ({| embeddingPipeline := false; isLoading := true;
             loadingPromise := Some (loadsStarted s);
             loadsStarted := S (loadsStarted s);
             loadsRunning := [loadsStarted s] |}, [Awaits (loadsStarted s)])) /\
      (if existsb isClipCall evs then 1 <= loadsStarted s else loadsStarted s = 0) /\
      loadsStarted s <= 1 + failedLoads evs /\
      (noLoadFails evs = true ->
       loadsStarted s <= 1 /\
       Forall joinsFirst returns /\
       (embeddingPipeline s = false -> Forall (fun r => r = Awaits 0) returns))).
Proof.
  split.
  - intros evs s returns.
    assert (Hinit : storeInv storeInitial) by (left; repeat split).
    destruct (storeRun_inv evs storeInitial Hinit) as [_ Hret].
    destruct (storeRun_first evs storeInitial Hinit) as [Hn Hwait].
    split; [apply storeRun_returns|]. split; [exact Hn|].
    split; [exact Hret|exact Hwait].
  - intros evs s returns.
    assert (Hinv : clipInv s).
    { apply clipRun_inv. split; [discriminate|reflexivity]. }
    destruct Hinv as [Ht Hf].
    assert (Hinit : clipCountInv clipInitial 0).
    { split; [split; [discriminate|reflexivity]|]. split; [auto|cbn; lia]. }
    destruct (clipRun_count evs clipInitial 0 Hinit)
      as ((_ & Hzero & Hcount) & Hmono & Hcall).
    fold s in Hzero, Hcount, Hmono, Hcall.
    split; [apply clipRun_returns|].
    split; [|split; [|split; [|split; [|split]]]].
    + destruct (isLoading s) eqn:E.
      * destruct (Ht eq_refl) as (_ & p & _ & ->). cbn. lia.
      * rewrite (Hf eq_refl). cbn. lia.
    + intros p Hp. destruct (isLoading s) eqn:E.
      * destruct (Ht eq_refl) as (Hpipe & p' & Hlp & Hrun).
        rewrite Hrun in Hp. destruct Hp as [<-|[]].
        unfold clipStep. now rewrite Hpipe, E, Hlp.
      * rewrite (Hf eq_refl) in Hp. destruct Hp.
    + intros Hrun Hpipe. destruct (isLoading s) eqn:E.
      * destruct (Ht eq_refl) as (_ & p & _ & Hp). rewrite Hp in Hrun.
        discriminate Hrun.
      * unfold clipStep. rewrite Hpipe, E, Hrun. reflexivity.
    + destruct (existsb isClipCall evs) eqn:Ec; [now apply Hcall|].
      assert (Hnone : filter isClipCall evs = []).
      { clear - Ec. induction evs as [|ev evs IH]; [reflexivity|].
        cbn [existsb filter] in *. apply orb_false_iff in Ec as [-> Ec]. now apply IH. }
      clear - Hnone. subst s. revert Hnone.
      assert (G : forall s0, filter isClipCall evs = [] ->
                  loadsStarted (fst (clipRun s0 evs)) = loadsStarted s0);
        [|intros H; now rewrite (G clipInitial H)].
      induction evs as [|ev evs IH]; intros s0 H; cbn [clipRun]; [reflexivity|].
      cbn [filter] in H. destruct ev as [|q|q]; cbn [isClipCall] in H;
        [discriminate H| |];
        specialize (IH (fst (clipStep s0 (LoadSucceeds q))) H) +
        specialize (IH (fst (clipStep s0 (LoadFails q))) H);
        unfold clipStep in *;
        destruct (existsb (Nat.eqb q) (loadsRunning s0)); cbn [fst] in *;
        match goal with |- context [clipRun ?a evs] => destruct (clipRun a evs) end;
        exact IH.
    + rewrite Nat.add_0_r in Hcount.
      destruct (isLoading s || embeddingPipeline s); lia.
    + intros Hnf.
      assert (Hfirst0 : clipFirstInv clipInitial) by (left; repeat split).
      destruct (clipRun_first evs clipInitial Hfirst0 Hnf) as [Hfirst Hret].
      split; [|split; [exact Hret|]].
      * fold s in Hfirst. destruct Hfirst as [(-> & _)|(-> & _)]; lia.
      * now apply clipRun_waiting.
Qed.

Lemma lazy_initialisation_shared_witness :
  (opensStarted (fst (storeRun storeInitial [StoreCall; StoreCall; OpenFails; StoreCall]))
   = 1 /\
   snd (storeRun storeInitial [StoreCall; StoreCall; OpenFails; StoreCall])
   = [Awaits 0; Awaits 0; Awaits 0]) /\
  (loadsStarted (fst (clipRun clipInitial [ClipCall; ClipCall; LoadSucceeds 0; ClipCall]))
   <= 1 /\
   Forall joinsFirst
     (snd (clipRun clipInitial [ClipCall; ClipCall; LoadSucceeds 0; ClipCall])) /\
   Forall (fun r => r = Awaits 0)
     (snd (clipRun clipInitial [ClipCall; ClipCall; ClipCall]))).
Proof.
  destruct lazy_initialisation_shared as [Hstore Hclip].
  split.
  - destruct (Hstore [StoreCall; StoreCall; OpenFails; StoreCall])
      as (_ & Hn & _ & _).
    split; [exact Hn|reflexivity].
  - destruct (Hclip [ClipCall; ClipCall; LoadSucceeds 0; ClipCall])
      as (_ & _ & _ & _ & _ & _ & Hshared).
    destruct (Hshared eq_refl) as (Hn & Hret & _).
    destruct (Hclip [ClipCall; ClipCall; ClipCall])
      as (_ & _ & _ & _ & _ & _ & Hshared').
    destruct (Hshared' eq_refl) as (_ & _ & Hwait).
    split; [exact Hn|]. split; [exact Hret|]. exact (Hwait eq_refl).
Defined.

(** C8 as stated fails for the embedding provider: a caller that arrives
    after the first set-up has failed starts a second one, so two callers
    before any successful initialisation hold different promises and the
    model has been set up twice. *)
Lemma initCLIP_setup_repeated :
  embeddingPipeline (fst (clipRun clipInitial [ClipCall; LoadFails 0; ClipCall]))
  = false /\
  snd (clipRun clipInitial [ClipCall; LoadFails 0; ClipCall]) = [Awaits 0; Awaits 1] /\
  loadsStarted (fst (clipRun clipInitial [ClipCall; LoadFails 0; ClipCall])) = 2.
Proof. repeat split. Qed.

(** * Part IV. Further properties of the code *)

(** ** The perceptual hash service *)

Lemma get_beyond (s : string) : forall i, String.length s <= i -> String.get i s = None.
Proof.
  induction s as [|c s IH]; intros i Hi; [reflexivity|].
  destruct i as [|i]; cbn in *; [lia|]. apply IH. lia.
Qed.

Lemma charOr0_beyond (s : string) (i : nat) :
  String.length s <= i -> charOr0 s i = "0"%char.
Proof. intros H. unfold charOr0. now rewrite get_beyond. Qed.

(** Counting the differing positions over a longer range changes nothing. *)
Lemma differing_extend (s t : string) (n : nat) :
  Nat.max (String.length s) (String.length t) <= n ->
  List.length (filter (differsAt s t) (seq 0 n))
  = List.length (filter (differsAt s t)
                        (seq 0 (Nat.max (String.length s) (String.length t)))).
Proof.
  intros H. set (m := Nat.max (String.length s) (String.length t)) in *.
  replace n with (m + (n - m)) by lia.
  rewrite seq_app, filter_app, length_app.
  replace (List.length (filter (differsAt s t) (seq (0 + m) (n - m)))) with 0; [lia|].
  symmetry. apply filter_nil_iff. intros i Hi. apply in_seq in Hi.
  unfold differsAt. rewrite !charOr0_beyond by lia. reflexivity.
Qed.

Lemma filter_length_union {A : Type} (f g h : A -> bool) (l : list A) :
  (forall x, f x = true -> g x = true \/ h x = true) ->
  List.length (filter f l) <= List.length (filter g l) + List.length (filter h l).
Proof.
  intros H. induction l as [|a l IH]; cbn [filter List.length]; [lia|].
  destruct (f a) eqn:Ef.
  - destruct (H a Ef) as [-> | ->]; destruct (g a), (h a); cbn [List.length]; lia.
  - destruct (g a), (h a); cbn [List.length]; lia.
Qed.

(** X1.  The Hamming distance is symmetric and satisfies the triangle
    inequality on all strings, well-formed hashes or not. *)
Theorem hammingDistance_metric (h1 h2 h3 : string) :
  hammingDistance h1 h2 = hammingDistance h2 h1 /\
  hammingDistance h1 h3 <= hammingDistance h1 h2 + hammingDistance h2 h3.
Proof.
  split.
  - rewrite !hammingDistance_unfold. rewrite (Nat.max_comm (String.length (hexToBinary h2))).
    f_equal. apply filter_ext. intros i. unfold differsAt.
    now rewrite Ascii.eqb_sym.
  - rewrite !hammingDistance_unfold.
    set (b1 := hexToBinary h1). set (b2 := hexToBinary h2). set (b3 := hexToBinary h3).
    set (n := Nat.max (String.length b1) (Nat.max (String.length b2) (String.length b3))).
    rewrite <- (differing_extend b1 b3 n), <- (differing_extend b1 b2 n),
      <- (differing_extend b2 b3 n) by (unfold n; lia).
    apply filter_length_union. intros i. unfold differsAt.
    destruct (Ascii.eqb_spec (charOr0 b1 i) (charOr0 b2 i)) as [E|E]; [|now left].
    rewrite E. intros ->. now right.
Qed.

Lemma similarity_range_of_distance (d : nat) :
  d <= 64 ->
  PrimFloat.leb 0 (1 - numOfNat d / 64)%float = true /\
  PrimFloat.leb (1 - numOfNat d / 64)%float 1 = true.
Proof.
  intros H.
  do 65 (destruct d as [|d]; [split; vm_compute; reflexivity|]).
  lia.
Qed.

(** X2.  For hashes of at most sixteen characters (hexadecimal or not) the
    distance is at most 64 and the similarity lies between 0 and 1. *)
Theorem pHashSimilarity_range (h1 h2 : string) :
  String.length h1 <= 16 -> String.length h2 <= 16 ->
  hammingDistance h1 h2 <= 64 /\
  ge (pHashSimilarity h1 h2) 0%float = true /\
  ge 1%float (pHashSimilarity h1 h2) = true.
Proof.
  intros L1 L2.
  assert (Hd : hammingDistance h1 h2 <= 64).
  { etransitivity; [apply hammingDistance_bound|]. lia. }
  split; [exact Hd|]. unfold ge, pHashSimilarity.
  now apply similarity_range_of_distance.
Qed.

Lemma pHashSimilarity_range_witness :
  hammingDistance "ffffffffffffffff" "0000000000000000" <= 64 /\
  ge (pHashSimilarity "ffffffffffffffff" "0000000000000000") 0%float = true /\
  ge 1%float (pHashSimilarity "ffffffffffffffff" "0000000000000000") = true.
Proof.
  apply pHashSimilarity_range; vm_compute; lia.
Defined.

(** *** Encoding and decoding *)

Lemma binaryToHex_bitsOfChar_any (c : ascii) (rest : string) :
  isHexDigit c = true ->
  binaryToHex (bitsOfChar c ++ rest) = String (lowerHexChar c) (binaryToHex rest).
Proof.
  destruct c as [[] [] [] [] [] [] [] []]; intros H;
    try (exfalso; vm_compute in H; discriminate H); reflexivity.
Qed.

Lemma binaryToHex_chunk_lower (a b c d : ascii) :
  isBinaryDigit a = true -> isBinaryDigit b = true ->
  isBinaryDigit c = true -> isBinaryDigit d = true ->
  exists h,
    hexOfChunk (String a (String b (String c (String d EmptyString))))
    = String h EmptyString /\
    isLowerHex h = true /\
    bitsOfChar h = String a (String b (String c (String d EmptyString))).
Proof.
  intros Ha Hb Hc Hd.
  destruct (isBinaryDigit_cases a Ha) as [->| ->],
           (isBinaryDigit_cases b Hb) as [->| ->],
           (isBinaryDigit_cases c Hc) as [->| ->],
           (isBinaryDigit_cases d Hd) as [->| ->];
    eexists; repeat split; reflexivity.
Qed.

Lemma padToNibbles_cons4 (a b c d : ascii) (rest : string) :
  padToNibbles (String a (String b (String c (String d rest))))
  = String a (String b (String c (String d (padToNibbles rest)))).
Proof.
  unfold padToNibbles. cbn [String.length append].
  replace (S (S (S (S (String.length rest))))) with (String.length rest + 1 * 4) by lia.
  now rewrite Nat.Div0.mod_add.
Qed.

Lemma binaryToHex_decodes (n : nat) : forall bits : string,
  String.length bits <= n -> isBinaryString bits = true ->
  allLowerHex (binaryToHex bits) = true /\
  hexToBinary (binaryToHex bits) = padToNibbles bits.
Proof.
  induction n as [|n IH]; intros bits Hlen Hbin.
  - destruct bits; [split; reflexivity|cbn in Hlen; lia].
  - unfold isBinaryString in Hbin.
    destruct bits as [|a [|b [|c [|d rest]]]];
      cbn [list_ascii_of_string forallb] in Hbin;
      repeat match goal with
             | H : _ && _ = true |- _ => apply andb_true_iff in H as [? H]
             end.
    + split; reflexivity.
    + destruct (isBinaryDigit_cases a) as [->| ->]; [assumption| |];
        split; reflexivity.
    + destruct (isBinaryDigit_cases a) as [->| ->]; [assumption| |];
        (destruct (isBinaryDigit_cases b) as [->| ->]; [assumption| |]);
        split; reflexivity.
    + destruct (isBinaryDigit_cases a) as [->| ->]; [assumption| |];
        (destruct (isBinaryDigit_cases b) as [->| ->]; [assumption| |]);
        (destruct (isBinaryDigit_cases c) as [->| ->]; [assumption| |]);
        split; reflexivity.
    + destruct (binaryToHex_chunk_lower a b c d) as (h & Eh & Hl & Eb); try assumption.
      destruct (IH rest) as [IH1 IH2]; [cbn [String.length] in Hlen; lia|exact Hbin|].
      rewrite padToNibbles_cons4.
      change (binaryToHex (String a (String b (String c (String d rest)))))
        with (hexOfChunk (String a (String b (String c (String d EmptyString))))
              ++ binaryToHex rest)%string.
      rewrite Eh. cbn [append]. split.
      * unfold allLowerHex in *. cbn [list_ascii_of_string forallb].
        now rewrite Hl, IH1.
      * rewrite hexToBinary_cons, Eb, IH2. reflexivity.
Qed.

(** X3.  Encoding and decoding undo each other up to normalisation:
    decoding the bits of a string of hexadecimal digits gives the digits in
    lower case, and the bits of a decoded bit string are that string filled
    with ['0'] to a multiple of four. *)
Theorem hex_binary_round_trips :
  (forall hex : string,
      allHexDigits hex = true -> binaryToHex (hexToBinary hex) = lowerHex hex) /\
  (forall bits : string,
      isBinaryString bits = true ->
      hexToBinary (binaryToHex bits) = padToNibbles bits).
Proof.
  split.
  - intros hex. unfold allHexDigits, lowerHex.
    induction hex as [|c hex IH]; cbn [list_ascii_of_string forallb map string_of_list_ascii];
      [reflexivity|].
    intros H. apply andb_true_iff in H as [Hc Hh].
    rewrite hexToBinary_cons, binaryToHex_bitsOfChar_any by assumption.
    now rewrite IH.
  - intros bits Hbin.
    now apply (binaryToHex_decodes (String.length bits) bits (le_n _)).
Qed.

(** *** The format of a computed hash *)

Lemma list_of_string_app (s t : string) :
  list_ascii_of_string (s ++ t) = list_ascii_of_string s ++ list_ascii_of_string t.
Proof. induction s as [|c s IH]; cbn; [reflexivity|now rewrite IH]. Qed.

Lemma get_app_at_length (s : string) (c : ascii) (t : string) :
  String.get (String.length s) (s ++ String c t) = Some c.
Proof. induction s as [|a s IH]; cbn; [reflexivity|exact IH]. Qed.

Lemma hexHashOf_spec (dctResult : list (list number)) :
  let bits := hashBitsOf (lowFreqOf dctResult) in
  String.length bits = 63 /\
  isBinaryString (bits ++ "0") = true /\
  hexHashOf dctResult = binaryToHex (bits ++ "0").
Proof.
  intros bits.
  assert (Hbits : bits = string_of_list_ascii
                           (map (bitOf (medianOf (lowFreqOf dctResult)))
                                (lowFreqOf dctResult)))
    by apply hashBitsOf_chars.
  assert (Hblen : String.length bits = 63).
  { rewrite Hbits, string_of_list_length, length_map. apply lowFreqOf_length. }
  split; [exact Hblen|]. split.
  - unfold isBinaryString. rewrite list_of_string_app, forallb_app.
    fold (isBinaryString bits). rewrite Hbits, isBinaryString_of_bits. reflexivity.
  - unfold hexHashOf. fold bits. f_equal.
    unfold padEnd, sliceTo. rewrite Hblen.
    cbn [Nat.sub strRepeat repeat string_of_list_ascii].
    replace 64 with (String.length (bits ++ "0")%string)
      by (rewrite str_length_app, Hblen; reflexivity).
    apply substring_all.
Qed.

(** X4.  When the canvas delivers the pixels of the image, [computePHash]
    resolves, and the hash it resolves with has the format the similarity
    functions expect: sixteen lower-case hexadecimal digits, the last of
    whose 64 bits is 0. *)
Theorem computePHash_format (browser : Browser) (imageBase64 : string)
    (data : list number) :
  loadImageData browser imageBase64 = Ok data ->
  exists h,
    computePHash browser imageBase64 = Ok h /\
    wellFormedHash h /\
    String.get 63 (hexToBinary h) = Some "0"%char.
Proof.
  intros Hload. unfold computePHash. rewrite Hload. cbn [bind].
  set (dct := computeDCT _ _ _).
  exists (hexHashOf dct). split; [reflexivity|].
  destruct (hexHashOf_spec dct) as (Hlen & Hbin & ->).
  set (bits := hashBitsOf (lowFreqOf dct)) in *.
  assert (L64 : String.length (bits ++ "0")%string = 4 * 16)
    by (rewrite str_length_app, Hlen; reflexivity).
  destruct (binaryToHex_roundtrip 16 _ L64 Hbin) as [R1 R2].
  destruct (binaryToHex_decodes 64 (bits ++ "0")%string) as [D1 _];
    [rewrite L64; cbn; lia|exact Hbin|].
  split; [split; assumption|].
  rewrite R2, <- Hlen. apply get_app_at_length.
Qed.

Lemma computePHash_format_witness :
  exists h,
    computePHash sampleBrowser "data:image/jpeg;base64,AAAA" = Ok h /\
    wellFormedHash h /\
    String.get 63 (hexToBinary h) = Some "0"%char.
Proof.
  exact (computePHash_format sampleBrowser "data:image/jpeg;base64,AAAA"
           samplePixels eq_refl).
Defined.

(** *** How many bits a hash can have *)

Lemma Permutation_filter_length {A : Type} (f : A -> bool) (l l' : list A) :
  Permutation l l' -> List.length (filter f l) = List.length (filter f l').
Proof.
  induction 1 as [|x l l' _ IH|x y l|l l' l'' _ IH1 _ IH2]; cbn [filter].
  - reflexivity.
  - destruct (f x); cbn [List.length]; now rewrite IH.
  - destruct (f x), (f y); reflexivity.
  - now rewrite IH1.
Qed.

Lemma StronglySorted_nth {A : Type} (R : A -> A -> Prop) (d : A) (l : list A) :
  StronglySorted R l ->
  forall i j, i < j -> j < List.length l -> R (nth i l d) (nth j l d).
Proof.
  induction 1 as [|a l Hs IH Hall]; intros i j Hij Hj; [cbn in Hj; lia|].
  destruct j as [|j]; [lia|]. cbn [List.length] in Hj.
  destruct i as [|i]; cbn [nth].
  - rewrite Forall_forall in Hall. apply Hall, nth_In. lia.
  - apply IH; lia.
Qed.

(** At most the elements after the middle of the sorted list exceed the
    median. *)
Lemma above_median_count (l : list number) :
  allNumbers l -> l <> [] ->
  List.length (filter (fun v => gt v (medianOf l)) l)
  <= List.length l - List.length l / 2 - 1.
Proof.
  intros Hnum Hne.
  pose proof (jsSort_ascending l Hnum) as Hsorted.
  pose proof (jsSort_perm (fun a b => (a - b)%float) l) as Hperm.
  fold (sortedAscending l) in Hsorted, Hperm.
  assert (Hlen : List.length (sortedAscending l) = List.length l)
    by apply jsSort_length.
  assert (Hpos : 0 < List.length l) by (destruct l; [contradiction|cbn; lia]).
  set (k := List.length l / 2).
  assert (Hk : k < List.length l) by (apply Nat.div_lt; lia).
  rewrite <- (Permutation_filter_length _ _ _ Hperm).
  unfold medianOf. fold (sortedAscending l). rewrite Hlen. fold k.
  set (sorted := sortedAscending l) in *. set (m := nth k sorted PrimFloat.nan).
  rewrite <- (firstn_skipn (S k) sorted).
  rewrite filter_app, length_app.
  replace (List.length (filter (fun v => gt v m) (firstn (S k) sorted))) with 0.
  - etransitivity; [apply filter_length_le|]. rewrite length_skipn. lia.
  - symmetry. apply filter_nil_iff. intros x Hx.
    apply (In_nth _ _ PrimFloat.nan) in Hx as (i & Hi & <-).
    rewrite length_firstn in Hi.
    rewrite nth_firstn. replace (i <? S k) with true by (symmetry; apply Nat.ltb_lt; lia).
    unfold gt. destruct (Nat.eq_dec i k) as [->|Hik].
    + apply ltb_irrefl.
    + apply leb_not_ltb.
      apply (StronglySorted_nth _ PrimFloat.nan sorted Hsorted i k);
        [lia|unfold number in *; lia].
Qed.

Lemma onesOf_bits (median : number) (l : list number) :
  onesOf (string_of_list_ascii (map (bitOf median) l))
  = List.length (filter (fun v => gt v median) l).
Proof.
  unfold onesOf. rewrite list_ascii_of_string_of_list_ascii.
  induction l as [|v l IH]; cbn [map filter]; [reflexivity|].
  unfold bitOf at 1. destruct (gt v median); cbn [Ascii.eqb Bool.eqb List.length];
    now rewrite IH.
Qed.

Lemma onesOf_app (s t : string) : onesOf (s ++ t) = onesOf s + onesOf t.
Proof.
  unfold onesOf. now rewrite list_of_string_app, filter_app, length_app.
Qed.

(** The positions holding ['1'] are as many as the ['1'] characters. *)
Lemma ones_positions (s : string) : forall n,
  String.length s <= n ->
  List.length (filter (fun i => Ascii.eqb "1" (charOr0 s i)) (seq 0 n)) = onesOf s.
Proof.
  induction s as [|c s IH]; intros n Hn.
  - apply filter_nil_iff. intros i _. reflexivity.
  - destruct n as [|n]; [cbn in Hn; lia|].
    cbn [String.length] in Hn.
    change (seq 0 (S n)) with (0 :: seq 1 n). rewrite <- seq_shift.
    cbn [filter]. unfold onesOf. cbn [list_ascii_of_string filter].
    change (charOr0 (String c s) 0) with c.
    assert (E : List.length (filter (fun i => Ascii.eqb "1" (charOr0 (String c s) i))
                                    (map S (seq 0 n)))
                = onesOf s).
    { rewrite <- (IH n) by lia.
      generalize (seq 0 n). intros l. induction l as [|i l IHl]; [reflexivity|].
      cbn [map filter]. change (charOr0 (String c s) (S i)) with (charOr0 s i).
      destruct (Ascii.eqb "1" (charOr0 s i)); cbn [List.length]; now rewrite IHl. }
    destruct (Ascii.eqb "1" c); cbn [List.length]; rewrite E; reflexivity.
Qed.

Lemma binary_char (s : string) (i : nat) :
  isBinaryString s = true ->
  charOr0 s i = "0"%char \/ charOr0 s i = "1"%char.
Proof.
  unfold isBinaryString, charOr0. revert i.
  induction s as [|c s IH]; intros i H; [now left|].
  cbn [list_ascii_of_string forallb] in H. apply andb_true_iff in H as [Hc Hs].
  destruct i as [|i]; cbn [String.get].
  - now apply isBinaryDigit_cases.
  - now apply IH.
Qed.

Lemma distance_le_ones (h1 h2 : string) :
  isBinaryString (hexToBinary h1) = true ->
  isBinaryString (hexToBinary h2) = true ->
  hammingDistance h1 h2 <= onesOf (hexToBinary h1) + onesOf (hexToBinary h2).
Proof.
  intros B1 B2. rewrite hammingDistance_unfold.
  set (b1 := hexToBinary h1) in *. set (b2 := hexToBinary h2) in *.
  set (n := Nat.max (String.length b1) (String.length b2)).
  rewrite <- (ones_positions b1 n), <- (ones_positions b2 n) by (unfold n; lia).
  apply filter_length_union. intros i. unfold differsAt.
  destruct (binary_char b1 i B1) as [-> | ->], (binary_char b2 i B2) as [-> | ->];
    cbn; auto; discriminate.
Qed.

Lemma similarity_floor (d : nat) :
  d <= 62 -> ge (1 - numOfNat d / 64)%float 0.03125%float = true.
Proof.
  intros H.
  do 63 (destruct d as [|d]; [vm_compute; reflexivity|]).
  lia.
Qed.

(** X5.  When the 63 coefficients are numbers, at most 31 of the 64 bits of
    the hash are 1 (a coefficient has to exceed the median); so two such
    hashes differ in at most 62 bits and their similarity is at least
    1/32, never 0. *)
Theorem hash_bit_budget (dct1 dct2 : list (list number)) :
  allNumbers (lowFreqOf dct1) -> allNumbers (lowFreqOf dct2) ->
  onesOf (hexToBinary (hexHashOf dct1)) <= 31 /\
  hammingDistance (hexHashOf dct1) (hexHashOf dct2) <= 62 /\
  ge (pHashSimilarity (hexHashOf dct1) (hexHashOf dct2)) 0.03125%float = true.
Proof.
  assert (Hones : forall dct, allNumbers (lowFreqOf dct) ->
            isBinaryString (hexToBinary (hexHashOf dct)) = true /\
            onesOf (hexToBinary (hexHashOf dct)) <= 31).
  { intros dct Hnum.
    destruct (hexHashOf_spec dct) as (Hlen & Hbin & ->).
    assert (L64 : String.length (hashBitsOf (lowFreqOf dct) ++ "0")%string = 4 * 16)
      by (rewrite str_length_app, Hlen; reflexivity).
    rewrite (proj2 (binaryToHex_roundtrip 16 _ L64 Hbin)).
    split; [exact Hbin|].
    rewrite onesOf_app, hashBitsOf_chars, onesOf_bits.
    change (onesOf "0") with 0.
    pose proof (above_median_count (lowFreqOf dct) Hnum) as H.
    rewrite lowFreqOf_length in H. change (63 - 63 / 2 - 1) with 31 in H.
    assert (lowFreqOf dct <> []) by (intros E; pose proof (lowFreqOf_length dct) as L;
                                     rewrite E in L; discriminate).
    specialize (H ltac:(assumption)). lia. }
  intros N1 N2.
  destruct (Hones dct1 N1) as [B1 O1], (Hones dct2 N2) as [B2 O2].
  assert (Hd : hammingDistance (hexHashOf dct1) (hexHashOf dct2) <= 62).
  { etransitivity; [apply distance_le_ones; assumption|]. lia. }
  split; [exact O1|]. split; [exact Hd|].
  unfold pHashSimilarity. now apply similarity_floor.
Qed.

Lemma hash_bit_budget_witness :
  let dct1 := map (fun y => map (fun x => numOfNat (x * y + x)) (seq 0 32)) (seq 0 32) in
  let dct2 := repeat (repeat 0%float 8) 8 in
  onesOf (hexToBinary (hexHashOf dct1)) <= 31 /\
  hammingDistance (hexHashOf dct1) (hexHashOf dct2) <= 62 /\
  ge (pHashSimilarity (hexHashOf dct1) (hexHashOf dct2)) 0.03125%float = true.
Proof.
  apply hash_bit_budget; apply allNumbers_check; vm_compute; reflexivity.
Defined.

(** ** More on [cosineSimilarity] *)

Lemma SFmul_comm (x y : spec_float) :
  SFmul FloatOps.prec FloatOps.emax x y = SFmul FloatOps.prec FloatOps.emax y x.
Proof.
  destruct x as [sx|sx| |sx mx ex], y as [sy|sy| |sy my ey]; cbn [SFmul];
    rewrite ?(xorb_comm sx sy); try reflexivity.
  now rewrite (Pos.mul_comm mx my), (Z.add_comm ex ey).
Qed.

Lemma float_mul_comm (x y : float) : (x * y = y * x)%float.
Proof. apply Prim2SF_inj. rewrite !mul_spec. apply SFmul_comm. Qed.

Lemma cosineLoop_swap (a : list number) : forall (b : list number) dot normA normB,
  cosineLoop b a (dot, normB, normA)
  = let '(d, nA, nB) := cosineLoop a b (dot, normA, normB) in (d, nB, nA).
Proof.
  induction a as [|x a IH]; intros [|y b] dot normA normB; cbn [cosineLoop];
    try reflexivity.
  rewrite (float_mul_comm y x). apply IH.
Qed.

(** X6.  [cosineSimilarity] is symmetric, down to the last bit and to the
    exception: the products of the loop and of the two norms commute in
    binary64. *)
Theorem cosineSimilarity_symmetric (a b : list number) :
  cosineSimilarity a b = cosineSimilarity b a.
Proof.
  unfold cosineSimilarity.
  rewrite (Nat.eqb_sym (List.length b) (List.length a)).
  destruct (negb _); [reflexivity|].
  rewrite (cosineLoop_swap a b). unfold number in *.
  destruct (cosineLoop a b (0, 0, 0)%float) as [[dot normA] normB].
  cbv beta iota zeta.
  now rewrite (float_mul_comm (PrimFloat.sqrt normB) (PrimFloat.sqrt normA)).
Qed.

(** ** More on the top-N query *)

Lemma In_firstn {A : Type} (n : nat) (l : list A) (x : A) :
  In x (firstn n l) -> In x l.
Proof.
  intros H. rewrite <- (firstn_skipn n l). apply in_or_app. now left.
Qed.

Lemma scoredRecord_score (q : list number) (r : ImageRecord) :
  List.length (embedding r) = List.length q ->
  cosineSimilarity q (embedding r) = Ok (clipScore (scoredRecord q r)).
Proof.
  intros H. destruct (cosineSimilarity_same_length q (embedding r)) as [s Hs];
    [now symmetry|].
  unfold scoredRecord. cbn [clipScore]. now rewrite Hs.
Qed.

(** X7.  For a query of the stored dimension, [searchByEmbedding] returns
    exactly [min topN corpusSize] results; each is a stored record with its
    own cosine score; with [topN] at least the corpus size the results are
    the whole corpus, reordered; and a smaller [topN] returns a prefix of
    what a larger one returns. *)
Theorem searchByEmbedding_results
    (store : VectorStore) (queryEmbedding : list number) (topN : nat) :
  Forall (fun r => List.length (embedding r) = List.length queryEmbedding) store ->
  exists results,
    searchByEmbedding store queryEmbedding topN = Ok results /\
    List.length results = Nat.min topN (List.length store) /\
    (forall r, In r results ->
       In (record r) store /\
       cosineSimilarity queryEmbedding (embedding (record r)) = Ok (clipScore r)) /\
    (List.length store <= topN -> Permutation (map record results) store) /\
    (forall m, m <= topN ->
       searchByEmbedding store queryEmbedding m = Ok (firstn m results)).
Proof.
  intros Hdim.
  set (sorted := jsSort (fun a b => (clipScore b - clipScore a)%float)
                        (map (scoredRecord queryEmbedding) store)).
  assert (Hlen : List.length sorted = List.length store)
    by (unfold sorted; now rewrite jsSort_length, length_map).
  exists (firstn topN sorted).
  split; [now apply searchByEmbedding_scored|]. split; [|split; [|split]].
  - rewrite length_firstn, Hlen. reflexivity.
  - intros r Hr. apply In_firstn in Hr.
    apply (proj1 (jsSort_In _ r _)) in Hr.
    apply in_map_iff in Hr as (r0 & <- & Hr0). split; [exact Hr0|].
    apply scoredRecord_score. rewrite Forall_forall in Hdim. now apply Hdim.
  - intros Hall. rewrite firstn_all2 by lia.
    unfold sorted.
    rewrite (Permutation_map record (jsSort_perm _ _)), map_map.
    cbn [scoredRecord record]. now rewrite map_id.
  - intros m Hm. rewrite (searchByEmbedding_scored store queryEmbedding m Hdim).
    fold sorted. f_equal. rewrite firstn_firstn. f_equal. lia.
Qed.

Lemma searchByEmbedding_results_witness :
  exists results,
    searchByEmbedding [unitRecord; hugeRecord] [1%float] 1 = Ok results /\
    List.length results = Nat.min 1 2 /\
    (forall r, In r results ->
       In (record r) [unitRecord; hugeRecord] /\
       cosineSimilarity [1%float] (embedding (record r)) = Ok (clipScore r)) /\
    (2 <= 1 -> Permutation (map record results) [unitRecord; hugeRecord]) /\
    (forall m, m <= 1 ->
       searchByEmbedding [unitRecord; hugeRecord] [1%float] m = Ok (firstn m results)).
Proof.
  apply (searchByEmbedding_results [unitRecord; hugeRecord] [1%float] 1).
  repeat constructor.
Defined.

(** ** The metadata bonus *)

Lemma prefix_app (t s : string) :
  String.prefix t s = true <-> exists post, s = (t ++ post)%string.
Proof.
  revert s. induction t as [|c t IH]; intros s.
  - destruct s; simpl; (split; [intros _; eexists; reflexivity|reflexivity]).
  - destruct s as [|d s]; simpl.
    + split; [discriminate|intros [post H]; discriminate].
    + destruct (Ascii.ascii_dec c d) as [->|Hne].
      * rewrite IH.
        split; intros [post H]; exists post; [now rewrite H|now injection H].
      * split; [discriminate|]. intros [post H]. injection H as H _. congruence.
Qed.

(** [includes] finds exactly the contiguous substrings. *)
Lemma includes_spec (s t : string) :
  includes s t = true <-> exists pre post, s = (pre ++ t ++ post)%string.
Proof.
  induction s as [|c s IH]; cbn [includes].
  - rewrite orb_false_r, prefix_app. split.
    + intros [post H]. now exists EmptyString, post.
    + intros (pre & post & H). destruct pre; [now exists post|discriminate].
  - rewrite orb_true_iff, prefix_app, IH. split.
    + intros [[post H]|(pre & post & H)].
      * now exists EmptyString, post.
      * exists (String c pre), post. cbn [append]. now rewrite H.
    + intros (pre & post & H). destruct pre as [|d pre]; cbn [append] in H.
      * left. now exists post.
      * right. injection H as _ H. now exists pre, post.
Qed.

(** X8.  The metadata bonus is 0, 0.1 or 0.2 and does not depend on which
    name is the query's: it is 0.2 exactly when both event names are present,
    not empty and equal, and 0.1 exactly when both are present, not empty,
    different, and one occurs inside the other. *)
Theorem metadataBonusOf_cases (eventName0 candidateEvent : option string) :
  metadataBonusOf eventName0 candidateEvent
  = metadataBonusOf candidateEvent eventName0 /\
  (metadataBonusOf eventName0 candidateEvent = 0.2%float <->
     exists ev, ev <> EmptyString /\ eventName0 = Some ev /\ candidateEvent = Some ev) /\
  (metadataBonusOf eventName0 candidateEvent = 0.1%float <->
     exists ev cev pre post,
       ev <> EmptyString /\ cev <> EmptyString /\ ev <> cev /\
       eventName0 = Some ev /\ candidateEvent = Some cev /\
       (cev = pre ++ ev ++ post \/ ev = pre ++ cev ++ post)%string) /\
  (metadataBonusOf eventName0 candidateEvent = 0%float \/
   metadataBonusOf eventName0 candidateEvent = 0.1%float \/
   metadataBonusOf eventName0 candidateEvent = 0.2%float).
Proof.
  assert (D21 : 0.2%float <> 0.1%float) by (intros H; vm_compute in H; discriminate).
  assert (D20 : 0.2%float <> 0%float) by (intros H; vm_compute in H; discriminate).
  assert (D10 : 0.1%float <> 0%float) by (intros H; vm_compute in H; discriminate).
  unfold metadataBonusOf.
  destruct eventName0 as [[|c ev]|], candidateEvent as [[|d cev]|]; cbn [truthy];
    try (split; [reflexivity|]; split; [|split]; [| |now left];
         (split; [intros H; exfalso; congruence|]);
         [intros (ev0 & Hne & H1 & H2)
         |intros (ev0 & cev0 & pre & post & Hn1 & Hn2 & _ & H1 & H2 & _)];
         congruence).
  set (e := String c ev). set (ce := String d cev).
  rewrite (String.eqb_sym e ce), (orb_comm (includes e ce) (includes ce e)).
  split; [reflexivity|].
  destruct (String.eqb_spec ce e) as [E|Hne].
  - split; [|split]; [| |now right; right].
    + split; [intros _|reflexivity]. exists e. rewrite E. repeat split; discriminate.
    + split; [intros H; exfalso; congruence|].
      intros (ev0 & cev0 & pre & post & _ & _ & Hd & H1 & H2 & _). congruence.
  - destruct (includes ce e || includes e ce) eqn:Ei.
    + split; [|split]; [| |now right; left].
      * split; [intros H; exfalso; congruence|].
        intros (ev0 & _ & H1 & H2). congruence.
      * split; [intros _|reflexivity].
        apply orb_true_iff in Ei.
        destruct Ei as [Ei|Ei]; apply includes_spec in Ei as (pre & post & Ei);
          exists e, ce, pre, post; repeat split; try discriminate; auto; congruence.
    + split; [|split]; [| |now left].
      * split; [intros H; exfalso; congruence|].
        intros (ev0 & _ & H1 & H2). congruence.
      * split; [intros H; exfalso; congruence|].
        intros (ev0 & cev0 & pre & post & _ & _ & _ & H1 & H2 & Hs).
        injection H1 as <-. injection H2 as <-.
        apply orb_false_iff in Ei as [E1 E2].
        destruct Hs as [Hs|Hs].
        -- assert (includes ce e = true) by (apply includes_spec; eauto). congruence.
        -- assert (includes e ce = true) by (apply includes_spec; eauto). congruence.
Qed.

(** ** Counts as numbers *)

Section CountNumbers.
Local Open Scope Z_scope.

Lemma digits2_iter_xO (d m : positive) :
  Zpos (digits2_pos (Pos.iter xO m d)) = Zpos (digits2_pos m) + Zpos d.
Proof.
  induction d as [|d IH] using Pos.peano_ind.
  - cbn [Pos.iter digits2_pos]. lia.
  - rewrite Pos.iter_succ. cbn [digits2_pos]. rewrite Pos2Z.inj_succ, IH. lia.
Qed.

Lemma binary_round_aux_exact (sx : bool) (mz : positive) (ez : Z) :
  Zpos (digits2_pos mz) = 53 -> -1074 <= ez <= 971 ->
  binary_round_aux FloatOps.prec FloatOps.emax sx (Zpos mz) ez loc_Exact
  = S754_finite sx mz ez.
Proof.
  intros Hd He.
  assert (Hs : forall m : positive, Zpos (digits2_pos m) = 53 ->
             shr_fexp FloatOps.prec FloatOps.emax (Zpos m) ez loc_Exact
             = ({| shr_m := Zpos m; shr_r := false; shr_s := false |}, ez)).
  { intros m Hm. unfold shr_fexp, fexp, SpecFloat.emin, FloatOps.prec, FloatOps.emax.
    cbn [Zdigits2 shr_record_of_loc]. rewrite Hm.
    replace (Z.max (53 + ez - 53) (3 - 1024 - 53) - ez) with 0 by lia.
    reflexivity. }
  unfold binary_round_aux. rewrite (Hs mz Hd).
  cbn [shr_m loc_of_shr_record round_nearest_even]. rewrite (Hs mz Hd).
  cbn [shr_m].
  replace (ez <=? FloatOps.emax - FloatOps.prec) with true; [reflexivity|].
  symmetry. apply Z.leb_le. unfold FloatOps.prec, FloatOps.emax. lia.
Qed.

(** A positive integer below 2^53 is a binary64 number. *)
Lemma binary_round_integer (mx : positive) :
  Zpos mx < 2 ^ 53 ->
  exists mz ez,
    binary_round FloatOps.prec FloatOps.emax false mx 0 = S754_finite false mz ez /\
    Zpos mz * 2 ^ (ez + 1074) = Zpos mx * 2 ^ 1074.
Proof.
  intros Hlt.
  pose proof (digits2_pos_bounds mx) as [Hlo Hhi].
  set (d := Zpos (digits2_pos mx)) in *.
  assert (Hd : 1 <= d <= 53).
  { split; [unfold d; lia|].
    destruct (Z.le_gt_cases d 53) as [H|H]; [exact H|exfalso].
    assert (2 ^ 53 <= 2 ^ (d - 1)) by (apply Z.pow_le_mono_r; lia). lia. }
  unfold binary_round. fold d.
  assert (Hf : fexp FloatOps.prec FloatOps.emax (d + 0) = d - 53)
    by (unfold fexp, SpecFloat.emin, FloatOps.prec, FloatOps.emax; lia).
  rewrite Hf. unfold shl_align.
  destruct (d - 53 - 0) as [|n|n] eqn:En; try lia.
  - rewrite binary_round_aux_exact by (fold d; lia).
    exists mx, 0. split; [reflexivity|]. reflexivity.
  - rewrite binary_round_aux_exact by (rewrite ?digits2_iter_xO; fold d; lia).
    eexists _, _. split; [reflexivity|].
    rewrite iter_xO, <- Z.mul_assoc, <- Z.pow_add_r by lia.
    f_equal. f_equal. lia.
Qed.

Lemma numOfNat_SF (n : nat) :
  (Z.of_nat n < 2 ^ 53)%Z ->
  PrimFloat.is_nan (numOfNat n) = false /\
  frank (numOfNat n) = (Z.of_nat n * 2 ^ 1074)%Z.
Proof.
  intros Hn. rewrite is_nan_SF. unfold frank, numOfNat.
  rewrite of_uint63_spec, Uint63.of_Z_spec.
  rewrite Z.mod_small
    by (split; [lia|]; eapply Z.lt_trans; [exact Hn|reflexivity]).
  unfold binary_normalize.
  destruct (Z.of_nat n) as [|p|p] eqn:Ep; try lia.
  - split; reflexivity.
  - destruct (binary_round_integer p Hn) as (mz & ez & -> & Hr).
    split; [reflexivity|exact Hr].
Qed.

(** Below 2^53 the numbers order the counts they stand for. *)
Lemma numOfNat_ge (a b : nat) :
  Z.of_nat a < 2 ^ 53 -> Z.of_nat b < 2 ^ 53 ->
  ge (numOfNat a) (numOfNat b) = (b <=? a)%nat.
Proof.
  intros Ha Hb.
  destruct (numOfNat_SF a Ha) as [Na Fa], (numOfNat_SF b Hb) as [Nb Fb].
  unfold ge. rewrite leb_frank by assumption. rewrite Fa, Fb.
  assert (0 < 2 ^ 1074) by (apply Z.pow_pos_nonneg; lia).
  destruct (Nat.leb_spec b a) as [H1|H1].
  - apply Z.leb_le. apply Z.mul_le_mono_nonneg_r; lia.
  - apply Z.leb_gt. apply Z.mul_lt_mono_pos_r; lia.
Qed.
End CountNumbers.

(** ** The accounts of the index *)

Lemma registrations_snoc (processed : list ImageRecord) (r : ImageRecord) (h : string) :
  registrations (processed ++ [r]) h
  = registrations processed h + (if String.eqb (accountHandle r) h then 1 else 0).
Proof.
  unfold registrations. rewrite filter_app, length_app. cbn [filter].
  destruct (String.eqb (accountHandle r) h); reflexivity.
Qed.

Lemma registrations_none (processed : list ImageRecord) (h : string) :
  (forall r, In r processed -> accountHandle r <> h) ->
  registrations processed h = 0 /\
  find (fun r => String.eqb (accountHandle r) h) processed = None.
Proof.
  unfold registrations.
  induction processed as [|r l IH]; intros H; cbn [filter find]; [now split|].
  rewrite (proj2 (String.eqb_neq _ _) (H r (or_introl eq_refl))).
  apply IH. intros; apply H; now right.
Qed.

Lemma find_snoc {A : Type} (f : A -> bool) (l : list A) (x : A) :
  find f (l ++ [x])
  = match find f l with
    | Some y => Some y
    | None => if f x then Some x else None
    end.
Proof.
  induction l as [|y l IH]; cbn [app find]; [reflexivity|].
  destruct (f y); [reflexivity|exact IH].
Qed.

Lemma accountEntries_snoc_other (processed : list ImageRecord) (r : ImageRecord)
    (m : list (string * AccountEntry)) :
  ~ In (accountHandle r) (map fst m) ->
  Forall (accountEntryOf processed) m ->
  Forall (accountEntryOf (processed ++ [r])) m.
Proof.
  intros Hn H. rewrite Forall_forall in *. intros e Hin.
  destruct (H e Hin) as (Hh & Hc & Hp & Hname).
  assert (Hne : String.eqb (accountHandle r) (fst e) = false).
  { apply String.eqb_neq. intros E. apply Hn. rewrite E. now apply in_map. }
  repeat split; auto.
  - rewrite registrations_snoc, Hne. lia.
  - rewrite find_snoc, Hne.
    destruct (find _ processed); [exact Hname|discriminate].
Qed.

Lemma list_sum_app_cons (f : string * AccountEntry -> nat)
    (m1 m2 : list (string * AccountEntry)) (e : string * AccountEntry) :
  list_sum (map f (m1 ++ e :: m2)) = f e + list_sum (map f (m1 ++ m2)).
Proof.
  rewrite !map_app, !list_sum_app. simpl. lia.
Qed.

Lemma countAccounts_step (processed : list ImageRecord)
    (m : list (string * AccountEntry)) (r : ImageRecord) :
  countedUpTo processed m ->
  countedUpTo (processed ++ [r])
    (let key := accountHandle r in
     match mapGet key m with
     | Some existing =>
         mapSet key {| name := name existing; handle := handle existing;
                       count := S (count existing) |} m
     | None =>
         mapSet key {| name := accountName r;
                       handle := accountHandle r; count := 1 |} m
     end).
Proof.
  intros (Hnd & Hkeys & Hall & Hsum). cbv zeta.
  set (key := accountHandle r).
  destruct (mapGet key m) as [existing|] eqn:Eg.
  - destruct (mapSet_present key
                {| name := name existing; handle := handle existing;
                   count := S (count existing) |} existing m Eg)
      as (m1 & m2 & Em & Hn & Es).
    rewrite Es. subst m.
    rewrite map_app in Hnd. cbn [map fst] in Hnd.
    pose proof (NoDup_remove_2 _ _ _ Hnd) as Hfresh.
    assert (Hn2 : ~ In key (map fst m2)).
    { intros H. apply Hfresh. apply in_or_app. now right. }
    apply Forall_app in Hall as [H1 H2].
    inversion H2 as [|? ? (Hh & Hc & Hp & Hname) H2']; subst.
    cbn [fst snd] in *.
    split; [|split; [|split]].
    + rewrite map_app. exact Hnd.
    + intros r' Hr'. rewrite map_app in *. cbn [map fst] in *.
      apply in_app_or in Hr' as [Hr'|[<-|[]]]; [now apply Hkeys|].
      apply in_or_app. right. now left.
    + apply Forall_app. split; [|constructor].
      * now apply accountEntries_snoc_other.
      * unfold accountEntryOf. cbn [fst snd handle count name].
        repeat split; auto.
        -- rewrite registrations_snoc. unfold key in *. rewrite String.eqb_refl. lia.
        -- rewrite find_snoc.
           destruct (find _ processed); [exact Hname|discriminate].
      * now apply accountEntries_snoc_other.
    + rewrite list_sum_app_cons in *. cbn [snd count] in *.
      rewrite length_app. cbn [List.length]. lia.
  - pose proof (proj1 (mapGet_None key m) Eg) as Hn.
    rewrite (mapSet_absent key _ m Eg).
    assert (Hnone : forall r', In r' processed -> accountHandle r' <> key).
    { intros r' Hr' E. apply Hn. rewrite <- E. now apply Hkeys. }
    destruct (registrations_none processed key Hnone) as [Hr0 Hf0].
    split; [|split; [|split]].
    + rewrite map_app. cbn [map fst].
      apply NoDup_app; [assumption|repeat constructor; intros []|].
      intros k Hk [<-|[]]. contradiction.
    + intros r' Hr'. rewrite map_app. cbn [map fst].
      apply in_app_or in Hr' as [Hr'|[<-|[]]]; apply in_or_app;
        [left; now apply Hkeys|right; now left].
    + apply Forall_app. split; [now apply accountEntries_snoc_other|].
      constructor; [|constructor].
      unfold accountEntryOf. cbn [fst snd handle count name].
      repeat split; auto.
      * rewrite registrations_snoc, Hr0. fold key. now rewrite String.eqb_refl.
      * rewrite find_snoc, Hf0. fold key. now rewrite String.eqb_refl.
    + rewrite map_app, list_sum_app, length_app. simpl.
      lia.
Qed.

Lemma countAccounts_counted (all : list ImageRecord) :
  countedUpTo all (countAccounts all).
Proof.
  unfold countAccounts.
  induction all as [|r l IH] using rev_ind.
  - repeat split; [constructor|intros r []|constructor].
  - rewrite fold_left_app. cbn [fold_left]. now apply countAccounts_step.
Qed.

Lemma Permutation_list_sum (l l' : list nat) :
  Permutation l l' -> list_sum l = list_sum l'.
Proof.
  induction 1; simpl; lia.
Qed.

Lemma registrations_le (store : VectorStore) (h : string) :
  registrations store h <= List.length store.
Proof. apply filter_length_le. Qed.

(** What [getUniqueAccounts] returns, entry by entry. *)
Lemma getUniqueAccounts_entries (store : VectorStore) :
  exists accounts,
    getUniqueAccounts store = Ok accounts /\
    Permutation accounts (map snd (countAccounts store)) /\
    NoDup (map handle accounts) /\
    (forall r, In r store -> In (accountHandle r) (map handle accounts)) /\
    (forall a, In a accounts ->
       count a = registrations store (handle a) /\ 0 < count a /\
       option_map accountName
         (find (fun r => String.eqb (accountHandle r) (handle a)) store)
       = Some (name a)) /\
    list_sum (map count accounts) = List.length store.
Proof.
  unfold getUniqueAccounts, getAll. cbn [bind].
  destruct (countAccounts_counted store) as (Hnd & Hkeys & Hall & Hsum).
  set (m := countAccounts store) in *.
  set (cmp := fun a b : AccountEntry => (numOfNat (count b) - numOfNat (count a))%float).
  pose proof (jsSort_perm cmp (map snd m)) as Hperm.
  assert (Hfst : map handle (map snd m) = map fst m).
  { rewrite map_map. apply map_ext_in. intros e He.
    rewrite Forall_forall in Hall. now destruct (Hall e He). }
  eexists. split; [reflexivity|]. split; [exact Hperm|].
  split; [|split; [|split]].
  - eapply Permutation_NoDup; [symmetry; apply Permutation_map; exact Hperm|].
    now rewrite Hfst.
  - intros r Hr.
    eapply Permutation_in; [symmetry; apply Permutation_map; exact Hperm|].
    rewrite Hfst. now apply Hkeys.
  - intros a Ha. apply (Permutation_in _ Hperm) in Ha.
    apply in_map_iff in Ha as (e & <- & He).
    rewrite Forall_forall in Hall.
    destruct (Hall e He) as (Hh & Hc & Hp & Hname). rewrite Hh. auto.
  - rewrite (Permutation_list_sum _ _ (Permutation_map count Hperm)), map_map.
    exact Hsum.
Qed.

(** X9.  [getUniqueAccounts] lists every account handle of the index once,
    under the name of its first record and with the number of its records;
    the counts add up to the size of the index, and (for an index of fewer
    than 2^53 records) the list is in non-increasing order of count. *)
Theorem getUniqueAccounts_counts (store : VectorStore) :
  exists accounts,
    getUniqueAccounts store = Ok accounts /\
    NoDup (map handle accounts) /\
    (forall h, In h (map handle accounts) <-> In h (map accountHandle store)) /\
    (forall a, In a accounts ->
       count a = registrations store (handle a) /\ 0 < count a /\
       exists r, find (fun r => String.eqb (accountHandle r) (handle a)) store = Some r /\
                 name a = accountName r) /\
    list_sum (map count accounts) = List.length store /\
    ((Z.of_nat (List.length store) < 2 ^ 53)%Z ->
     StronglySorted (fun a b => count b <= count a) accounts).
Proof.
  destruct (getUniqueAccounts_entries store)
    as (accounts & E & _ & Hnd & Hkeys & Hent & Hsum).
  exists accounts. split; [exact E|]. split; [exact Hnd|].
  split; [|split; [|split]].
  - intros h. split.
    + intros Hh. apply in_map_iff in Hh as (a & <- & Ha).
      destruct (Hent a Ha) as (Hc & Hp & _).
      rewrite Hc in Hp. unfold registrations in Hp.
      destruct (filter _ store) as [|r l] eqn:Ef; [cbn in Hp; lia|].
      assert (Hr : In r (filter (fun r => String.eqb (accountHandle r) (handle a)) store))
        by (rewrite Ef; now left).
      apply filter_In in Hr as [Hr Hrh]. apply String.eqb_eq in Hrh.
      rewrite <- Hrh. now apply in_map.
    + intros Hh. apply in_map_iff in Hh as (r & <- & Hr). now apply Hkeys.
  - intros a Ha. destruct (Hent a Ha) as (Hc & Hp & Hname).
    repeat split; auto.
    destruct (find _ store) as [r|]; [|discriminate].
    exists r. split; [reflexivity|]. now injection Hname.
  - exact Hsum.
  - intros Hsmall.
    assert (Hcount : forall a, In a accounts -> (Z.of_nat (count a) < 2 ^ 53)%Z).
    { intros a Ha. destruct (Hent a Ha) as (Hc & _).
      pose proof (registrations_le store (handle a)). lia. }
    unfold getUniqueAccounts, getAll in E. cbn [bind] in E. injection E as E.
    assert (Hnum : Forall (fun a => PrimFloat.is_nan (numOfNat (count a)) = false)
                          (map snd (countAccounts store))).
    { rewrite Forall_forall. intros a Ha.
      apply numOfNat_SF. apply Hcount. rewrite <- E. now apply jsSort_In. }
    pose proof (jsSort_descending (fun a => numOfNat (count a)) _ Hnum) as Hs.
    cbv beta in Hs. rewrite E in Hs.
    clear - Hs Hcount. induction Hs as [|a l Hs IH Hall]; constructor.
    + apply IH. intros; apply Hcount; now right.
    + rewrite Forall_forall in *. intros b Hb. specialize (Hall b Hb).
      assert (Ha : (Z.of_nat (count a) < 2 ^ 53)%Z) by (apply Hcount; now left).
      assert (Hb' : (Z.of_nat (count b) < 2 ^ 53)%Z) by (apply Hcount; now right).
      rewrite (numOfNat_ge _ _ Ha Hb') in Hall. now apply Nat.leb_le.
Qed.

(** ** The accounts [scoreAndAggregate] returns *)

Lemma mapGet_mapSet_same {V : Type} (key : string) (v : V) (m : list (string * V)) :
  mapGet key (mapSet key v m) = Some v.
Proof.
  induction m as [|[k v0] m IH]; cbn [mapSet mapGet].
  - now rewrite String.eqb_refl.
  - destruct (String.eqb k key) eqn:E; cbn [mapGet]; rewrite E; [reflexivity|exact IH].
Qed.

Lemma mapGet_mapSet_other {V : Type} (key key' : string) (v : V)
    (m : list (string * V)) :
  key <> key' -> mapGet key (mapSet key' v m) = mapGet key m.
Proof.
  intros Hne. induction m as [|[k v0] m IH]; cbn [mapSet mapGet].
  - now rewrite (proj2 (String.eqb_neq key' key)) by congruence.
  - destruct (String.eqb_spec k key') as [->|Hk]; cbn [mapGet].
    + now rewrite (proj2 (String.eqb_neq key' key)) by congruence.
    + destruct (String.eqb k key); [reflexivity|exact IH].
Qed.

Section AccountCountMap.
Let setCount (m : list (string * nat)) (a : AccountEntry) : list (string * nat) :=
  mapSet (handle a) (count a) m.

Lemma accountCountMap_absent (h : string) (l : list AccountEntry) :
  forall m : list (string * nat),
    (forall a, In a l -> handle a <> h) ->
    mapGet h (fold_left setCount l m) = mapGet h m.
Proof.
  induction l as [|x l IH]; intros m H; cbn [fold_left]; [reflexivity|].
  rewrite IH by (intros; apply H; now right).
  apply mapGet_mapSet_other. intros E. apply (H x); [now left|now symmetry].
Qed.

Lemma accountCountMap_present (a : AccountEntry) (l : list AccountEntry) :
  forall m : list (string * nat),
    NoDup (map handle l) -> In a l ->
    mapGet (handle a) (fold_left setCount l m) = Some (count a).
Proof.
  induction l as [|x l IH]; intros m Hnd Hin; [destruct Hin|].
  cbn [map] in Hnd. inversion Hnd as [|? ? Hx Hnd']; subst.
  cbn [fold_left]. destruct Hin as [->|Hin].
  - rewrite accountCountMap_absent.
    + apply mapGet_mapSet_same.
    + intros b Hb E. apply Hx. rewrite <- E. now apply in_map.
  - now apply IH.
Qed.
End AccountCountMap.

(** [accountCountMap.get(handle) || 1] over the accounts of the index. *)
Lemma imageCountOf_registrations (store : VectorStore)
    (uniqueAccounts : list AccountEntry) (h : string) :
  getUniqueAccounts store = Ok uniqueAccounts ->
  imageCountOf
    (fold_left (fun m a => mapSet (handle a) (count a) m) uniqueAccounts []) h
  = Nat.max 1 (registrations store h).
Proof.
  intros E.
  destruct (getUniqueAccounts_entries store)
    as (accounts & E' & _ & Hnd & Hkeys & Hent & _).
  rewrite E in E'. injection E' as <-.
  unfold imageCountOf.
  destruct (in_dec string_dec h (map handle uniqueAccounts)) as [Hin|Hout].
  - apply in_map_iff in Hin as (a & <- & Ha).
    rewrite (accountCountMap_present a uniqueAccounts [] Hnd Ha).
    destruct (Hent a Ha) as (Hc & Hp & _). rewrite <- Hc.
    destruct (count a); lia.
  - rewrite accountCountMap_absent
      by (intros a Ha E'; apply Hout; rewrite <- E'; now apply in_map).
    cbn [mapGet].
    destruct (registrations_none store h) as [-> _]; [|reflexivity].
    intros r Hr E'. apply Hout. rewrite <- E'. now apply Hkeys.
Qed.

(** With the index open, scoring the candidates returns. *)
Lemma scoreAndAggregate_returns
    (store : VectorStore) (candidates : list SearchResult)
    (queryEmbedding : list number) (queryHash : string)
    (eventName0 : option string) :
  exists results,
    scoreAndAggregate store candidates queryEmbedding queryHash eventName0
    = Ok results.
Proof.
  unfold scoreAndAggregate, getUniqueAccounts, getAll. cbn [bind].
  set (unique := jsSort _ (map snd (countAccounts store))).
  set (countMap := fold_left _ unique []).
  destruct (groupCandidates_grouped queryHash eventName0 candidates) as (_ & _ & Hall).
  rewrite Forall_forall in Hall.
  destruct (mapM_all_ok (candidateOf countMap (maxCountOf unique))
              (groupCandidates queryHash eventName0 candidates)) as [results0 Er].
  { intros e He.
    destruct (candidateOf_spec queryHash eventName0 candidates countMap
                (maxCountOf unique) e (Hall e He)) as (c & _ & Hc & _).
    eauto. }
  rewrite Er. cbn [bind]. eauto.
Qed.

Lemma Forall2_map_eq {A B C : Type} (R : A -> B -> Prop) (f : A -> C) (g : B -> C)
    (l : list A) (l' : list B) :
  Forall2 R l l' -> (forall a b, In a l -> R a b -> f a = g b) ->
  map f l = map g l'.
Proof.
  induction 1 as [|a b l l' Hab _ IH]; intros H; cbn [map]; [reflexivity|].
  rewrite (H a b (or_introl eq_refl) Hab), IH; [reflexivity|].
  intros a' b' Ha'. apply H. now right.
Qed.

Lemma scoreAndAggregate_structure
    (store : VectorStore) (candidates : list SearchResult)
    (queryEmbedding : list number) (queryHash : string)
    (eventName0 : option string) (results : list ScoredCandidate) :
  scoreAndAggregate store candidates queryEmbedding queryHash eventName0
  = Ok results ->
  NoDup (map candHandle results) /\
  (forall h, In h (map candHandle results) <->
             In h (map (fun c => accountHandle (record c)) candidates)) /\
  (forall c, In c results ->
     matchedImages c
     = map (fun o => (id (record o), clipScore o))
           (filter (ofAccount (candHandle c)) candidates) /\
     matchedImages c <> [] /\
     imageCount c = Nat.max 1 (registrations store (candHandle c))) /\
  ((forall c, In c results -> PrimFloat.is_nan (totalScore c) = false) ->
   StronglySorted (fun a b => ge (totalScore a) (totalScore b) = true) results).
Proof.
  unfold scoreAndAggregate.
  destruct (getUniqueAccounts_entries store) as (unique & Eu & _).
  rewrite Eu. cbn [bind].
  set (countMap := fold_left _ unique []).
  destruct (groupCandidates_grouped queryHash eventName0 candidates)
    as (Hnd & Hkeys & Hall).
  set (accountMap := groupCandidates queryHash eventName0 candidates) in *.
  rewrite Forall_forall in Hall.
  destruct (mapM_all_ok (candidateOf countMap (maxCountOf unique)) accountMap)
    as [results0 Er].
  { intros e He.
    destruct (candidateOf_spec queryHash eventName0 candidates countMap
                (maxCountOf unique) e (Hall e He)) as (c & _ & Hc & _).
    eauto. }
  rewrite Er. cbn [bind].
  apply mapM_Forall2 in Er.
  set (cmp := fun a b : ScoredCandidate => (totalScore b - totalScore a)%float).
  pose proof (jsSort_perm cmp results0) as Hperm.
  assert (Hh : map candHandle results0 = map fst accountMap).
  { symmetry. apply (Forall2_map_eq _ _ _ _ _ Er). intros e c He Hce.
    destruct (candidateOf_spec queryHash eventName0 candidates countMap
                (maxCountOf unique) e (Hall e He)) as (c' & best & Hc' & _ & _ & Hf & _).
    rewrite Hce in Hc'. injection Hc' as Ecc. subst c'. now symmetry. }
  intros [= <-]. split; [|split; [|split]].
  - eapply Permutation_NoDup; [symmetry; apply Permutation_map; exact Hperm|].
    now rewrite Hh.
  - intros h. split.
    + intros Hin.
      apply (Permutation_in _ (Permutation_map candHandle Hperm)) in Hin.
      rewrite Hh in Hin. apply in_map_iff in Hin as (e & <- & He).
      destruct (Hall e He) as (_ & Hi & Hne).
      destruct (filter (ofAccount (fst e)) candidates) as [|c l] eqn:Ef;
        [rewrite Hi in Hne; now contradiction Hne|].
      assert (Hc : In c (filter (ofAccount (fst e)) candidates))
        by (rewrite Ef; now left).
      apply filter_In in Hc as [Hc Hce]. apply String.eqb_eq in Hce.
      rewrite <- Hce. now apply (in_map (fun c => accountHandle (record c))).
    + intros Hin. apply in_map_iff in Hin as (c & <- & Hc).
      eapply Permutation_in; [symmetry; apply Permutation_map; exact Hperm|].
      rewrite Hh. now apply Hkeys.
  - intros c Hc. apply (Permutation_in _ Hperm) in Hc.
    destruct (Forall2_In_r _ _ _ _ Er Hc) as (e & He & Hce).
    destruct (candidateOf_spec queryHash eventName0 candidates countMap
                (maxCountOf unique) e (Hall e He))
      as (c' & best & Hc' & _ & _ & Hf & _ & _ & _ & Hcount & Hm).
    rewrite Hce in Hc'. injection Hc' as Ecc. subst c'.
    destruct (Hall e He) as (_ & Hi & Hne).
    rewrite Hf. split; [exact Hm|]. split.
    + rewrite Hm. intros E. apply Hne. rewrite Hi.
      apply map_eq_nil in E. now rewrite E.
    + rewrite Hcount. now apply imageCountOf_registrations.
  - intros Hnum. apply (jsSort_descending totalScore).
    rewrite Forall_forall. intros c Hc. apply Hnum.
    now apply (Permutation_in _ (Permutation_sym Hperm)).
Qed.

(** X10.  What [scoreAndAggregate] resolves with: one candidate per account
    handle among the search results, each handle once, so no more
    candidates than search results; a candidate lists all the search results
    of its account, in their order, and its [imageCount] is the number of
    records the account has in the index as [scoreAndAggregate] reads it (1
    when it has none); and the candidates are in non-increasing order of
    total score whenever the totals are numbers. *)
Theorem scoreAndAggregate_accounts
    (store : VectorStore) (candidates : list SearchResult)
    (queryEmbedding : list number) (queryHash : string)
    (eventName0 : option string) (results : list ScoredCandidate) :
  scoreAndAggregate store candidates queryEmbedding queryHash eventName0
  = Ok results ->
  NoDup (map candHandle results) /\
  List.length results <= List.length candidates /\
  (forall h, In h (map candHandle results) <->
             In h (map (fun c => accountHandle (record c)) candidates)) /\
  (forall c, In c results ->
     matchedImages c
     = map (fun o => (id (record o), clipScore o))
           (filter (ofAccount (candHandle c)) candidates) /\
     matchedImages c <> [] /\
     imageCount c = Nat.max 1 (registrations store (candHandle c))) /\
  ((forall c, In c results -> PrimFloat.is_nan (totalScore c) = false) ->
   StronglySorted (fun a b => ge (totalScore a) (totalScore b) = true) results).
Proof.
  intros E.
  destruct (scoreAndAggregate_structure _ _ _ _ _ _ E)
    as (Hnd & Hhandles & Hcand & Hsorted).
  split; [exact Hnd|]. split; [|split; [exact Hhandles|split; assumption]].
  rewrite <- (length_map candHandle results),
          <- (length_map (fun c => accountHandle (record c)) candidates).
  apply NoDup_incl_length; [exact Hnd|].
  intros h Hh. now apply Hhandles.
Qed.

Lemma scoreAndAggregate_accounts_witness :
  exists candidates results,
    searchByEmbedding sampleIndex [1%float; 0%float] TOP_N_SEARCH = Ok candidates /\
    scoreAndAggregate sampleIndex candidates [1%float; 0%float]
                      "00020e1e3e3e7e7e" None = Ok results /\
    map (fun c => (candHandle c, imageCount c, map fst (matchedImages c))) results
    = [("@alice"%string, 2, ["img_2"%string; "img_1"%string]);
       ("@bob"%string, 1, ["img_3"%string])] /\
    NoDup (map candHandle results) /\
    List.length results <= List.length candidates /\
    (forall c, In c results ->
       imageCount c = Nat.max 1 (registrations sampleIndex (candHandle c))) /\
    StronglySorted (fun a b => ge (totalScore a) (totalScore b) = true) results.
Proof.
  destruct (searchByEmbedding sampleIndex [1%float; 0%float] TOP_N_SEARCH)
    as [candidates|e] eqn:Es; [|vm_compute in Es; discriminate Es].
  destruct (scoreAndAggregate sampleIndex candidates [1%float; 0%float]
              "00020e1e3e3e7e7e" None) as [results|e] eqn:Ea;
    [|vm_compute in Es; injection Es as <-; vm_compute in Ea; discriminate Ea].
  destruct (scoreAndAggregate_accounts _ _ _ _ _ _ Ea)
    as (Hnd & Hlen & _ & Hcand & Hsorted).
  exists candidates, results.
  split; [reflexivity|]. split; [exact Ea|].
  vm_compute in Es. injection Es as <-.
  vm_compute in Ea. injection Ea as <-.
  split; [reflexivity|]. split; [exact Hnd|]. split; [exact Hlen|].
  split; [intros c Hc; now apply Hcand|].
  apply Hsorted. intros c [<-|[<-|[]]]; reflexivity.
Defined.

(** ** The reports of a search *)






(** ** Writing to the index *)

Lemma insertByKey_perm (r : ImageRecord) (store : VectorStore) :
  Permutation (Store.insertByKey r store) (r :: store).
Proof.
  induction store as [|x rest IH]; cbn [Store.insertByKey]; [reflexivity|].
  destruct (String.ltb (id r) (id x)); [reflexivity|].
  rewrite IH. apply perm_swap.
Qed.

Lemma delete_inserted (r : ImageRecord) (store : VectorStore) :
  Store.hasKey store (id r) = false ->
  filter (fun x => negb (String.eqb (id x) (id r))) (Store.insertByKey r store)
  = store.
Proof.
  unfold Store.hasKey.
  induction store as [|x rest IH]; cbn [Store.insertByKey existsb filter].
  - now rewrite String.eqb_refl.
  - intros H. apply orb_false_iff in H as [Hx Hrest].
    destruct (String.ltb (id r) (id x)); cbn [filter].
    + rewrite String.eqb_refl, Hx. cbn [negb]. f_equal.
      clear IH. induction rest as [|y rest IH]; [reflexivity|].
      cbn [existsb] in Hrest. apply orb_false_iff in Hrest as [Hy Hrest].
      cbn [filter]. rewrite Hy. cbn [negb]. f_equal. now apply IH.
    + rewrite Hx. cbn [negb]. f_equal. now apply IH.
Qed.

Lemma registrations_perm (store store' : VectorStore) (h : string) :
  Permutation store store' -> registrations store h = registrations store' h.
Proof. apply Permutation_filter_length. Qed.

(** X12.  [add] stores the record under the identifier it is given, unless
    the identifier is taken: then it fails with the store's
    [ConstraintError] and stores nothing.  After an [add] the store holds
    the old records and the new one, [count] is one more, the handle index
    yields one more record for the new record's account and the same for
    every other account, and [delete] of the new identifier gives the old
    store back. *)
Theorem add_then_delete
    (store : VectorStore) (newId : string) (now : number) (record : Store.NewRecord) :
  let fullRecord :=
    {| id := newId;
       embedding := Store.newEmbedding record;
       pHash := Store.newPHash record;
       accountName := Store.newAccountName record;
       accountHandle := Store.newAccountHandle record;
       eventName := Store.newEventName record;
       imageUrl := Store.newImageUrl record;
       createdAt := now |} in
  (Store.hasKey store newId = true ->
   Store.add store newId now record = Throw (ExternalFailure "ConstraintError")) /\
  (Store.hasKey store newId = false ->
   exists store',
     Store.add store newId now record = Ok (newId, store') /\
     Permutation store' (fullRecord :: store) /\
     Store.count store' = Ok (S (List.length store)) /\
     (forall h, exists before after,
        Store.getByAccountHandle store h = Ok before /\
        Store.getByAccountHandle store' h = Ok after /\
        List.length after
        = List.length before
          + (if String.eqb (Store.newAccountHandle record) h then 1 else 0)) /\
     Store.delete store' newId = Ok store).
Proof.
  intros fullRecord. unfold Store.add. fold fullRecord. split; intros Hkey; rewrite Hkey.
  - reflexivity.
  - eexists. split; [reflexivity|].
    pose proof (insertByKey_perm fullRecord store) as Hperm.
    split; [exact Hperm|]. split; [|split].
    + unfold Store.count. now rewrite (Permutation_length Hperm).
    + intros h. eexists _, _. split; [reflexivity|]. split; [reflexivity|].
      rewrite (Permutation_filter_length _ _ _ Hperm). cbn [filter accountHandle fullRecord].
      destruct (String.eqb (Store.newAccountHandle record) h); cbn [List.length]; lia.
    + unfold Store.delete. f_equal. now apply (delete_inserted fullRecord store).
Qed.

(** ** The statistics of the index *)

Lemma registered_iff (store : VectorStore) (h : string) :
  In h (map accountHandle store) <-> registrations store h <> 0.
Proof.
  split.
  - intros Hin E. apply in_map_iff in Hin as (r & <- & Hr).
    unfold registrations in E. apply length_zero_iff_nil in E.
    assert (H : In r (filter (fun x => String.eqb (accountHandle x) (accountHandle r)) store))
      by (apply filter_In; split; [assumption|apply String.eqb_refl]).
    now rewrite E in H.
  - intros Hn. destruct (in_dec string_dec h (map accountHandle store)) as [H|H];
      [exact H|exfalso]. apply Hn.
    apply registrations_none. intros r Hr E. apply H. rewrite <- E. now apply in_map.
Qed.

Lemma distinct_perm (l l' : list string) :
  Permutation l l' ->
  List.length (nodup string_dec l) = List.length (nodup string_dec l').
Proof.
  intros Hp. apply Permutation_length.
  apply NoDup_Permutation; try apply NoDup_nodup.
  intros x. rewrite !nodup_In. split; apply Permutation_in; [|symmetry]; exact Hp.
Qed.

(** The accounts are as many as the distinct handles of the index. *)
Lemma getUniqueAccounts_length (store : VectorStore) (accounts : list AccountEntry) :
  getUniqueAccounts store = Ok accounts ->
  List.length accounts
  = List.length (nodup string_dec (map accountHandle store)) /\
  List.length accounts <= List.length store.
Proof.
  intros E.
  destruct (getUniqueAccounts_entries store)
    as (accounts' & E' & _ & Hnd & Hkeys & Hent & Hsum).
  rewrite E in E'. injection E' as <-.
  split.
  - rewrite <- (length_map handle accounts). apply Permutation_length.
    apply NoDup_Permutation; [exact Hnd|apply NoDup_nodup|].
    intros h. rewrite nodup_In. split.
    + intros Hh. apply in_map_iff in Hh as (a & <- & Ha).
      destruct (Hent a Ha) as (Hc & Hp & _).
      apply registered_iff. lia.
    + intros Hh. apply in_map_iff in Hh as (r & <- & Hr). now apply Hkeys.
  - rewrite <- Hsum. clear - Hent.
    induction accounts as [|a l IH]; [cbn; lia|].
    cbn [List.length map]. simpl list_sum.
    destruct (Hent a (or_introl eq_refl)) as (_ & Hp & _).
    specialize (IH (fun b Hb => Hent b (or_intror Hb))). lia.
Qed.

(** X13.  [getStats] reports the number of records its first read finds and
    the number of distinct account handles its second read finds, and
    whether the model is ready.  When no write completes between the two
    reads (both find the same records), there are never more accounts than
    images, and no account exactly when there is no image.  A registration
    that completes between the two reads of an empty index gives one
    account for no image. *)
Theorem getStats_counts (ready : bool) (atCount atAccounts : VectorStore) :
  exists st,
    getStatsReading ready atCount atAccounts = Ok st /\
    totalImages st = List.length atCount /\
    uniqueAccounts st
    = List.length (nodup string_dec (map accountHandle atAccounts)) /\
    uniqueAccounts st <= List.length atAccounts /\
    isModelReady st = ready /\
    (Permutation atCount atAccounts ->
     uniqueAccounts st <= totalImages st /\
     (uniqueAccounts st = 0 <-> totalImages st = 0)) /\
    (forall r, atCount = [] -> atAccounts = [r] ->
               totalImages st = 0 /\ uniqueAccounts st = 1).
Proof.
  unfold getStatsReading, Store.count. cbn [bind].
  destruct (getUniqueAccounts_entries atAccounts) as (accounts & E & _).
  rewrite E. cbn [bind].
  destruct (getUniqueAccounts_length _ _ E) as [Hlen Hle].
  eexists. split; [reflexivity|].
  cbn [totalImages uniqueAccounts isModelReady].
  split; [reflexivity|]. split; [exact Hlen|]. split; [exact Hle|].
  split; [reflexivity|]. split.
  - intros Hperm. rewrite (Permutation_length Hperm). split; [exact Hle|].
    split; [|intros H; lia].
    rewrite Hlen. destruct atAccounts as [|r store]; [reflexivity|].
    intros H. exfalso. apply length_zero_iff_nil in H.
    assert (Hin : In (accountHandle r) (nodup string_dec (map accountHandle (r :: store))))
      by (apply nodup_In; now left).
    now rewrite H in Hin.
  - intros r -> Hr. split; [reflexivity|]. rewrite Hlen, Hr. reflexivity.
Qed.

Lemma getStats_counts_witness :
  exists st,
    getStatsReading true sampleIndex sampleIndex = Ok st /\
    totalImages st = 3 /\
    uniqueAccounts st = 2 /\
    uniqueAccounts st <= totalImages st.
Proof.
  destruct (getStats_counts true sampleIndex sampleIndex)
    as (st & E & Ht & Hu & _ & _ & Hsame & _).
  exists st. split; [exact E|]. split; [exact Ht|]. split; [exact Hu|].
  apply Hsame. apply Permutation_refl.
Defined.

(** X14.  When the model, the embedding and the image are available and the
    identifier is free, [registerImage] succeeds with that identifier, and
    the statistics move accordingly: one more image, and one more account
    exactly when the handle had no record before. *)
Theorem registerImage_stats
    (S : Services) (imageBase64 accountName0 accountHandle0 : string)
    (eventName0 : option string) (newId : string) (now : number)
    (embedding0 data : list number) :
  (if isCLIPReady S then Ok tt else initCLIP S) = Ok tt ->
  getImageEmbedding S imageBase64 = Ok embedding0 ->
  loadImageData (browser S) imageBase64 = Ok data ->
  Store.hasKey (vectorStore S) newId = false ->
  exists store' before after,
    registerImage S imageBase64 accountName0 accountHandle0 eventName0 newId now
    = Ok (newId, store') /\
    getStats S = Ok before /\
    getStats (withStore S store') = Ok after /\
    totalImages after = totalImages before + 1 /\
    uniqueAccounts after
    = uniqueAccounts before
      + (if Nat.eqb (registrations (vectorStore S) accountHandle0) 0 then 1 else 0) /\
    registrations store' accountHandle0
    = registrations (vectorStore S) accountHandle0 + 1.
Proof.
  intros Hinit Hemb Hload Hkey.
  unfold registerImage. rewrite Hinit, Hemb. cbn [bind].
  unfold computePHash. rewrite Hload. cbn [bind].
  unfold Store.add. rewrite Hkey. cbv zeta.
  cbn [Store.newEmbedding Store.newPHash Store.newAccountName Store.newAccountHandle
       Store.newEventName Store.newImageUrl].
  match goal with |- context [Store.insertByKey ?x _] => set (r := x) end.
  assert (Hr : accountHandle r = accountHandle0) by reflexivity.
  pose proof (insertByKey_perm r (vectorStore S)) as Hperm.
  exists (Store.insertByKey r (vectorStore S)).
  unfold getStats, getStatsReading, Store.count.
  cbn [bind vectorStore withStore isCLIPReady].
  destruct (getUniqueAccounts_entries (vectorStore S)) as (accounts & E & _).
  destruct (getUniqueAccounts_entries (Store.insertByKey r (vectorStore S)))
    as (accounts' & E' & _).
  rewrite E, E'. cbn [bind].
  eexists _, _. split; [reflexivity|]. split; [reflexivity|]. split; [reflexivity|].
  cbn [totalImages uniqueAccounts].
  destruct (getUniqueAccounts_length _ _ E) as [Hlen _].
  destruct (getUniqueAccounts_length _ _ E') as [Hlen' _].
  split; [|split].
  - rewrite (Permutation_length Hperm). cbn [List.length]. lia.
  - rewrite Hlen, Hlen'.
    rewrite (distinct_perm _ _ (Permutation_map accountHandle Hperm)).
    cbn [map nodup]. rewrite Hr.
    destruct (in_dec string_dec accountHandle0 (map accountHandle (vectorStore S)))
      as [Hin|Hout].
    + apply registered_iff in Hin.
      destruct (Nat.eqb_spec (registrations (vectorStore S) accountHandle0) 0); lia.
    + assert (Hz : registrations (vectorStore S) accountHandle0 = 0).
      { destruct (Nat.eq_dec (registrations (vectorStore S) accountHandle0) 0) as [Hz|Hz];
          [exact Hz|]. exfalso. apply Hout. now apply registered_iff. }
      rewrite Hz. cbn [Nat.eqb List.length]. lia.
  - rewrite (registrations_perm _ _ accountHandle0 Hperm).
    unfold registrations. cbn [filter]. rewrite Hr.
    rewrite String.eqb_refl. cbn [List.length]. lia.
Qed.

Lemma registerImage_stats_witness :
  exists store' before after,
    registerImage (sampleServices []) "data:image/jpeg;base64,AAAA" "Alice" "@alice"
                  None "img_1" 0%float
    = Ok ("img_1"%string, store') /\
    getStats (sampleServices []) = Ok before /\
    getStats (withStore (sampleServices []) store') = Ok after /\
    totalImages after = totalImages before + 1 /\
    uniqueAccounts after
    = uniqueAccounts before
      + (if Nat.eqb (registrations (vectorStore (sampleServices [])) "@alice") 0
         then 1 else 0) /\
    registrations store' "@alice"
    = registrations (vectorStore (sampleServices [])) "@alice" + 1.
Proof.
  apply (registerImage_stats (sampleServices []) "data:image/jpeg;base64,AAAA"
           "Alice" "@alice" None "img_1" 0%float [1%float; 0%float] []);
    reflexivity.
Defined.

(** ** Initialisation after a failure, and after a success *)

(** X15.  [VectorStore.init] does not retry: once the open request has
    failed ([initPromise] is set, nothing is pending, the database is not
    there), no event changes the state again, and every later caller is
    handed the same, rejected, promise. *)
Theorem storeInit_failure_is_final (s : StoreInit) (p : nat) (evs : list StoreEvent) :
  initPromise s = Some p -> db s = false -> openPending s = false ->
  fst (storeRun s evs) = s /\
  snd (storeRun s evs) = map (fun _ => Awaits p) (filter isStoreCall evs).
Proof.
  intros Hp Hdb Hpend.
  induction evs as [|ev evs [IH1 IH2]]; cbn [storeRun]; [now split|].
  assert (Hstep : storeStep s ev = (s, if isStoreCall ev then [Awaits p] else [])).
  { destruct ev; cbn [storeStep isStoreCall]; now rewrite ?Hdb, ?Hp, ?Hpend. }
  rewrite Hstep. destruct (storeRun s evs) as [s2 r2]. cbn [fst snd] in *.
  subst s2 r2. split; [reflexivity|].
  cbn [filter]. destruct (isStoreCall ev); reflexivity.
Qed.

Lemma storeInit_failure_is_final_witness :
  let s := fst (storeRun storeInitial [StoreCall; OpenFails]) in
  fst (storeRun s [StoreCall; OpenSucceeds; StoreCall]) = s /\
  snd (storeRun s [StoreCall; OpenSucceeds; StoreCall])
  = map (fun _ => Awaits 0) (filter isStoreCall [StoreCall; OpenSucceeds; StoreCall]).
Proof.
  exact (storeInit_failure_is_final
           (fst (storeRun storeInitial [StoreCall; OpenFails])) 0
           [StoreCall; OpenSucceeds; StoreCall] eq_refl eq_refl eq_refl).
Defined.

Lemma clipStep_fresh (s : ClipInit) (ev : ClipEvent) (returned : list InitReturn) :
  clipInv s ->
  (forall p, loadingPromise s = Some p -> p < loadsStarted s) ->
  clipFresh s returned ->
  (forall p, loadingPromise (fst (clipStep s ev)) = Some p ->
             p < loadsStarted (fst (clipStep s ev))) /\
  clipFresh (fst (clipStep s ev)) (returned ++ snd (clipStep s ev)).
Proof.
  unfold clipFresh. intros _ Hlp Hret.
  assert (Hmono : forall n, loadsStarted s <= n -> Forall (olderThan n) returned).
  { intros n Hn. rewrite Forall_forall in *. intros r Hr.
    specialize (Hret r Hr). destruct r; cbn in *; [exact I|lia]. }
  destruct ev as [|q|q]; cbn [clipStep].
  - destruct (embeddingPipeline s); cbn [fst snd].
    + split; [exact Hlp|]. apply Forall_app. split; [exact Hret|].
      repeat constructor.
    + destruct (isLoading s), (loadingPromise s) as [p|] eqn:Ep;
        cbn [fst snd loadingPromise loadsStarted].
      * split; [rewrite Ep; exact Hlp|]. apply Forall_app. split; [exact Hret|].
        constructor; [|constructor]. cbn. now apply Hlp.
      * split; [intros p [= <-]; lia|]. apply Forall_app.
        split; [apply Hmono; lia|]. constructor; [cbn; lia|constructor].
      * split; [intros p' [= <-]; lia|]. apply Forall_app.
        split; [apply Hmono; lia|]. constructor; [cbn; lia|constructor].
      * split; [intros p [= <-]; lia|]. apply Forall_app.
        split; [apply Hmono; lia|]. constructor; [cbn; lia|constructor].
  - destruct (existsb (Nat.eqb q) (loadsRunning s));
      cbn [fst snd loadingPromise loadsStarted]; rewrite app_nil_r; now split.
  - destruct (existsb (Nat.eqb q) (loadsRunning s));
      cbn [fst snd loadingPromise loadsStarted]; rewrite app_nil_r; now split.
Qed.

Lemma clipRun_fresh (evs : list ClipEvent) :
  forall (s : ClipInit) (returned : list InitReturn),
    clipInv s ->
    (forall p, loadingPromise s = Some p -> p < loadsStarted s) ->
    clipFresh s returned ->
    clipFresh (fst (clipRun s evs)) (returned ++ snd (clipRun s evs)).
Proof.
  induction evs as [|ev evs IH]; intros s returned Hinv Hlp Hret; cbn [clipRun].
  - cbn [fst snd]. now rewrite app_nil_r.
  - destruct (clipStep_fresh s ev returned Hinv Hlp Hret) as [Hlp1 Hret1].
    pose proof (clipStep_inv s ev Hinv) as Hinv1.
    destruct (clipStep s ev) as [s1 r1]. cbn [fst snd] in *.
    specialize (IH s1 (returned ++ r1) Hinv1 Hlp1 Hret1).
    destruct (clipRun s1 evs) as [s2 r2]. cbn [fst snd] in *.
    now rewrite app_assoc.
Qed.

(** X16.  [initCLIP] after it has settled.  Once the pipeline is there it
    stays: no later event changes the state, and every later caller returns
    at once.  While it is not there and no set-up is running (none was
    started, or the last one failed), the next caller starts a new set-up,
    and the promise it is handed is one no earlier caller holds. *)
Theorem initCLIP_settled (evs : list ClipEvent) :
  let s := fst (clipRun clipInitial evs) in
  (embeddingPipeline s = true ->
   forall evs', fst (clipRun s evs') = s /\
                snd (clipRun s evs')
                = map (fun _ => AlreadyReady) (filter isClipCall evs')) /\
  (embeddingPipeline s = false -> isLoading s = false ->
   snd (clipStep s ClipCall) = [Awaits (loadsStarted s)] /\
   loadsRunning (fst (clipStep s ClipCall)) = [loadsStarted s] /\
   ~ In (Awaits (loadsStarted s)) (snd (clipRun clipInitial evs))).
Proof.
  intros s.
  assert (Hinv : clipInv s).
  { apply clipRun_inv. split; [discriminate|reflexivity]. }
  split.
  - intros Hready evs'.
    destruct Hinv as [Ht Hf].
    assert (Hl : isLoading s = false).
    { destruct (isLoading s); [|reflexivity].
      destruct (Ht eq_refl) as [H _]. congruence. }
    pose proof (Hf Hl) as Hrun.
    induction evs' as [|ev evs' [IH1 IH2]]; cbn [clipRun]; [now split|].
    assert (Hstep : clipStep s ev = (s, if isClipCall ev then [AlreadyReady] else [])).
    { destruct ev; cbn [clipStep isClipCall]; now rewrite ?Hready, ?Hrun. }
    rewrite Hstep. destruct (clipRun s evs') as [s2 r2]. cbn [fst snd] in *.
    subst s2 r2. split; [reflexivity|].
    cbn [filter]. destruct (isClipCall ev); reflexivity.
  - intros Hnot Hl.
    destruct Hinv as [_ Hf]. pose proof (Hf Hl) as Hrun.
    cbn [clipStep]. rewrite Hnot, Hl. cbn [fst snd loadsRunning]. rewrite Hrun.
    split; [reflexivity|]. split; [reflexivity|].
    pose proof (clipRun_fresh evs clipInitial []) as Hfresh.
    cbn [app] in Hfresh. fold s in Hfresh.
    intros Hin.
    assert (H : clipFresh s (snd (clipRun clipInitial evs))).
    { apply Hfresh; [split; [discriminate|reflexivity]|discriminate|constructor]. }
    unfold clipFresh in H. rewrite Forall_forall in H.
    specialize (H _ Hin). cbn in H. lia.
Qed.

(** ** What the modal shows *)





(** A resolved search has run the query and scored its results. *)
Lemma findSimilarAccounts_pipeline
    (S : Services) (imageBase64 : string) (eventName0 : option string)
    (out : list ScoredCandidate) :
  snd (findSimilarAccounts S imageBase64 eventName0) = Ok out ->
  exists candidates embedding0 queryHash,
    getImageEmbedding S imageBase64 = Ok embedding0 /\
    searchByEmbedding (vectorStore S) embedding0 TOP_N_SEARCH = Ok candidates /\
    scoreAndAggregate (vectorStore S) candidates embedding0 queryHash eventName0
    = Ok out.
Proof.
  unfold findSimilarAccounts, findSimilarAccountsTask, bindT, report, await, ret.
  cbn [app].
  destruct (if isCLIPReady S then _ else _) as [l [[]|e0]]; [|discriminate].
  destruct (getImageEmbedding S imageBase64) as [emb|e1]; [|discriminate].
  destruct (computePHash (browser S) imageBase64) as [h|e2]; [|discriminate].
  destruct (searchByEmbedding (vectorStore S) emb TOP_N_SEARCH) as [cands|e3] eqn:Eq;
    [|discriminate].
  destruct (Nat.eqb (List.length cands) 0) eqn:El; cbn [snd].
  - intros [= <-]. exists cands, emb, h. split; [reflexivity|].
    split; [first [reflexivity|exact Eq]|].
    apply Nat.eqb_eq in El. apply length_zero_iff_nil in El. subst cands.
    reflexivity.
  - destruct (scoreAndAggregate (vectorStore S) cands emb h eventName0)
      as [results|e4] eqn:Es; cbn [snd]; [|discriminate].
    intros [= <-]. exists cands, emb, h. auto.
Qed.


(** ** Helpers of the universal parser *)

Lemma mapGet_mapSet {V : Type} (key key' : string) (v : V) (m : list (string * V)) :
  mapGet key (mapSet key' v m)
  = if String.eqb key' key then Some v else mapGet key m.
Proof.
  destruct (String.eqb_spec key' key) as [->|Hne].
  - apply mapGet_mapSet_same.
  - apply mapGet_mapSet_other. congruence.
Qed.

Lemma dedupeStep_eq (seen : list (string * nat)) (out : list string) (s : string) :
  dedupeStep (seen, out) s
  = if String.eqb s "" then (seen, out)
    else match mapGet s seen with
         | Some _ => (seen, out)
         | None => (mapSet s 1 seen, out ++ [s])
         end.
Proof. reflexivity. Qed.

Lemma dedupe_fold (l : list string) :
  forall (seen : list (string * nat)) (out : list string),
    (forall s, mapGet s seen <> None <-> In s out) ->
    NoDup out -> ~ In EmptyString out ->
    let out' := snd (fold_left dedupeStep l (seen, out)) in
    NoDup out' /\ ~ In EmptyString out' /\
    (forall s, In s out' <-> In s out \/ (In s l /\ s <> EmptyString)) /\
    List.length out' <= List.length out + List.length l.
Proof.
  induction l as [|x l IH]; intros seen out Hseen Hnd Hne; cbn [fold_left].
  - cbn [snd]. split; [exact Hnd|]. split; [exact Hne|].
    split; [intros s; cbn [In]; tauto|lia].
  - rewrite dedupeStep_eq.
    destruct (String.eqb_spec x EmptyString) as [->|Hx].
    + pose proof (IH seen out Hseen Hnd Hne) as IH'. cbv zeta in IH'.
        destruct IH' as (H1 & H2 & H3 & H4).
      cbv zeta. split; [exact H1|]. split; [exact H2|].
      split; [|cbn [List.length]; lia].
      intros s. rewrite H3. cbn [In]. intuition (subst; congruence).
    + destruct (mapGet x seen) as [v|] eqn:Eg.
      * pose proof (IH seen out Hseen Hnd Hne) as IH'. cbv zeta in IH'.
        destruct IH' as (H1 & H2 & H3 & H4).
        assert (Hxin : In x out) by (apply Hseen; congruence).
        cbv zeta. split; [exact H1|]. split; [exact H2|].
        split; [|cbn [List.length]; lia].
        intros s. rewrite H3. cbn [In]. intuition (subst; auto).
      * assert (Hout : ~ In x out) by (intros H; apply Hseen in H; congruence).
        assert (IH' : let out' := snd (fold_left dedupeStep l (mapSet x 1 seen, out ++ [x])) in
                      NoDup out' /\ ~ In EmptyString out' /\
                      (forall s, In s out' <-> In s (out ++ [x]) \/ (In s l /\ s <> EmptyString)) /\
                      List.length out' <= List.length (out ++ [x]) + List.length l).
        { apply IH.
          - intros s. rewrite mapGet_mapSet, in_app_iff. cbn [In].
            destruct (String.eqb_spec x s) as [->|Hs].
            + split; [auto|discriminate].
            + rewrite Hseen. tauto.
          - apply NoDup_app; [assumption|repeat constructor; intros []|].
            intros s Hs [<-|[]]. contradiction.
          - rewrite in_app_iff. cbn [In]. intros [H|[H|[]]]; [tauto|congruence]. }
        cbv zeta in IH'. destruct IH' as (H1 & H2 & H3 & H4).
        cbv zeta. split; [exact H1|]. split; [exact H2|]. split.
        -- intros s. rewrite H3, in_app_iff. cbn [In].
           intuition (subst; auto; congruence).
        -- rewrite length_app in H4. cbn [List.length] in *. lia.
Qed.

Lemma dedupe_fixed (l : list string) :
  forall (seen : list (string * nat)) (out : list string),
    NoDup l -> ~ In EmptyString l ->
    (forall s, In s l -> mapGet s seen = None) ->
    snd (fold_left dedupeStep l (seen, out)) = out ++ l.
Proof.
  induction l as [|x l IH]; intros seen out Hnd Hne Hfresh; cbn [fold_left].
  - cbn [snd]. now rewrite app_nil_r.
  - inversion Hnd as [|? ? Hx Hnd']; subst.
    rewrite dedupeStep_eq.
    destruct (String.eqb_spec x EmptyString) as [->|Hxe];
      [exfalso; apply Hne; now left|].
    rewrite (Hfresh x (or_introl eq_refl)).
    rewrite IH; [now rewrite <- app_assoc|assumption| |].
    + intros H. apply Hne. now right.
    + intros s Hs. rewrite mapGet_mapSet.
      destruct (String.eqb_spec x s) as [->|_]; [contradiction|].
      apply Hfresh. now right.
Qed.

(** X18.  [dedupeStrings] keeps each non-empty string of its input once:
    the output has no duplicate and no empty string, holds exactly the
    non-empty strings of the input, is no longer than the input, and is left
    unchanged by a second pass. *)
Theorem dedupeStrings_spec (list0 : list string) :
  NoDup (dedupeStrings list0) /\
  (forall s, In s (dedupeStrings list0) <-> In s list0 /\ s <> EmptyString) /\
  List.length (dedupeStrings list0) <= List.length list0 /\
  dedupeStrings (dedupeStrings list0) = dedupeStrings list0.
Proof.
  destruct (dedupe_fold list0 [] []) as (Hnd & Hne & Hin & Hlen).
  - intros s. cbn. tauto.
  - constructor.
  - intros [].
  - fold (dedupeStrings list0) in *. cbn [List.length In] in *.
    split; [exact Hnd|]. split; [|split; [exact Hlen|]].
    + intros s. rewrite Hin. tauto.
    + unfold dedupeStrings at 1.
      now rewrite (dedupe_fixed (dedupeStrings list0) [] [] Hnd Hne).
Qed.

Section Braces.
Local Open Scope Z_scope.

Lemma fromFirstBrace_spec (s : string) :
  match fromFirstBrace s with
  | Some tail =>
      exists pre rest, s = (pre ++ tail)%string /\ tail = String "{" rest /\
                       forallb (fun c => negb (Ascii.eqb c "{")) (list_ascii_of_string pre)
                       = true
  | None => forallb (fun c => negb (Ascii.eqb c "{")) (list_ascii_of_string s) = true
  end.
Proof.
  induction s as [|ch s IH]; cbn [fromFirstBrace]; [reflexivity|].
  destruct (Ascii.eqb_spec ch "{") as [->|Hne].
  - exists EmptyString, s. repeat split.
  - destruct (fromFirstBrace s) as [tail|].
    + destruct IH as (pre & rest & -> & -> & Hpre).
      exists (String ch pre), rest. repeat split.
      cbn [list_ascii_of_string forallb]. rewrite Hpre.
      now rewrite (proj2 (Ascii.eqb_neq _ _) Hne).
    + cbn [list_ascii_of_string forallb]. rewrite IH.
      now rewrite (proj2 (Ascii.eqb_neq _ _) Hne).
Qed.

Lemma substring_0_S (n : nat) (c : ascii) (s : string) :
  String.substring 0 (S n) (String c s) = String c (String.substring 0 n s).
Proof. reflexivity. Qed.

Lemma scanBraces_spec (rest : string) : forall (scanned : nat) (depth : Z),
  1 <= depth ->
  match scanBraces rest scanned depth with
  | Some n =>
      exists m, n = (scanned + m)%nat /\ (0 < m <= String.length rest)%nat /\
                depth + braceDepth (String.substring 0 m rest) = 0 /\
                forall j, (j < m)%nat ->
                          0 < depth + braceDepth (String.substring 0 j rest)
  | None =>
      forall j, 0 < depth + braceDepth (String.substring 0 j rest)
  end.
Proof.
  induction rest as [|ch rest IH]; intros scanned depth Hd; cbn [scanBraces].
  - intros [|j]; cbn; lia.
  - destruct (Ascii.eqb_spec ch "{") as [->|Hopen].
    + cbn [Ascii.eqb Bool.eqb andb].
      specialize (IH (S scanned) (depth + 1) ltac:(lia)).
      destruct (scanBraces rest (S scanned) (depth + 1)) as [n|].
      * destruct IH as (m & -> & Hm & Hz & Hpos).
        exists (S m). rewrite substring_0_S. cbn [braceDepth String.length Ascii.eqb Bool.eqb andb].
        split; [lia|]; split; [lia|]; split; [lia|].
        intros [|j] Hj; [cbn; lia|].
        rewrite substring_0_S. cbn [braceDepth Ascii.eqb Bool.eqb andb].
        specialize (Hpos j ltac:(lia)). lia.
      * intros [|j]; [cbn; lia|].
        rewrite substring_0_S. cbn [braceDepth Ascii.eqb Bool.eqb andb].
        specialize (IH j). lia.
    + assert (Eo : Ascii.eqb ch "{" = false) by now apply Ascii.eqb_neq.
      destruct (Ascii.eqb_spec ch "}") as [->|Hclose].
      * destruct (Z.eqb_spec (depth - 1) 0) as [Hz|Hz].
        -- exists 1%nat. cbn [String.length]. rewrite substring_0_S.
           assert (E0 : String.substring 0 0 rest = EmptyString) by now destruct rest.
           rewrite E0. cbn [braceDepth Ascii.eqb Bool.eqb andb].
           split; [lia|]. split; [lia|]. split; [lia|].
           intros [|j] Hj; [cbn; lia|lia].
        -- specialize (IH (S scanned) (depth - 1) ltac:(lia)).
           destruct (scanBraces rest (S scanned) (depth - 1)) as [n|].
           ++ destruct IH as (m & -> & Hm & Hz' & Hpos).
              exists (S m). rewrite substring_0_S.
              cbn [braceDepth String.length Ascii.eqb Bool.eqb andb].
              split; [lia|]; split; [lia|]; split; [lia|].
              intros [|j] Hj; [cbn; lia|].
              rewrite substring_0_S. cbn [braceDepth Ascii.eqb Bool.eqb andb].
              specialize (Hpos j ltac:(lia)). lia.
           ++ intros [|j]; [cbn; lia|].
              rewrite substring_0_S. cbn [braceDepth Ascii.eqb Bool.eqb andb].
              specialize (IH j). lia.
      * assert (Ec : Ascii.eqb ch "}" = false) by now apply Ascii.eqb_neq.
        specialize (IH (S scanned) depth Hd).
        destruct (scanBraces rest (S scanned) depth) as [n|].
        -- destruct IH as (m & -> & Hm & Hz' & Hpos).
           exists (S m). rewrite substring_0_S.
           cbn [braceDepth String.length]. rewrite Eo, Ec.
           split; [lia|]; split; [lia|]; split; [lia|].
           intros [|j] Hj; [cbn; lia|].
           rewrite substring_0_S. cbn [braceDepth]. rewrite Eo, Ec.
           specialize (Hpos j ltac:(lia)). lia.
        -- intros [|j]; [cbn; lia|].
           rewrite substring_0_S. cbn [braceDepth]. rewrite Eo, Ec.
           specialize (IH j). lia.
Qed.

Lemma substring_split (n : nat) (s : string) :
  (n <= String.length s)%nat ->
  exists post, s = (String.substring 0 n s ++ post)%string /\
               String.length (String.substring 0 n s) = n.
Proof.
  revert s. induction n as [|n IH]; intros s Hn.
  - exists s. destruct s; now split.
  - destruct s as [|c s]; [cbn in Hn; lia|].
    cbn [String.length] in Hn. destruct (IH s ltac:(lia)) as (post & E & L).
    exists post. rewrite substring_0_S. cbn [append String.length].
    split; [now rewrite <- E|now rewrite L].
Qed.

Lemma substring_substring (j n : nat) (s : string) :
  (j <= n)%nat ->
  String.substring 0 j (String.substring 0 n s) = String.substring 0 j s.
Proof.
  revert n s. induction j as [|j IH]; intros n s Hj.
  - now destruct (String.substring 0 n s), s.
  - destruct n as [|n]; [lia|]. destruct s as [|c s]; [reflexivity|].
    rewrite !substring_0_S. f_equal. apply IH. lia.
Qed.

Lemma fromFirstBrace_app (pre rest : string) :
  forallb (fun c => negb (Ascii.eqb c "{")) (list_ascii_of_string pre) = true ->
  fromFirstBrace (pre ++ String "{" rest) = Some (String "{" rest).
Proof.
  induction pre as [|c pre IH]; cbn [append list_ascii_of_string forallb fromFirstBrace].
  - reflexivity.
  - intros H. apply andb_true_iff in H as [Hc Hpre].
    apply negb_true_iff in Hc. rewrite Hc. now apply IH.
Qed.

(** X19.  [extractFirstJsonObject] returns the empty string for a text
    without ['{'].  Otherwise it looks at the text from its first ['{'] on:
    it returns the start of it that ends at the bracket closing that ['{']
    (the braces of the piece balance, those of every shorter non-empty start
    of it do not), and the empty string exactly when no bracket closes it. *)
Theorem extractFirstJsonObject_spec (text : string) :
  let r := extractFirstJsonObject text in
  let noOpen (s : string) :=
    forallb (fun c => negb (Ascii.eqb c "{")) (list_ascii_of_string s) = true in
  (noOpen text -> r = EmptyString) /\
  (forall pre rest,
     text = (pre ++ String "{" rest)%string -> noOpen pre ->
     (r = EmptyString <->
      forall j, (0 < j)%nat ->
                0 < braceDepth (String.substring 0 j (String "{" rest))) /\
     (r <> EmptyString ->
      exists post,
        String "{" rest = (r ++ post)%string /\
        braceDepth r = 0 /\
        forall j, (0 < j < String.length r)%nat ->
                  0 < braceDepth (String.substring 0 j r))).
Proof.
  intros r noOpen. unfold r, extractFirstJsonObject. split.
  - intros Hno. pose proof (fromFirstBrace_spec text) as Hfirst.
    destruct (fromFirstBrace text) as [tail|]; [|reflexivity].
    destruct Hfirst as (pre & rest & -> & -> & Hpre). exfalso.
    unfold noOpen in Hno. rewrite list_of_string_app, forallb_app in Hno.
    apply andb_true_iff in Hno as [_ Hno]. cbn in Hno. discriminate.
  - intros pre rest -> Hpre. rewrite (fromFirstBrace_app pre rest Hpre).
    cbn [scanBraces Ascii.eqb Bool.eqb andb].
    pose proof (scanBraces_spec rest 1 (0 + 1) ltac:(lia)) as Hscan.
    destruct (scanBraces rest 1 (0 + 1)) as [n|].
    + destruct Hscan as (m & -> & Hm & Hz & Hpos).
      change (1 + m)%nat with (S m). rewrite substring_0_S.
      destruct (substring_split m rest ltac:(lia)) as (post & E & L).
      split.
      * split; [discriminate|]. intros Hnever. exfalso.
        specialize (Hnever (S m) ltac:(lia)). rewrite substring_0_S in Hnever.
        cbn [braceDepth Ascii.eqb Bool.eqb andb] in Hnever. lia.
      * intros _. exists post. split; [|split].
        -- cbn [append]. now rewrite <- E.
        -- cbn [braceDepth Ascii.eqb Bool.eqb andb]. lia.
        -- intros [|j] Hj; [lia|]. cbn [String.length] in Hj. rewrite L in Hj.
           rewrite substring_0_S. cbn [braceDepth Ascii.eqb Bool.eqb andb].
           rewrite substring_substring by lia.
           specialize (Hpos j ltac:(lia)). lia.
    + split; [|intros H; now contradiction H].
      split; [intros _|reflexivity].
      intros [|j] Hj; [lia|]. rewrite substring_0_S.
      cbn [braceDepth Ascii.eqb Bool.eqb andb]. specialize (Hscan j). lia.
Qed.
End Braces.

(** ** Twitter links among the Lens results *)

Lemma stripPrefix_spec (p : string) : forall s rest : string,
  stripPrefix p s = Some rest -> s = (p ++ rest)%string.
Proof.
  induction p as [|a p IH]; intros s rest; cbn [stripPrefix append].
  - destruct s; now intros [= ->].
  - destruct s as [|b s]; [discriminate|].
    destruct (Ascii.eqb_spec a b) as [->|_]; [|discriminate].
    intros H. now rewrite (IH s rest H).
Qed.

Lemma wordRun_spec (s : string) :
  allWordChars (wordRun s) = true /\ exists post, s = (wordRun s ++ post)%string.
Proof.
  unfold allWordChars.
  induction s as [|c s [IH1 [post IH2]]]; cbn [wordRun].
  - split; [reflexivity|now exists EmptyString].
  - destruct (isWordChar c) eqn:Ec.
    + cbn [list_ascii_of_string forallb append]. rewrite Ec, IH1.
      split; [reflexivity|]. exists post. now rewrite <- IH2.
    + split; [reflexivity|]. now exists (String c s).
Qed.

Lemma handleAfter_spec (domain s name : string) :
  handleAfter domain s = Some name ->
  name <> EmptyString /\ allWordChars name = true /\
  exists post, s = (domain ++ "/" ++ name ++ post)%string.
Proof.
  unfold handleAfter.
  destruct (stripPrefix (domain ++ "/") s) as [rest|] eqn:Ep; [|discriminate].
  apply stripPrefix_spec in Ep.
  destruct (wordRun_spec rest) as [Hw [post Hpost]].
  destruct (wordRun rest) as [|c w] eqn:Ew; [discriminate|].
  intros [= <-]. split; [discriminate|]. split; [exact Hw|].
  exists post. rewrite Ep, Hpost. now rewrite str_app_assoc.
Qed.

Lemma matchHandle_spec (url : string) : forall name : string,
  matchHandle url = Some name ->
  name <> EmptyString /\ allWordChars name = true /\
  exists pre post,
    (url = pre ++ "twitter.com" ++ "/" ++ name ++ post
     \/ url = pre ++ "x.com" ++ "/" ++ name ++ post)%string.
Proof.
  induction url as [|c url IH]; intros name; cbn [matchHandle]; unfold matchHandleAt.
  - cbn. discriminate.
  - destruct (handleAfter "twitter.com" (String c url)) as [n1|] eqn:E1.
    + intros [= <-]. destruct (handleAfter_spec _ _ _ E1) as (Hn & Hw & post & E).
      split; [exact Hn|]. split; [exact Hw|]. exists EmptyString, post. now left.
    + destruct (handleAfter "x.com" (String c url)) as [n2|] eqn:E2.
      * intros [= <-]. destruct (handleAfter_spec _ _ _ E2) as (Hn & Hw & post & E).
        split; [exact Hn|]. split; [exact Hw|]. exists EmptyString, post. now right.
      * intros H. destruct (IH name H) as (Hn & Hw & pre & post & E).
        split; [exact Hn|]. split; [exact Hw|].
        exists (String c pre), post. cbn [append].
        destruct E as [->| ->]; [left|right]; reflexivity.
Qed.

(** X20.  A handle [extractTwitterHandle] returns is ['@'] followed by a
    non-empty run of letters, digits and underscores that stands in the URL
    right after ["twitter.com/"] or ["x.com/"] and is none of the reserved
    path names; it returns one only for a URL that [isTwitterUrl] accepts. *)
Theorem extractTwitterHandle_spec (url h : string) :
  extractTwitterHandle url = Some h ->
  isTwitterUrl url = true /\
  exists name pre post,
    h = ("@" ++ name)%string /\
    name <> EmptyString /\ allWordChars name = true /\
    ~ In name reservedPaths /\
    (url = pre ++ "twitter.com/" ++ name ++ post
     \/ url = pre ++ "x.com/" ++ name ++ post)%string.
Proof.
  unfold extractTwitterHandle.
  destruct (matchHandle url) as [name|] eqn:Em; [|discriminate].
  destruct (existsb (String.eqb name) reservedPaths) eqn:Er; [discriminate|].
  intros [= <-].
  destruct (matchHandle_spec url name Em) as (Hn & Hw & pre & post & E).
  split.
  - unfold isTwitterUrl. apply orb_true_iff.
    destruct E as [E|E]; [left|right]; apply includes_spec;
      exists pre; eexists; exact E.
  - exists name, pre, post. split; [reflexivity|]. split; [exact Hn|].
    split; [exact Hw|]. split.
    + intros Hin.
      assert (H : existsb (String.eqb name) reservedPaths = true).
      { apply existsb_exists. exists name. split; [exact Hin|apply String.eqb_refl]. }
      congruence.
    + exact E.
Qed.

Lemma extractTwitterHandle_spec_witness :
  isTwitterUrl "https://x.com/alice_01/status/42" = true /\
  exists name pre post,
    "@alice_01"%string = ("@" ++ name)%string /\
    name <> EmptyString /\ allWordChars name = true /\
    ~ In name reservedPaths /\
    ("https://x.com/alice_01/status/42" = pre ++ "twitter.com/" ++ name ++ post
     \/ "https://x.com/alice_01/status/42" = pre ++ "x.com/" ++ name ++ post)%string.
Proof.
  apply (extractTwitterHandle_spec "https://x.com/alice_01/status/42" "@alice_01").
  reflexivity.
Defined.

(** ** The search, end to end *)

(** When the query returns, it has scored every record. *)
Lemma searchByEmbedding_ok (store : VectorStore) (q : list number) (topN : nat)
    (results : list SearchResult) :
  searchByEmbedding store q topN = Ok results ->
  results = firstn topN
              (jsSort (fun a b => (clipScore b - clipScore a)%float)
                      (map (scoredRecord q) store)).
Proof.
  intros E.
  assert (Hdim : Forall (fun r => List.length (embedding r) = List.length q) store).
  { rewrite Forall_forall. intros r Hr.
    destruct (Nat.eq_dec (List.length (embedding r)) (List.length q)) as [H|H];
      [exact H|exfalso].
    unfold searchByEmbedding, getAll in E. cbn [bind] in E.
    destruct store as [|r0 rest] eqn:Es; [destruct Hr|]. rewrite <- Es in *.
    replace (Nat.eqb (List.length store) 0) with false in E by (now rewrite Es).
    destruct (mapM _ store) as [scored|e] eqn:Em; [|discriminate].
    apply mapM_Forall2 in Em.
    assert (Hex : exists b, cosineSimilarity q (embedding r) = Ok b).
    { clear - Em Hr. induction Em as [|a b l l' Hab _ IH]; [destruct Hr|].
      destruct Hr as [->|Hr]; [|now apply IH].
      destruct (cosineSimilarity q (embedding r)) as [s|e]; [eauto|discriminate]. }
    destruct Hex as [b Hb].
    rewrite (cosineSimilarity_length_mismatch q (embedding r)) in Hb
      by (intros E'; apply H; now symmetry).
    discriminate. }
  rewrite (searchByEmbedding_scored store q topN Hdim) in E. now injection E.
Qed.

Lemma filter_scored (q : list number) (h : string) (store : VectorStore) :
  List.length (filter (ofAccount h) (map (scoredRecord q) store))
  = registrations store h.
Proof.
  unfold registrations.
  induction store as [|r store IH]; cbn [map filter]; [reflexivity|].
  unfold ofAccount at 1. cbn [scoredRecord record].
  destruct (String.eqb (accountHandle r) h); cbn [List.length]; now rewrite IH.
Qed.

Lemma filter_firstn_length {A : Type} (f : A -> bool) (n : nat) (l : list A) :
  List.length (filter f (firstn n l)) <= List.length (filter f l).
Proof.
  rewrite <- (firstn_skipn n l) at 2. rewrite filter_app, length_app. lia.
Qed.

(** Every element of a list is counted under exactly one of its keys. *)
Lemma count_once (k : string) (keys : list string) :
  NoDup keys -> In k keys ->
  list_sum (map (fun h => if String.eqb k h then 1 else 0) keys) = 1.
Proof.
  induction keys as [|h keys IH]; intros Hnd Hin; [destruct Hin|].
  inversion Hnd as [|? ? Hout Hnd']; subst. cbn [map]. simpl list_sum.
  destruct (String.eqb_spec k h) as [->|Hne].
  - assert (Hz : list_sum (map (fun h0 => if String.eqb h h0 then 1 else 0) keys) = 0).
    { clear - Hout. induction keys as [|a keys IH]; [reflexivity|].
      cbn [map]. simpl list_sum.
      destruct (String.eqb_spec h a) as [->|_]; [exfalso; apply Hout; now left|].
      rewrite IH; [reflexivity|]. intros H. apply Hout. now right. }
    lia.
  - destruct Hin as [->|Hin]; [now contradiction Hne|].
    rewrite (IH Hnd' Hin). reflexivity.
Qed.

Lemma list_sum_head (a : nat) (l : list nat) : list_sum (a :: l) = a + list_sum l.
Proof. reflexivity. Qed.

Lemma partition_by_key {A : Type} (key : A -> string) (keys : list string)
    (l : list A) :
  NoDup keys -> (forall x, In x l -> In (key x) keys) ->
  list_sum (map (fun h => List.length (filter (fun x => String.eqb (key x) h) l)) keys)
  = List.length l.
Proof.
  intros Hnd. induction l as [|x l IH]; intros Hall.
  - cbn [filter List.length]. clear. induction keys as [|h keys IH]; [reflexivity|].
    cbn [map]. simpl list_sum. now rewrite IH.
  - specialize (IH (fun y Hy => Hall y (or_intror Hy))).
    pose proof (count_once (key x) keys Hnd (Hall x (or_introl eq_refl))) as Hone.
    assert (G : list_sum (map (fun h => List.length
                                       (filter (fun y => String.eqb (key y) h) (x :: l)))
                              keys)
                = list_sum (map (fun h => if String.eqb (key x) h then 1 else 0) keys)
                  + list_sum (map (fun h => List.length
                                       (filter (fun y => String.eqb (key y) h) l))
                                  keys)).
    { clear. induction keys as [|h keys IHk]; [reflexivity|].
      cbn [map]. rewrite !list_sum_head, IHk. cbn [filter].
      destruct (String.eqb (key x) h); cbn [List.length]; lia. }
    rewrite G, Hone, IH. reflexivity.
Qed.

(** X21.  What a resolved search returns, in terms of the index as the
    vector query reads it: at most 50 candidates and no more than the index
    has records; each is an account of the index, no account twice; a
    candidate has an [imageCount] of at least 1 and lists at least one
    matched image and no more than its account has records; and the matched
    images of all candidates together are as many as the vector query
    returned, the smaller of 50 and the size of the index. *)
Theorem findSimilarAccounts_candidates
    (S : Services) (imageBase64 : string) (eventName0 : option string)
    (out : list ScoredCandidate) :
  snd (findSimilarAccounts S imageBase64 eventName0) = Ok out ->
  List.length out <= Nat.min TOP_N_SEARCH (List.length (vectorStore S)) /\
  NoDup (map candHandle out) /\
  list_sum (map (fun c => List.length (matchedImages c)) out)
  = Nat.min TOP_N_SEARCH (List.length (vectorStore S)) /\
  forall c, In c out ->
    In (candHandle c) (map accountHandle (vectorStore S)) /\
    1 <= imageCount c /\
    1 <= List.length (matchedImages c)
      <= registrations (vectorStore S) (candHandle c).
Proof.
  intros Hok.
  destruct (findSimilarAccounts_pipeline S imageBase64 eventName0 out Hok)
    as (cands & emb & h & _ & Eq & Es).
  apply searchByEmbedding_ok in Eq.
  set (sorted := jsSort (fun a b => (clipScore b - clipScore a)%float)
                        (map (scoredRecord emb) (vectorStore S))) in *.
  assert (Hperm : Permutation sorted (map (scoredRecord emb) (vectorStore S)))
    by apply jsSort_perm.
  destruct (scoreAndAggregate_structure _ _ _ _ _ _ Es)
    as (Hnd & Hhandles & Hcand & _).
  assert (Hlen : List.length cands
                 = Nat.min TOP_N_SEARCH (List.length (vectorStore S))).
  { rewrite Eq, length_firstn. unfold sorted.
    now rewrite jsSort_length, length_map. }
  assert (Hcount : forall h0,
             List.length (filter (ofAccount h0) cands)
             <= registrations (vectorStore S) h0).
  { intros h0. rewrite Eq.
    etransitivity; [apply filter_firstn_length|].
    rewrite (Permutation_filter_length _ _ _ Hperm). now rewrite filter_scored. }
  split; [|split; [exact Hnd|split]].
  - rewrite <- Hlen.
    rewrite <- (length_map candHandle out),
            <- (length_map (fun c => accountHandle (record c)) cands).
    apply NoDup_incl_length; [exact Hnd|].
    intros x Hx. now apply Hhandles.
  - rewrite <- Hlen.
    rewrite <- (partition_by_key (fun c => accountHandle (record c))
                  (map candHandle out) cands Hnd).
    + rewrite map_map. apply f_equal. apply map_ext_in. intros c Hc.
      destruct (Hcand c Hc) as (-> & _). now rewrite length_map.
    + intros x Hx. apply Hhandles.
      now apply (in_map (fun c => accountHandle (record c))).
  - intros c Hc. destruct (Hcand c Hc) as (Hm & Hne & Hic).
    assert (Hpos : 1 <= List.length (matchedImages c)).
    { destruct (matchedImages c); [now contradiction Hne|cbn; lia]. }
    assert (Hle : List.length (matchedImages c)
                  <= registrations (vectorStore S) (candHandle c)).
    { rewrite Hm, length_map. apply Hcount. }
    split; [apply registered_iff; lia|]. split; [lia|]. split; assumption.
Qed.

(** The search resolves when its collaborators do and the index has the
    dimension of the query. *)
Lemma findSimilarAccounts_resolves
    (S : Services) (imageBase64 : string) (eventName0 : option string)
    (embedding0 data : list number) :
  (if isCLIPReady S then Ok tt else initCLIP S) = Ok tt ->
  getImageEmbedding S imageBase64 = Ok embedding0 ->
  loadImageData (browser S) imageBase64 = Ok data ->
  Forall (fun r => List.length (embedding r) = List.length embedding0)
         (vectorStore S) ->
  exists out, snd (findSimilarAccounts S imageBase64 eventName0) = Ok out.
Proof.
  intros Hinit Hemb Hload Hdim.
  unfold findSimilarAccounts, findSimilarAccountsTask, bindT, report, await, ret.
  cbn [app].
  revert Hinit. destruct (isCLIPReady S); intros Hinit; try rewrite Hinit.
  all: cbn [app fst snd].
  all: rewrite Hemb; unfold computePHash; rewrite Hload; cbn [bind];
    rewrite (searchByEmbedding_scored _ _ TOP_N_SEARCH Hdim);
    match goal with |- context [Nat.eqb (List.length ?c) 0] => set (cands := c) end;
    destruct (Nat.eqb (List.length cands) 0); cbn [snd]; [eauto|];
    match goal with |- context [scoreAndAggregate ?a ?b ?c ?d ?e] =>
      destruct (scoreAndAggregate_returns a b c d e) as [results ->] end;
    cbn [snd]; eauto.
Qed.

Lemma findSimilarAccounts_candidates_witness :
  exists out,
    snd (findSimilarAccounts (sampleServices sampleIndex)
                             "data:image/jpeg;base64,AAAA" None) = Ok out /\
    List.length out <= Nat.min TOP_N_SEARCH 3 /\
    NoDup (map candHandle out) /\
    list_sum (map (fun c => List.length (matchedImages c)) out)
    = Nat.min TOP_N_SEARCH 3 /\
    forall c, In c out ->
      In (candHandle c) ["@alice"; "@alice"; "@bob"]%string /\
      1 <= imageCount c /\
      1 <= List.length (matchedImages c)
        <= registrations sampleIndex (candHandle c).
Proof.
  destruct (findSimilarAccounts_resolves (sampleServices sampleIndex)
              "data:image/jpeg;base64,AAAA" None
              [1%float; 0%float] [] eq_refl eq_refl eq_refl) as [out Hout].
  - repeat constructor.
  - exists out. split; [exact Hout|].
    exact (findSimilarAccounts_candidates (sampleServices sampleIndex)
             "data:image/jpeg;base64,AAAA" None out Hout).
Defined.

(** ** The top-N results are the best N *)

Lemma StronglySorted_app_inv {A : Type} (R : A -> A -> Prop) (l1 l2 : list A) :
  StronglySorted R (l1 ++ l2) ->
  forall a b, In a l1 -> In b l2 -> R a b.
Proof.
  induction l1 as [|x l1 IH]; intros Hs a b Ha Hb; [destruct Ha|].
  cbn [app] in Hs. inversion Hs as [|? ? Hs' Hall]; subst.
  destruct Ha as [->|Ha].
  - rewrite Forall_forall in Hall. apply Hall. apply in_or_app. now right.
  - now apply IH.
Qed.

(** X22.  When every score is a number, the records [searchByEmbedding]
    leaves out score no higher than any record it returns: the results and
    the records left out make up the scored index, and every result scores
    at least as high as every record left out. *)
Theorem searchByEmbedding_best
    (store : VectorStore) (queryEmbedding : list number) (topN : nat) :
  Forall (fun r => List.length (embedding r) = List.length queryEmbedding) store ->
  (forall r s, In r store ->
               cosineSimilarity queryEmbedding (embedding r) = Ok s ->
               PrimFloat.is_nan s = false) ->
  exists results rest,
    searchByEmbedding store queryEmbedding topN = Ok results /\
    Permutation (results ++ rest) (map (scoredRecord queryEmbedding) store) /\
    forall a b, In a results -> In b rest ->
                ge (clipScore a) (clipScore b) = true.
Proof.
  intros Hdim Hnum.
  set (sorted := jsSort (fun a b => (clipScore b - clipScore a)%float)
                        (map (scoredRecord queryEmbedding) store)).
  exists (firstn topN sorted), (skipn topN sorted).
  split; [now apply searchByEmbedding_scored|]. split.
  - rewrite firstn_skipn. apply jsSort_perm.
  - apply (StronglySorted_app_inv (fun a b => ge (clipScore a) (clipScore b) = true)).
    rewrite firstn_skipn. apply (jsSort_descending clipScore).
    rewrite Forall_forall. intros x Hx.
    apply in_map_iff in Hx as (r & <- & Hr).
    rewrite Forall_forall in Hdim.
    apply (Hnum r); [exact Hr|]. now apply scoredRecord_score, Hdim.
Qed.

Lemma searchByEmbedding_best_witness :
  exists results rest,
    searchByEmbedding [hugeRecord; unitRecord] [1%float] 1 = Ok results /\
    Permutation (results ++ rest) (map (scoredRecord [1%float]) [hugeRecord; unitRecord]) /\
    forall a b, In a results -> In b rest ->
                ge (clipScore a) (clipScore b) = true.
Proof.
  apply (searchByEmbedding_best [hugeRecord; unitRecord] [1%float] 1).
  - repeat constructor.
  - intros r s [<-|[<-|[]]] H; vm_compute in H;
      apply (f_equal (fun x => match x with
                               | Ok v => PrimFloat.is_nan v
                               | Throw _ => true
                               end)) in H;
      vm_compute in H; now symmetry.
Defined.

(** ** Ties *)

Lemma eqb_frank (x y : float) :
  PrimFloat.eqb x y = true ->
  PrimFloat.is_nan x = false /\ PrimFloat.is_nan y = false /\ frank x = frank y.
Proof.
  rewrite !is_nan_SF, eqb_spec. unfold SFeqb, frank. intros H.
  assert (Nx : SFis_nan (Prim2SF x) = false)
    by (destruct (Prim2SF x); try reflexivity; discriminate H).
  assert (Ny : SFis_nan (Prim2SF y) = false)
    by (destruct (Prim2SF x), (Prim2SF y); try reflexivity; discriminate H).
  split; [exact Nx|]. split; [exact Ny|].
  rewrite (SFcompare_rank _ _ (Prim2SF_valid x) (Prim2SF_valid y) Nx Ny) in H.
  destruct (Z.compare_spec (SFrank (Prim2SF x)) (SFrank (Prim2SF y))) as [E|E|E];
    [exact E|discriminate|discriminate].
Qed.

Section Stability.
Context {A : Type} (key : A -> number) (k : number).

Let comparefn (a b : A) : number := (key b - key a)%float.
Let sameKey (a : A) : bool := PrimFloat.eqb (key a) k.

Lemma sortInsert_ties (x : A) (l : list A) :
  filter sameKey (sortInsert comparefn x l)
  = if sameKey x then x :: filter sameKey l else filter sameKey l.
Proof.
  induction l as [|y l IH]; cbn [sortInsert filter]; [reflexivity|].
  destruct (sortsAfter comparefn x y) eqn:Es; cbn [filter]; [|reflexivity].
  rewrite IH.
  destruct (sameKey x) eqn:Ex; [|reflexivity].
  replace (sameKey y) with false; [reflexivity|].
  symmetry. unfold sortsAfter, comparefn in Es. rewrite sub_pos_ltb in Es.
  unfold sameKey in *. destruct (PrimFloat.eqb (key y) k) eqn:Ey; [|reflexivity].
  apply eqb_frank in Ex as (Nx & _ & Fx). apply eqb_frank in Ey as (Ny & _ & Fy).
  rewrite ltb_frank in Es by assumption. apply Z.ltb_lt in Es. lia.
Qed.

(** The sort keeps the elements of equal key in their order. *)
Lemma jsSort_ties (l : list A) :
  filter sameKey (jsSort comparefn l) = filter sameKey l.
Proof.
  induction l as [|x l IH]; cbn [jsSort fold_right filter]; [reflexivity|].
  fold (jsSort comparefn l). rewrite sortInsert_ties, IH. reflexivity.
Qed.
End Stability.

(** X23.  Ties keep the order of the index: when every score is a number,
    among the results of a query that asks for the whole index the records
    of any one score come in the order in which the index holds them. *)
Theorem searchByEmbedding_ties
    (store : VectorStore) (queryEmbedding : list number) (topN : nat)
    (score : number) :
  Forall (fun r => List.length (embedding r) = List.length queryEmbedding) store ->
  (forall r s, In r store ->
               cosineSimilarity queryEmbedding (embedding r) = Ok s ->
               PrimFloat.is_nan s = false) ->
  List.length store <= topN ->
  exists results,
    searchByEmbedding store queryEmbedding topN = Ok results /\
    map record (filter (fun r => PrimFloat.eqb (clipScore r) score) results)
    = filter (fun r => match cosineSimilarity queryEmbedding (embedding r) with
                       | Ok s => PrimFloat.eqb s score
                       | Throw _ => false
                       end) store.
Proof.
  intros Hdim _ Hall. eexists. split; [now apply searchByEmbedding_scored|].
  rewrite firstn_all2 by (rewrite jsSort_length, length_map; exact Hall).
  rewrite (jsSort_ties clipScore score).
  clear Hall. induction store as [|r store IH]; [reflexivity|].
  inversion Hdim as [|? ? Hr Hdim']; subst.
  cbn [map filter]. rewrite (scoredRecord_score queryEmbedding r Hr).
  destruct (PrimFloat.eqb (clipScore (scoredRecord queryEmbedding r)) score);
    cbn [map]; now rewrite IH.
Qed.

(** The scores against [[1]] are 0, 1, 1 and -1: the two records of score 1
    come out in the order of their keys. *)
Lemma searchByEmbedding_ties_witness :
  exists results,
    searchByEmbedding [hugeRecord; unitRecord; twinRecord; minusRecord]
                      [1%float] 4 = Ok results /\
    map (fun r => id (record r)) results
    = ["img_2"; "img_3"; "img_1"; "img_4"]%string /\
    map record (filter (fun r => PrimFloat.eqb (clipScore r) 1%float) results)
    = [unitRecord; twinRecord].
Proof.
  destruct (searchByEmbedding_ties
              [hugeRecord; unitRecord; twinRecord; minusRecord] [1%float] 4 1%float)
    as (results & E & Hties).
  - repeat constructor.
  - intros r s [<-|[<-|[<-|[<-|[]]]]] H; vm_compute in H;
      injection H as <-; reflexivity.
  - cbn. lia.
  - exists results. split; [exact E|]. split.
    + vm_compute in E. injection E as <-. reflexivity.
    + rewrite Hties. vm_compute. reflexivity.
Defined.

(** ** Closer hashes score higher *)

Lemma similarity_order_check :
  forallb (fun d1 =>
             forallb (fun d2 =>
                        Bool.eqb (Nat.ltb d1 d2)
                                 (gt (1 - numOfNat d1 / 64) (1 - numOfNat d2 / 64))%float)
                     (seq 0 65))
          (seq 0 65) = true.
Proof. vm_compute. reflexivity. Qed.

(** X24.  Among hashes of at most sixteen characters the similarity orders
    as the distance does, strictly: a hash is nearer to the query in Hamming
    distance exactly when its [pHashSimilarity] is greater. *)
Theorem pHashSimilarity_order (queryHash h1 h2 : string) :
  String.length queryHash <= 16 -> String.length h1 <= 16 ->
  String.length h2 <= 16 ->
  (hammingDistance queryHash h1 < hammingDistance queryHash h2 <->
   gt (pHashSimilarity queryHash h1) (pHashSimilarity queryHash h2) = true).
Proof.
  intros Lq L1 L2.
  assert (H1 : hammingDistance queryHash h1 <= 64)
    by (etransitivity; [apply hammingDistance_bound|]; lia).
  assert (H2 : hammingDistance queryHash h2 <= 64)
    by (etransitivity; [apply hammingDistance_bound|]; lia).
  unfold pHashSimilarity.
  set (d1 := hammingDistance queryHash h1) in *.
  set (d2 := hammingDistance queryHash h2) in *.
  pose proof similarity_order_check as Hc.
  rewrite forallb_forall in Hc.
  specialize (Hc d1 ltac:(apply in_seq; lia)).
  rewrite forallb_forall in Hc.
  specialize (Hc d2 ltac:(apply in_seq; lia)).
  apply Bool.eqb_prop in Hc. rewrite <- Hc. symmetry. apply Nat.ltb_lt.
Qed.

Lemma pHashSimilarity_order_witness :
  hammingDistance "00020e1e3e3e7e7e" "00020e1e3e3e7e7f"
  < hammingDistance "00020e1e3e3e7e7e" "ffffffffffffffff" <->
  gt (pHashSimilarity "00020e1e3e3e7e7e" "00020e1e3e3e7e7f")
     (pHashSimilarity "00020e1e3e3e7e7e" "ffffffffffffffff") = true.
Proof.
  apply (pHashSimilarity_order "00020e1e3e3e7e7e" "00020e1e3e3e7e7f"
           "ffffffffffffffff"); cbn; lia.
Defined.

(** ** A registered image is found *)

(** X25.  Register, then search.  On an index of fewer than 50 records with
    the dimension of the image's embedding, and with the model, the
    embedding and the image available: after [registerImage] has stored the
    image under a free identifier, [findSimilarAccounts] on the same image
    resolves, and the account it was registered for is among the candidates,
    with the new record among its matched images. *)
Theorem register_then_find
    (S : Services) (imageBase64 accountName0 accountHandle0 : string)
    (eventName0 eventName1 : option string) (newId : string) (now : number)
    (embedding0 data : list number) :
  (if isCLIPReady S then Ok tt else initCLIP S) = Ok tt ->
  getImageEmbedding S imageBase64 = Ok embedding0 ->
  loadImageData (browser S) imageBase64 = Ok data ->
  Forall (fun r => List.length (embedding r) = List.length embedding0)
         (vectorStore S) ->
  Store.hasKey (vectorStore S) newId = false ->
  List.length (vectorStore S) < TOP_N_SEARCH ->
  exists store' out c,
    registerImage S imageBase64 accountName0 accountHandle0 eventName0 newId now
    = Ok (newId, store') /\
    snd (findSimilarAccounts (withStore S store') imageBase64 eventName1) = Ok out /\
    In c out /\ candHandle c = accountHandle0 /\
    In newId (map fst (matchedImages c)).
Proof.
  intros Hinit Hemb Hload Hdim Hkey Hsmall.
  unfold registerImage. rewrite Hinit, Hemb. cbn [bind].
  unfold computePHash at 1. rewrite Hload. cbn [bind].
  unfold Store.add. rewrite Hkey. cbv zeta.
  cbn [Store.newEmbedding Store.newPHash Store.newAccountName Store.newAccountHandle
       Store.newEventName Store.newImageUrl].
  match goal with |- context [Store.insertByKey ?x _] => set (r := x) end.
  set (store' := Store.insertByKey r (vectorStore S)).
  pose proof (insertByKey_perm r (vectorStore S)) as Hperm. fold store' in Hperm.
  assert (Hdim' : Forall (fun x => List.length (embedding x) = List.length embedding0)
                         store').
  { apply (Permutation_Forall (Permutation_sym Hperm)). constructor;
      [reflexivity|exact Hdim]. }
  destruct (findSimilarAccounts_resolves (withStore S store') imageBase64 eventName1
              embedding0 data Hinit Hemb Hload Hdim') as [out Hout].
  destruct (findSimilarAccounts_pipeline _ _ _ _ Hout)
    as (cands & emb & h & Hemb' & Eq & Es).
  cbn [withStore getImageEmbedding vectorStore] in Hemb', Eq, Es.
  rewrite Hemb in Hemb'. injection Hemb' as <-.
  apply searchByEmbedding_ok in Eq.
  rewrite firstn_all2 in Eq
    by (rewrite jsSort_length, length_map, (Permutation_length Hperm);
        cbn [List.length]; unfold TOP_N_SEARCH in *; lia).
  assert (Hin : In (scoredRecord embedding0 r) cands).
  { rewrite Eq. apply jsSort_In. apply in_map.
    apply (Permutation_in _ (Permutation_sym Hperm)). now left. }
  destruct (scoreAndAggregate_structure _ _ _ _ _ _ Es) as (_ & Hhandles & Hcand & _).
  assert (Hh : In accountHandle0 (map candHandle out)).
  { apply Hhandles.
    apply (in_map (fun c => accountHandle (record c)) _ _ Hin). }
  apply in_map_iff in Hh as (c & Hc & Hcin).
  exists store', out, c. split; [reflexivity|]. split; [exact Hout|].
  split; [exact Hcin|]. split; [exact Hc|].
  destruct (Hcand c Hcin) as (Hm & _). rewrite Hm, map_map. cbn [fst].
  apply (in_map (fun o => id (record o)) _ (scoredRecord embedding0 r)).
  apply filter_In. split; [exact Hin|].
  unfold ofAccount. cbn [scoredRecord record]. rewrite Hc. apply String.eqb_refl.
Qed.

Lemma register_then_find_witness :
  exists store' out c,
    registerImage (sampleServices []) "data:image/jpeg;base64,AAAA" "Alice" "@alice"
                  None "img_1" 0%float
    = Ok ("img_1"%string, store') /\
    snd (findSimilarAccounts (withStore (sampleServices []) store')
                             "data:image/jpeg;base64,AAAA" None) = Ok out /\
    In c out /\ candHandle c = "@alice"%string /\
    In "img_1"%string (map fst (matchedImages c)).
Proof.
  apply (register_then_find (sampleServices []) "data:image/jpeg;base64,AAAA"
           "Alice" "@alice" None None "img_1" 0%float [1%float; 0%float] []);
    try reflexivity.
  - constructor.
  - unfold TOP_N_SEARCH. cbn. lia.
Defined.

(** ** The name of a candidate *)

Section GroupNames.
Variables (queryHash : string) (eventName0 : option string).

Lemma groupNames_snoc (processed : list SearchResult) (c : SearchResult)
    (m : list (string * AccountGroup)) :
  Forall (groupNameOf processed) m -> Forall (groupNameOf (processed ++ [c])) m.
Proof.
  intros H. rewrite Forall_forall in *. intros e He. specialize (H e He).
  unfold groupNameOf in *. rewrite find_snoc.
  destruct (find (ofAccount (fst e)) processed); [exact H|discriminate].
Qed.

Lemma filter_find_none (h : string) (processed : list SearchResult) :
  (forall c, In c processed -> accountHandle (record c) <> h) ->
  find (ofAccount h) processed = None.
Proof.
  induction processed as [|c l IH]; intros H; cbn [find]; [reflexivity|].
  unfold ofAccount at 1.
  rewrite (proj2 (String.eqb_neq _ _) (H c (or_introl eq_refl))).
  apply IH. intros; apply H; now right.
Qed.

Lemma addCandidate_named (processed : list SearchResult)
    (m : list (string * AccountGroup)) (c : SearchResult) :
  groupedUpTo queryHash eventName0 processed m ->
  Forall (groupNameOf processed) m ->
  Forall (groupNameOf (processed ++ [c])) (addCandidate queryHash eventName0 m c).
Proof.
  intros (Hnd & Hkeys & _) Hnames.
  apply (groupNames_snoc processed c) in Hnames.
  unfold addCandidate, mapHas. cbv zeta.
  set (key := accountHandle (record c)).
  destruct (mapGet key m) as [g|] eqn:Eg.
  - destruct (mapSet_present key
                {| groupName := groupName g; groupHandle := groupHandle g;
                   images := images g ++
                     [{| imageId := id (record c);
                         imageClipScore := clipScore c;
                         pHashScore := pHashSimilarity queryHash (pHash (record c));
                         metadataBonus :=
                           metadataBonusOf eventName0 (eventName (record c)) |}] |}
                g m Eg) as (m1 & m2 & Em & _ & Es).
    rewrite Eg, Es. subst m.
    apply Forall_app in Hnames as [H1 H2].
    inversion H2 as [|? ? Hg H2']; subst.
    apply Forall_app. split; [exact H1|]. constructor; [|exact H2'].
    unfold groupNameOf in *. cbn [fst snd groupName] in *. exact Hg.
  - pose proof (proj1 (mapGet_None key m) Eg) as Hn.
    rewrite (mapSet_absent key _ m Eg).
    rewrite (mapGet_app_absent key m _ Hn). cbn [mapGet].
    rewrite String.eqb_refl.
    assert (Eset : forall (v v' : AccountGroup),
               mapSet key v (m ++ [(key, v')]) = m ++ [(key, v)]).
    { intros v v'. clear - Hn. induction m as [|[k v0] m IH]; cbn [app mapSet].
      - now rewrite String.eqb_refl.
      - cbn [map fst In] in Hn.
        destruct (String.eqb_spec k key) as [->|Hne]; [tauto|].
        rewrite IH by tauto. reflexivity. }
    rewrite Eset. cbn [groupName groupHandle images app].
    apply Forall_app. split; [exact Hnames|]. constructor; [|constructor].
    unfold groupNameOf. cbn [fst snd groupName]. rewrite find_snoc.
    rewrite (filter_find_none key processed).
    + unfold ofAccount, key. now rewrite String.eqb_refl.
    + intros c' Hc' E. apply Hn. rewrite <- E. now apply Hkeys.
Qed.

Lemma groupCandidates_named (candidates : list SearchResult) :
  Forall (groupNameOf candidates) (groupCandidates queryHash eventName0 candidates).
Proof.
  unfold groupCandidates.
  induction candidates as [|c l IH] using rev_ind; [constructor|].
  rewrite fold_left_app. cbn [fold_left].
  apply addCandidate_named; [apply groupCandidates_grouped|exact IH].
Qed.
End GroupNames.

Lemma candidateOf_name (accountCountMap : list (string * nat)) (maxCount : nat)
    (e : string * AccountGroup) (c : ScoredCandidate) :
  candidateOf accountCountMap maxCount e = Ok c -> candName c = groupName (snd e).
Proof.
  destruct e as [h data]. unfold candidateOf.
  destruct (reduceBest (images data)); [|discriminate].
  cbn [bind]. intros [= <-]. reflexivity.
Qed.

(** X26.  The name a candidate carries is the [accountName] of the first
    of the candidates of its account (the best-ranked one, as the query
    hands the candidates over in rank order), whatever names the other
    records of the handle carry. *)
Theorem scoreAndAggregate_names
    (store : VectorStore) (candidates : list SearchResult)
    (queryEmbedding : list number) (queryHash : string)
    (eventName0 : option string) :
  exists results,
    scoreAndAggregate store candidates queryEmbedding queryHash eventName0
    = Ok results /\
    forall c, In c results ->
      exists first,
        find (ofAccount (candHandle c)) candidates = Some first /\
        candName c = accountName (record first).
Proof.
  destruct (scoreAndAggregate_returns store candidates queryEmbedding queryHash
              eventName0) as [results E].
  exists results. split; [exact E|].
  unfold scoreAndAggregate in E.
  destruct (getUniqueAccounts store) as [unique|e]; [|discriminate].
  cbn [bind] in E.
  set (countMap := fold_left _ unique []) in E.
  destruct (mapM (candidateOf countMap (maxCountOf unique))
                 (groupCandidates queryHash eventName0 candidates))
    as [results0|e] eqn:Er; [|discriminate].
  cbn [bind] in E. injection E as <-.
  intros c Hc. apply (proj1 (jsSort_In _ c results0)) in Hc.
  apply mapM_Forall2 in Er.
  destruct (Forall2_In_r _ _ _ _ Er Hc) as (e & He & Hce).
  pose proof (groupCandidates_named queryHash eventName0 candidates) as Hnames.
  destruct (groupCandidates_grouped queryHash eventName0 candidates) as (_ & _ & Hall).
  rewrite Forall_forall in Hnames, Hall.
  specialize (Hnames e He). unfold groupNameOf in Hnames.
  destruct (candidateOf_spec queryHash eventName0 candidates countMap
              (maxCountOf unique) e (Hall e He)) as (c' & best & Hc' & _ & _ & Hf & _).
  rewrite Hce in Hc'. injection Hc' as Ecc. subst c'.
  rewrite Hf, (candidateOf_name _ _ _ _ Hce).
  destruct (find (ofAccount (fst e)) candidates) as [first|]; [|discriminate].
  exists first. split; [reflexivity|]. now injection Hnames.
Qed.
